(** * Upload-with-recovery pipeline of plugin-image-generation

    Shallow embedding of
    [packages/plugin-image-generation/src/utils/supabase.ts]:
    [validateImage], [retryOperation] and [uploadGeneratedImage].

    The file system, the clock and the Supabase client are external to the
    repository.  They are an environment [Env] of state transformers over an
    arbitrary world [W]; every call the program makes to them is recorded in
    a trace.  A concrete world with a record table and a blob store is
    given in [Module Sim].

    The last part adds the query operations of the same file,
    [getLatestGeneratedImage], [getGeneratedImageById] and
    [verifyImageAccess], and [getLatestImage] of
    [packages/plugin-twitter/src/actions/postImage.ts]. *)

From Stdlib Require Import ZArith NArith Lia Bool Ascii String List.
From Stdlib.Strings Require Import Byte.
From stdpp Require Import gmap strings list pretty.

Set Warnings "-register-all".
Local Open Scope string_scope.
Local Open Scope Z_scope.

(** ** JavaScript strings

    File paths are byte strings.  The program only compares against the
    ASCII characters [.] and [/] and the letters of four lower-case
    extensions, so bytes above 127 are carried along unchanged. *)

Module Js.

(** [s.split(sep)] for a one-character separator.  The result is never
    empty: a string without separator is the only piece. *)
Fixpoint split (sep : ascii) (s : string) : list string :=
  match s with
  | EmptyString => [EmptyString]
  | String c s' =>
      if Ascii.eqb c sep then EmptyString :: split sep s'
      else match split sep s' with
           | [] => [String c EmptyString]
           | piece :: rest => String c piece :: rest
           end
  end.

(** [arr.pop()]: the last element, [undefined] on an empty array. *)
Definition pop (arr : list string) : option string := last arr.

Definition lower_ascii (c : ascii) : ascii :=
  let n := N_of_ascii c in
  if ((65 <=? n) && (n <=? 90))%N then ascii_of_N (n + 32) else c.

(** [s.toLowerCase()] on the ASCII letters. *)
Fixpoint toLowerCase (s : string) : string :=
  match s with
  | EmptyString => EmptyString
  | String c s' => String (lower_ascii c) (toLowerCase s')
  end.

(** [arr.includes(x)] *)
Definition includes (arr : list string) (x : string) : bool :=
  existsb (String.eqb x) arr.

(** [s.startsWith(p)] *)
Definition startsWith (s p : string) : bool := String.prefix p s.

(** Truthiness of a [string | undefined]. *)
Definition truthy (o : option string) : bool :=
  match o with
  | None => false
  | Some s => negb (String.eqb s "")
  end.

Definition hex_digit (n : N) : ascii :=
  if (n <? 10)%N then ascii_of_N (48 + n) else ascii_of_N (87 + n).

Definition hex_byte (b : byte) : string :=
  let n := Byte.to_N b in
  String (hex_digit (n / 16)) (String (hex_digit (n mod 16)) EmptyString).

(** [buffer.toString('hex')] *)
Fixpoint toString_hex (buf : list byte) : string :=
  match buf with
  | [] => EmptyString
  | b :: buf' => hex_byte b +:+ toString_hex buf'
  end.

(** [Buffer.alloc(n)]: [n] zero bytes. *)
Definition Buffer_alloc (n : nat) : list byte := repeat x00 n.

(** The buffer after [fd.read(buffer, 0, length, 0)] delivered [got]:
    at most [length] bytes are stored, the others keep their value. *)
Definition Buffer_fill (buffer : list byte) (len : nat) (got : list byte) : list byte :=
  let stored := firstn (Nat.min len (List.length buffer)) got in
  stored ++ skipn (List.length stored) buffer.

End Js.

(** ** Thrown values *)

(** What a [catch] clause can receive: an [Error] instance, some other
    object (the client's error objects need not be [Error]s), or [null]
    ([retryOperation] throws its initial [lastError] when the loop body
    never ran). *)
Inductive thrown :=
| JsError (name message stack : string)
| JsObject (message : string)
| JsNull.

(** [error instanceof Error] *)
Definition instanceof_Error (e : thrown) : bool :=
  match e with JsError _ _ _ => true | _ => false end.

(** [error.message] of an object that has one. *)
Definition message_of (e : thrown) : string :=
  match e with
  | JsError _ m _ => m
  | JsObject m => m
  | JsNull => ""
  end.

(** ** Records, rows and patches *)

(** Values stored under [metadata]. *)
Inductive jvalue :=
| JStr (s : string)
| JNum (n : Z)
| JUndefined
| JObj (fields : list (string * jvalue)).

Abbreviation metadata_t := (gmap string jvalue).

(** [interface GeneratedImageRecord] *)
Record GeneratedImageRecord := {
  id : string;
  created_at : string;
  storage_path : string;
  original_filepath : string;
  prompt : string;
  status : string;
  error_message : option string;
  metadata : option metadata_t
}.

(** The object passed to [.insert([...])]. *)
Record insert_row := {
  ins_original_filepath : string;
  ins_prompt : string;
  ins_status : string;
  ins_storage_path : string;
  ins_metadata : metadata_t
}.

(** The object passed to [.update(...)]: the columns it names. *)
Record patch := {
  upd_storage_path : option string;
  upd_status : option string;
  upd_error_message : option string;
  upd_metadata : option metadata_t
}.

(** [{ data, error }] as the client types it: exactly one is set. *)
Inductive response (T : Type) :=
| RespData (data : T)
| RespError (error : thrown).
Arguments RespData {T} data.
Arguments RespError {T} error.

(** ** Events *)

Inductive log_level := LogInfo | LogWarn | LogError.

Definition fd_t := nat.

Inductive fs_call :=
| FsExistsSync (path : string)
| FsStat (path : string)
| FsOpen (path : string)
| FsRead (fd : fd_t) (length position : nat)
| FsClose (fd : fd_t)
| FsReadFile (path : string).

Inductive net_call :=
| NetInsert (row : insert_row)
| NetUpload (bucket key : string) (body : list byte) (contentType : string) (upsert : bool)
| NetUpdate (p : patch) (eq_id : string) (returning : bool).

Inductive event :=
| EvLog (level : log_level) (msg : string)
| EvSleep (ms : Z)
| EvFs (c : fs_call)
| EvNet (c : net_call)
| EvInvoke.

Definition is_net (e : event) : bool :=
  match e with EvNet _ => true | _ => false end.

Definition is_invoke (e : event) : bool :=
  match e with EvInvoke => true | _ => false end.

Definition sleep_ms (e : event) : Z :=
  match e with EvSleep ms => ms | _ => 0 end.

(** The network calls of a trace, in order. *)
Definition net_calls (tr : list event) : list net_call :=
  omap (fun e => match e with EvNet c => Some c | _ => None end) tr.

(** The file-system calls of a trace, in order. *)
Definition fs_calls (tr : list event) : list fs_call :=
  omap (fun e => match e with EvFs c => Some c | _ => None end) tr.

(** Number of invocations of an observed operation. *)
Definition invocations (tr : list event) : nat :=
  List.length (List.filter is_invoke tr).

(** Sum of the delays handed to [setTimeout]. *)
Definition total_wait (tr : list event) : Z :=
  fold_right (fun e acc => sleep_ms e + acc) 0 tr.

(** ** The environment

    Each external call is a transformer of the world.  File-system calls and
    client calls may throw (a rejected promise); a client call that does
    not throw answers with a [response].  [existsSync] and the clock do not
    fail.  Sizes are natural numbers, as [stats.size] is. *)

Record Env (W : Type) := {
  date_now : W -> W * Z;
  toISOString : Z -> string;
  stack_trace : string -> string;
  setTimeout : Z -> W -> W;
  existsSync : string -> W -> W * bool;
  stat_size : string -> W -> W * (thrown + N);
  fs_open : string -> W -> W * (thrown + fd_t);
  fd_read : fd_t -> nat -> nat -> W -> W * (thrown + list byte);
  fd_close : fd_t -> W -> W * (thrown + unit);
  readFile : string -> W -> W * (thrown + list byte);
  db_insert : insert_row -> W -> W * (thrown + response GeneratedImageRecord);
  storage_upload :
    string -> string -> list byte -> string -> bool -> W -> W * (thrown + response string);
  getPublicUrl : string -> string -> string;
  db_update_select : patch -> string -> W -> W * (thrown + response GeneratedImageRecord);
  db_update : patch -> string -> W -> W * (thrown + response unit)
}.
Arguments date_now {W} _ _.
Arguments toISOString {W} _ _.
Arguments stack_trace {W} _ _.
Arguments setTimeout {W} _ _ _.
Arguments existsSync {W} _ _ _.
Arguments stat_size {W} _ _ _.
Arguments fs_open {W} _ _ _.
Arguments fd_read {W} _ _ _ _ _.
Arguments fd_close {W} _ _ _.
Arguments readFile {W} _ _ _.
Arguments db_insert {W} _ _ _.
Arguments storage_upload {W} _ _ _ _ _ _ _.
Arguments getPublicUrl {W} _ _ _.
Arguments db_update_select {W} _ _ _ _.
Arguments db_update {W} _ _ _ _.

(** ** The monad of the program

    A computation transforms the state and either throws or returns.  The
    state is the world, the trace of the calls made so far, and the local
    variable [recordId] of [uploadGeneratedImage], which the [try] block
    assigns and the [catch] block reads. *)

Record state (W : Type) := {
  world : W;
  trace : list event;
  var_recordId : option string
}.
Arguments world {W} _.
Arguments trace {W} _.
Arguments var_recordId {W} _.

Definition M (W A : Type) : Type := state W -> state W * (thrown + A).

Section Monad.
Context {W : Type}.

Definition ret {A} (a : A) : M W A := fun s => (s, inr a).

Definition throw {A} (e : thrown) : M W A := fun s => (s, inl e).

Definition bind {A B} (m : M W A) (k : A -> M W B) : M W B :=
  fun s => match m s with
           | (s', inl e) => (s', inl e)
           | (s', inr a) => k a s'
           end.

(** [try { m } catch (e) { h e }] *)
Definition try_catch {A} (m : M W A) (h : thrown -> M W A) : M W A :=
  fun s => match m s with
           | (s', inl e) => h e s'
           | (s', inr a) => (s', inr a)
           end.

Definition emit (ev : event) (s : state W) : state W :=
  {| world := world s; trace := trace s ++ [ev]; var_recordId := var_recordId s |}.

Definition with_world (w : W) (s : state W) : state W :=
  {| world := w; trace := trace s; var_recordId := var_recordId s |}.

(** An external call, recorded in the trace before it runs. *)
Definition perform {A} (ev : event) (f : W -> W * (thrown + A)) : M W A :=
  fun s => let (w', r) := f (world s) in (with_world w' (emit ev s), r).

(** An external call that cannot fail and leaves no trace (the clock). *)
Definition peek {A} (f : W -> W * A) : M W A :=
  fun s => let (w', a) := f (world s) in (with_world w' s, inr a).

(** [elizaLogger.log / warn / error]: only the fixed text of the message is
    kept. *)
Definition log (level : log_level) (msg : string) : M W unit :=
  fun s => (emit (EvLog level msg) s, inr tt).

Definition set_recordId (v : option string) : M W unit :=
  fun s => ({| world := world s; trace := trace s; var_recordId := v |}, inr tt).

Definition get_recordId : M W (option string) :=
  fun s => (s, inr (var_recordId s)).

End Monad.

Declare Scope prog_scope.
Delimit Scope prog_scope with prog.
Notation "'do' x <- m ; k" := (bind m (fun x => k))
  (at level 10, x name, m at level 100, k at level 200) : prog_scope.
Notation "m >> k" := (bind m (fun _ => k))
  (at level 100, k at level 200, right associativity) : prog_scope.

(** ** The program *)

Section Program.
Context {W : Type} (env : Env W).
Local Open Scope prog_scope.

Definition now : M W Z := peek (date_now env).

(** [await new Promise(resolve => setTimeout(resolve, delay))] *)
Definition sleep (delay : Z) : M W unit :=
  perform (EvSleep delay) (fun w => (setTimeout env delay w, inr tt)).

Definition fs_existsSync (path : string) : M W bool :=
  perform (EvFs (FsExistsSync path))
          (fun w => let (w', b) := existsSync env path w in (w', inr b)).

Definition fs_stat (path : string) : M W N :=
  perform (EvFs (FsStat path)) (stat_size env path).

Definition fs_promises_open (path : string) : M W fd_t :=
  perform (EvFs (FsOpen path)) (fs_open env path).

Definition fd_read_into (fd : fd_t) (length position : nat) : M W (list byte) :=
  perform (EvFs (FsRead fd length position)) (fd_read env fd length position).

Definition fd_close_ (fd : fd_t) : M W unit :=
  perform (EvFs (FsClose fd)) (fd_close env fd).

Definition fs_readFile (path : string) : M W (list byte) :=
  perform (EvFs (FsReadFile path)) (readFile env path).

(** [new Error(message)] *)
Definition new_Error (message : string) : thrown :=
  JsError "Error" message (stack_trace env message).

Definition MAX_SIZE : N := 5 * 1024 * 1024.

Definition allowed_extensions : list string := ["png"; "jpg"; "jpeg"; "gif"].

(** [filepath.split('.').pop()?.toLowerCase()] *)
Definition extension_of (filepath : string) : option string :=
  option_map Js.toLowerCase (Js.pop (Js.split "." filepath)).

(** The three magic-number tests on the four-byte buffer. *)
Definition isPNG (buffer : list byte) : bool :=
  Js.startsWith (Js.toString_hex buffer) "89504e47".
Definition isJPEG (buffer : list byte) : bool :=
  Js.startsWith (Js.toString_hex buffer) "ffd8".
Definition isGIF (buffer : list byte) : bool :=
  Js.startsWith (Js.toString_hex buffer) "47494638".

Definition validateImage (filepath : string) : M W bool :=
  try_catch
    (log LogInfo "Starting image validation for:" >>
     do found <- fs_existsSync filepath;
     if negb found then
       log LogError "Image file does not exist:" >> ret false
     else
       do size <- fs_stat filepath;
       log LogInfo "Image file stats:" >>
       if (size =? 0)%N then
         log LogError "Image file is empty" >> ret false
       else if (MAX_SIZE <? size)%N then
         log LogError "Image file is too large:" >> ret false
       else
         let ext := extension_of filepath in
         if negb (Js.truthy ext)
            || negb (Js.includes allowed_extensions (default "" ext)) then
           log LogError "Invalid image file extension:" >> ret false
         else
           do fd <- fs_promises_open filepath;
           let buffer := Js.Buffer_alloc 4 in
           do got <- fd_read_into fd 4 0;
           let buffer := Js.Buffer_fill buffer 4 got in
           fd_close_ fd >>
           if negb (isPNG buffer) && negb (isJPEG buffer) && negb (isGIF buffer) then
             log LogError "File does not appear to be a valid image" >> ret false
           else
             log LogInfo "Image validation successful" >> ret true)
    (fun error =>
       log LogError "Image validation failed with error:" >> ret false).

(** The [for] loop of [retryOperation], entered with the loop variable at
    [attempt].  [fuel] bounds the number of iterations; [maxRetries]
    iterations are all the loop can make (see [retry_loop_fuel]). *)
Fixpoint retry_loop {T} (fuel : nat) (operation : M W T)
    (maxRetries attempt : nat) (delay : Z) (lastError : thrown) : M W T :=
  match fuel with
  | O => throw lastError
  | S fuel' =>
      if (attempt <=? maxRetries)%nat then
        try_catch operation
          (fun error =>
             if (attempt =? maxRetries)%nat then throw error
             else
               log LogWarn "Operation failed, attempt ${attempt}/${maxRetries}. Retrying in ${delay}ms..." >>
               sleep delay >>
               retry_loop fuel' operation maxRetries (S attempt) (delay * 2) error)
      else throw lastError
  end.

Definition retryOperation {T} (operation : M W T) (maxRetries : nat) (delay : Z)
  : M W T :=
  retry_loop maxRetries operation maxRetries 1 delay JsNull.

(** [if (result.error) throw result.error; return result;] *)
Definition throw_on_error {T} (result : response T) : M W (response T) :=
  match result with
  | RespError error => throw error
  | RespData _ => ret result
  end.

(** [{...m}] of an optional object. *)
Definition spread (m : option metadata_t) : metadata_t := default ∅ m.

Definition jstr_opt (o : option string) : jvalue :=
  match o with Some s => JStr s | None => JUndefined end.

Definition BUCKET : string := "generated-images".

Definition insert_operation (filepath prompt : string)
  : M W (response GeneratedImageRecord) :=
  do t <- now;
  let row :=
    {| ins_original_filepath := filepath;
       ins_prompt := prompt;
       ins_status := "uploading";
       ins_storage_path := "";
       ins_metadata :=
         <["attempts" := JNum 1]>
           (<["originalFilename" := jstr_opt (Js.pop (Js.split "/" filepath))]>
              (<["uploadStarted" := JStr (toISOString env t)]> ∅)) |} in
  do result <- perform (EvNet (NetInsert row)) (db_insert env row);
  throw_on_error result.

Definition upload_operation (storagePath : string) (fileBuffer : list byte)
  : M W (response string) :=
  do result <- perform (EvNet (NetUpload BUCKET storagePath fileBuffer "image/png" true))
                       (storage_upload env BUCKET storagePath fileBuffer "image/png" true);
  throw_on_error result.

Definition completed_patch (publicUrl : string) (recordData : GeneratedImageRecord)
    (t_completed t_now uploadStartTime : Z) : patch :=
  {| upd_storage_path := Some publicUrl;
     upd_status := Some "completed";
     upd_error_message := None;
     upd_metadata :=
       Some (<["processingTime" := JNum (t_now - uploadStartTime)]>
               (<["uploadCompleted" := JStr (toISOString env t_completed)]>
                  (spread (metadata recordData)))) |}.

Definition complete_operation (publicUrl : string) (recordData : GeneratedImageRecord)
    (uploadStartTime : Z) : M W (response GeneratedImageRecord) :=
  do t_completed <- now;
  do t_now <- now;
  let p := completed_patch publicUrl recordData t_completed t_now uploadStartTime in
  do recordId <- get_recordId;
  do result <- perform (EvNet (NetUpdate p (default "" recordId) true))
                       (db_update_select env p (default "" recordId));
  throw_on_error result.

Definition error_details (error : thrown) : jvalue :=
  match error with
  | JsError name message stack =>
      JObj [("name", JStr name); ("message", JStr message); ("stack", JStr stack)]
  | _ => JStr "Unknown error type"
  end.

Definition error_patch (error : thrown) (t_error failureTime : Z) : patch :=
  {| upd_storage_path := None;
     upd_status := Some "error";
     upd_error_message :=
       Some (if instanceof_Error error then message_of error else "Unknown error");
     upd_metadata :=
       Some (<["errorDetails" := error_details error]>
               (<["processingTime" := JNum failureTime]>
                  (<["errorTimestamp" := JStr (toISOString env t_error)]> ∅))) |}.

Definition fail_operation (error : thrown) (failureTime : Z) : M W (response unit) :=
  do t_error <- now;
  let p := error_patch error t_error failureTime in
  do recordId <- get_recordId;
  do result <- perform (EvNet (NetUpdate p (default "" recordId) false))
                       (db_update env p (default "" recordId));
  throw_on_error result.

(** The [try] block of [uploadGeneratedImage]. *)
Definition upload_try (filepath prompt : string) (uploadStartTime : Z)
  : M W (option GeneratedImageRecord) :=
  log LogInfo "Starting image upload process for:" >>
  log LogInfo "Upload details:" >>
  do isValid <- validateImage filepath;
  if negb isValid then
    throw (new_Error "Image validation failed - check previous logs for details")
  else
    do created <- retryOperation (insert_operation filepath prompt) 3 1000;
    match created with
    | RespError recordError =>
        throw (new_Error ("Failed to create database record: " +:+ message_of recordError))
    | RespData recordData =>
        set_recordId (Some (id recordData)) >>
        log LogInfo "Created database record:" >>
        do fileBuffer <- fs_readFile filepath;
        let filename := Js.pop (Js.split "/" filepath) in
        if negb (Js.truthy filename) then
          throw (new_Error "Invalid filepath - no filename found")
        else
          let storagePath :=
            "generated-images/" +:+ id recordData +:+ "_" +:+ default "" filename in
          log LogInfo "Attempting storage upload:" >>
          do stored <- retryOperation (upload_operation storagePath fileBuffer) 3 1000;
          match stored with
          | RespError storageError =>
              throw (new_Error ("Storage upload failed: " +:+ message_of storageError))
          | RespData storageData =>
              let publicUrl := getPublicUrl env BUCKET storagePath in
              log LogInfo "Storage upload successful:" >>
              do updated <- retryOperation
                              (complete_operation publicUrl recordData uploadStartTime) 3 1000;
              match updated with
              | RespError updateError =>
                  throw (new_Error ("Failed to update record: " +:+ message_of updateError))
              | RespData updatedRecord =>
                  do t_end <- now;
                  log LogInfo "Upload process completed successfully:" >>
                  ret (Some updatedRecord)
              end
          end
    end.

(** The [catch] block of [uploadGeneratedImage]. *)
Definition upload_catch (uploadStartTime : Z) (error : thrown)
  : M W (option GeneratedImageRecord) :=
  do t_fail <- now;
  let failureTime := t_fail - uploadStartTime in
  log LogError "Error in uploadGeneratedImage:" >>
  do recordId <- get_recordId;
  (if Js.truthy recordId then
     try_catch
       (retryOperation (fail_operation error failureTime) 3 1000 >> ret tt)
       (fun updateError =>
          log LogError "Failed to update record with error status:")
   else ret tt) >>
  ret None.

Definition uploadGeneratedImage (filepath prompt : string)
  : M W (option GeneratedImageRecord) :=
  set_recordId None >>
  do uploadStartTime <- now;
  try_catch (upload_try filepath prompt uploadStartTime)
            (upload_catch uploadStartTime).

End Program.

(** ** A concrete world

    The collaborators of section 6 of the specification as one state: a
    file system, a table [generated_images], a bucket, a clock, and a
    schedule that decides which of the coming client calls fail.  A failing
    call answers with an error object and changes nothing. *)

Module Sim.

Inductive outcome :=
| Succeeds
| Fails (error : thrown).

Record sim := {
  files : gmap string (list byte);
  fds : gmap nat string;
  rows : list GeneratedImageRecord;
  next_id : nat;
  blobs : gmap string (list byte * string);
  clock : Z;
  latency : Z;
  schedule : list outcome
}.

Definition set_fds (f : gmap nat string) (w : sim) : sim :=
  {| files := files w; fds := f; rows := rows w;
     next_id := next_id w; blobs := blobs w; clock := clock w;
     latency := latency w; schedule := schedule w |}.

Definition set_clock (t : Z) (w : sim) : sim :=
  {| files := files w; fds := fds w; rows := rows w;
     next_id := next_id w; blobs := blobs w; clock := t;
     latency := latency w; schedule := schedule w |}.

Definition set_rows (rs : list GeneratedImageRecord) (n : nat) (w : sim) : sim :=
  {| files := files w; fds := fds w; rows := rs;
     next_id := n; blobs := blobs w; clock := clock w;
     latency := latency w; schedule := schedule w |}.

Definition set_blobs (b : gmap string (list byte * string)) (w : sim) : sim :=
  {| files := files w; fds := fds w; rows := rows w;
     next_id := next_id w; blobs := b; clock := clock w;
     latency := latency w; schedule := schedule w |}.

Definition set_schedule (sch : list outcome) (w : sim) : sim :=
  {| files := files w; fds := fds w; rows := rows w;
     next_id := next_id w; blobs := blobs w; clock := clock w;
     latency := latency w; schedule := sch |}.

Definition enoent (path : string) : thrown :=
  JsError "Error" ("ENOENT: no such file or directory, " +:+ path) "".

Definition ebadf : thrown := JsError "Error" "EBADF: bad file descriptor" "".

Definition sim_stat (path : string) (w : sim) : sim * (thrown + N) :=
  match files w !! path with
  | Some content => (w, inr (N.of_nat (List.length content)))
  | None => (w, inl (enoent path))
  end.

Definition sim_open (path : string) (w : sim) : sim * (thrown + fd_t) :=
  match files w !! path with
  | Some _ =>
      let fd := fresh (dom (fds w)) in
      (set_fds (<[fd := path]> (fds w)) w, inr fd)
  | None => (w, inl (enoent path))
  end.

Definition sim_read (fd : fd_t) (len pos : nat) (w : sim) : sim * (thrown + list byte) :=
  match fds w !! fd with
  | Some path =>
      match files w !! path with
      | Some content => (w, inr (firstn len (skipn pos content)))
      | None => (w, inl (enoent path))
      end
  | None => (w, inl ebadf)
  end.

Definition sim_close (fd : fd_t) (w : sim) : sim * (thrown + unit) :=
  match fds w !! fd with
  | Some _ => (set_fds (delete fd (fds w)) w, inr tt)
  | None => (w, inl ebadf)
  end.

Definition sim_readFile (path : string) (w : sim) : sim * (thrown + list byte) :=
  match files w !! path with
  | Some content => (w, inr content)
  | None => (w, inl (enoent path))
  end.

(** A client call takes [latency] and consumes one entry of the schedule;
    an exhausted schedule lets every call succeed. *)
Definition scheduled {A} (act : sim -> sim * response A) (w : sim)
  : sim * (thrown + response A) :=
  let w1 := set_clock (clock w + latency w) w in
  match schedule w1 with
  | Fails error :: rest => (set_schedule rest w1, inr (RespError error))
  | Succeeds :: rest => let (w2, r) := act (set_schedule rest w1) in (w2, inr r)
  | [] => let (w2, r) := act w1 in (w2, inr r)
  end.

Definition id_of (n : nat) : string := "img-" +:+ pretty n.

Definition iso (t : Z) : string := pretty t.

(** [insert(row) -> record_with_id] *)
Definition insert_act (row : insert_row) (w : sim) : sim * response GeneratedImageRecord :=
  let r := {| id := id_of (next_id w);
              created_at := iso (clock w);
              storage_path := ins_storage_path row;
              original_filepath := ins_original_filepath row;
              prompt := ins_prompt row;
              status := ins_status row;
              error_message := None;
              metadata := Some (ins_metadata row) |} in
  (set_rows (rows w ++ [r]) (S (next_id w)) w, RespData r).

(** A patch sets the columns it names and leaves the others. *)
Definition apply_patch (p : patch) (r : GeneratedImageRecord) : GeneratedImageRecord :=
  {| id := id r;
     created_at := created_at r;
     storage_path := default (storage_path r) (upd_storage_path p);
     original_filepath := original_filepath r;
     prompt := prompt r;
     status := default (status r) (upd_status p);
     error_message :=
       match upd_error_message p with Some m => Some m | None => error_message r end;
     metadata :=
       match upd_metadata p with Some m => Some m | None => metadata r end |}.

Definition matches (eq_id : string) (r : GeneratedImageRecord) : bool :=
  String.eqb (id r) eq_id.

(** [update ... where id = eq_id] on the table. *)
Definition update_rows (p : patch) (eq_id : string) (rs : list GeneratedImageRecord)
  : list GeneratedImageRecord :=
  map (fun r => if matches eq_id r then apply_patch p r else r) rs.

Definition not_single : thrown :=
  JsObject "JSON object requested, multiple (or no) rows returned".

(** [update(id, patch) -> record]; [.single()] wants exactly one row. *)
Definition update_select_act (p : patch) (eq_id : string) (w : sim)
  : sim * response GeneratedImageRecord :=
  let rs := update_rows p eq_id (rows w) in
  let w' := set_rows rs (next_id w) w in
  match List.filter (matches eq_id) rs with
  | [r] => (w', RespData r)
  | _ => (w', RespError not_single)
  end.

Definition update_act (p : patch) (eq_id : string) (w : sim) : sim * response unit :=
  (set_rows (update_rows p eq_id (rows w)) (next_id w) w, RespData tt).

Definition already_exists : thrown := JsObject "The resource already exists".

(** [upload(key, bytes, {contentType, upsert}) -> ok/error] *)
Definition upload_act (bucket key : string) (body : list byte) (contentType : string)
    (upsert : bool) (w : sim) : sim * response string :=
  match blobs w !! key with
  | Some _ =>
      if upsert then (set_blobs (<[key := (body, contentType)]> (blobs w)) w, RespData key)
      else (w, RespError already_exists)
  | None => (set_blobs (<[key := (body, contentType)]> (blobs w)) w, RespData key)
  end.

Definition base_url : string := "https://project.supabase.co/storage/v1".

Definition env : Env sim :=
  {| date_now := fun w => (w, clock w);
     toISOString := iso;
     stack_trace := fun message => "Error: " +:+ message;
     setTimeout := fun delay w => set_clock (clock w + delay) w;
     existsSync := fun path w => (w, bool_decide (is_Some (files w !! path)));
     stat_size := sim_stat;
     fs_open := sim_open;
     fd_read := sim_read;
     fd_close := sim_close;
     readFile := sim_readFile;
     db_insert := fun row => scheduled (insert_act row);
     storage_upload := fun bucket key body ct upsert =>
                         scheduled (upload_act bucket key body ct upsert);
     getPublicUrl := fun bucket key =>
                       base_url +:+ "/object/public/" +:+ bucket +:+ "/" +:+ key;
     db_update_select := fun p eq_id => scheduled (update_select_act p eq_id);
     db_update := fun p eq_id => scheduled (update_act p eq_id) |}.

(** The record of the table with a given id. *)
Definition find_row (eq_id : string) (w : sim) : option GeneratedImageRecord :=
  head (List.filter (matches eq_id) (rows w)).

Definition init_state (w : sim) : state sim :=
  {| world := w; trace := []; var_recordId := None |}.

End Sim.

(** * Properties *)

(** ** Strings and buffers *)

Module JsFacts.
Import Js.

Lemma split_nonempty sep s : split sep s <> [].
Proof.
  destruct s as [|c s]; simpl; [discriminate|].
  destruct (Ascii.eqb c sep); [discriminate|].
  destruct (split sep s); discriminate.
Qed.

Lemma pop_split_is_Some sep s : exists piece, pop (split sep s) = Some piece.
Proof.
  unfold pop. destruct (last (split sep s)) as [x|] eqn:E; [eauto|].
  apply last_None in E. destruct (split_nonempty sep s E).
Qed.

Lemma append_nil s : "" +:+ s = s.
Proof. reflexivity. Qed.

Lemma append_cons c a s : String c a +:+ s = String c (a +:+ s).
Proof. reflexivity. Qed.

(** The last piece only depends on what follows the last separator. *)
Lemma pop_split_app sep a b :
  pop (split sep (a +:+ String sep b)) = pop (split sep b).
Proof.
  unfold pop. induction a as [|c a IH].
  - rewrite append_nil. simpl. rewrite Ascii.eqb_refl.
    destruct (split sep b) eqn:E; [destruct (split_nonempty sep b E)|].
    reflexivity.
  - rewrite append_cons. simpl.
    destruct (Ascii.eqb c sep).
    + destruct (split sep (a +:+ String sep b)) eqn:E.
      * destruct (split_nonempty _ _ E).
      * rewrite last_cons_cons. exact IH.
    + destruct (split sep (a +:+ String sep b)) as [|p [|q r]] eqn:E.
      * destruct (split_nonempty _ _ E).
      * (* the separator makes at least two pieces *)
        exfalso. clear IH. revert p E.
        induction a as [|d a IHa]; intros p E.
        -- rewrite append_nil in E. simpl in E. rewrite Ascii.eqb_refl in E.
           destruct (split sep b) eqn:E'; [destruct (split_nonempty _ _ E')|].
           discriminate.
        -- rewrite append_cons in E. simpl in E.
           destruct (Ascii.eqb d sep).
           ++ destruct (split sep (a +:+ String sep b)) eqn:E'';
                [destruct (split_nonempty _ _ E'')|discriminate].
           ++ destruct (split sep (a +:+ String sep b)) as [|p' [|q' r']] eqn:E''.
              ** destruct (split_nonempty _ _ E'').
              ** eapply IHa. reflexivity.
              ** discriminate.
      * rewrite last_cons_cons. rewrite last_cons_cons in IH. exact IH.
Qed.

Lemma split_no_sep sep s :
  (forall c, In c (list_ascii_of_string s) -> c <> sep) -> split sep s = [s].
Proof.
  induction s as [|c s IH]; intros H; simpl; [reflexivity|].
  destruct (Ascii.eqb_spec c sep) as [->|_].
  - exfalso. apply (H sep); [left; reflexivity | reflexivity].
  - rewrite IH; [reflexivity|]. intros d Hd. apply H. right. exact Hd.
Qed.

(** Last character of a string. *)
Fixpoint last_char (s : string) : option ascii :=
  match s with
  | EmptyString => None
  | String c s' => match last_char s' with Some d => Some d | None => Some c end
  end.

Lemma last_char_cons c s :
  last_char (String c s) = match last_char s with Some d => Some d | None => Some c end.
Proof. reflexivity. Qed.

Lemma last_char_toLowerCase s :
  last_char (toLowerCase s) = option_map lower_ascii (last_char s).
Proof.
  induction s as [|c s IH]; [reflexivity|].
  change (toLowerCase (String c s)) with (String (lower_ascii c) (toLowerCase s)).
  rewrite !last_char_cons, IH. destruct (last_char s); reflexivity.
Qed.

(** A path whose last [/]-piece is empty is empty or ends in [/]; then so
    does its last [.]-piece. *)
Lemma empty_filename_extension fp :
  pop (split "/" fp) = Some "" ->
  fp = "" \/ exists e, pop (split "." fp) = Some e /\ last_char e = Some "/"%char.
Proof.
  unfold pop. induction fp as [|c fp IH]; intros H; [left; reflexivity|right].
  simpl in H. destruct (Ascii.eqb_spec c "/") as [->|Hc].
  - assert (Hl : last (split "/" fp) = Some "").
    { destruct (split "/" fp) eqn:E; [destruct (split_nonempty _ _ E)|].
      rewrite last_cons_cons in H. exact H. }
    simpl. destruct (IH Hl) as [->|(e & He & Hs)].
    + simpl. eexists; split; reflexivity.
    + destruct (split "." fp) as [|p [|q r]] eqn:E.
      * discriminate.
      * simpl in He. injection He as ->. eexists; split; [reflexivity|].
        rewrite last_char_cons, Hs. reflexivity.
      * rewrite last_cons_cons in He. exists e. split; [|exact Hs].
        rewrite last_cons_cons. exact He.
  - destruct (split "/" fp) as [|p [|q r]] eqn:E.
    + destruct (split_nonempty _ _ E).
    + simpl in H. discriminate.
    + rewrite last_cons_cons in H.
      assert (Hfp : fp <> "") by (intros ->; simpl in E; discriminate).
      destruct IH as [->|(e & He & Hs)]; [rewrite last_cons_cons; exact H|congruence|].
      simpl. destruct (Ascii.eqb c ".").
      * destruct (split "." fp) eqn:E'; [discriminate|].
        exists e. split; [rewrite last_cons_cons; exact He|exact Hs].
      * destruct (split "." fp) as [|p' [|q' r']] eqn:E'.
        -- discriminate.
        -- simpl in He. injection He as ->. eexists; split; [reflexivity|].
           rewrite last_char_cons, Hs. reflexivity.
        -- exists e. split; [|exact Hs].
           rewrite last_cons_cons. rewrite last_cons_cons in He. exact He.
Qed.

(** Reading a byte back from its two hex digits. *)
Definition hex_value (c : ascii) : N :=
  let n := N_of_ascii c in
  if (n <? 58)%N then (n - 48)%N else (n - 87)%N.

Definition unhex_byte (s : string) : option byte :=
  match s with
  | String h (String l EmptyString) => Byte.of_N (hex_value h * 16 + hex_value l)
  | _ => None
  end.

Lemma unhex_hex_byte b : unhex_byte (hex_byte b) = Some b.
Proof. destruct b; reflexivity. Qed.

Lemma hex_byte_inj b b' : hex_byte b = hex_byte b' -> b = b'.
Proof.
  intros H. apply (f_equal unhex_byte) in H.
  rewrite !unhex_hex_byte in H. congruence.
Qed.

Lemma prefix_hex_byte b a1 a2 p rest :
  String.prefix (String a1 (String a2 p)) (hex_byte b +:+ rest) = true <->
  hex_byte b = String a1 (String a2 EmptyString) /\ String.prefix p rest = true.
Proof.
  unfold hex_byte. rewrite !append_cons, append_nil. simpl.
  destruct (ascii_dec a1 _) as [->|N1]; [|split; [discriminate|intros [H _]; congruence]].
  destruct (ascii_dec a2 _) as [->|N2]; [|split; [discriminate|intros [H _]; congruence]].
  tauto.
Qed.

End JsFacts.

(** ** Signatures, in the words of the specification *)

Module Signature.

Definition PNG : list byte := [x89; x50; x4e; x47].
Definition JPEG : list byte := [xff; xd8].
Definition GIF : list byte := [x47; x49; x46; x38].

(** The content starts with the bytes of [sig]. *)
Definition starts (sig content : list byte) : Prop :=
  exists rest, content = (sig ++ rest)%list.

Definition known (content : list byte) : Prop :=
  starts PNG content \/ starts JPEG content \/ starts GIF content.

End Signature.

Section MagicNumbers.
Import Js JsFacts.

Lemma isPNG_spec got :
  isPNG (Buffer_fill (Buffer_alloc 4) 4 got) = true <-> Signature.starts Signature.PNG got.
Proof.
  unfold isPNG, startsWith, Signature.starts, Signature.PNG. split.
  - intros H.
    destruct got as [|b1 [|b2 [|b3 [|b4 rest]]]]; cbn [Buffer_fill Buffer_alloc repeat
      List.length Nat.min firstn skipn app toString_hex] in H;
      repeat (apply prefix_hex_byte in H; destruct H as [? H]);
      repeat match goal with
             | E : hex_byte x00 = _ |- _ => discriminate E
             end.
    exists rest.
    repeat match goal with
           | E : hex_byte ?b = _ |- _ => first
               [ apply (hex_byte_inj b x89) in E | apply (hex_byte_inj b x50) in E
               | apply (hex_byte_inj b x4e) in E | apply (hex_byte_inj b x47) in E ]
           end.
    subst. reflexivity.
  - intros [rest ->]. reflexivity.
Qed.

Lemma isJPEG_spec got :
  isJPEG (Buffer_fill (Buffer_alloc 4) 4 got) = true <-> Signature.starts Signature.JPEG got.
Proof.
  unfold isJPEG, startsWith, Signature.starts, Signature.JPEG. split.
  - intros H.
    destruct got as [|b1 [|b2 rest]]; cbn [Buffer_fill Buffer_alloc repeat
      List.length Nat.min firstn skipn app toString_hex] in H;
      repeat (apply prefix_hex_byte in H; destruct H as [? H]);
      repeat match goal with
             | E : hex_byte x00 = _ |- _ => discriminate E
             end.
    exists rest.
    repeat match goal with
           | E : hex_byte ?b = _ |- _ => first
               [ apply (hex_byte_inj b xff) in E | apply (hex_byte_inj b xd8) in E ]
           end.
    subst. reflexivity.
  - intros [rest ->]. destruct rest as [|b3 [|b4 rest]]; reflexivity.
Qed.

Lemma isGIF_spec got :
  isGIF (Buffer_fill (Buffer_alloc 4) 4 got) = true <-> Signature.starts Signature.GIF got.
Proof.
  unfold isGIF, startsWith, Signature.starts, Signature.GIF. split.
  - intros H.
    destruct got as [|b1 [|b2 [|b3 [|b4 rest]]]]; cbn [Buffer_fill Buffer_alloc repeat
      List.length Nat.min firstn skipn app toString_hex] in H;
      repeat (apply prefix_hex_byte in H; destruct H as [? H]);
      repeat match goal with
             | E : hex_byte x00 = _ |- _ => discriminate E
             end.
    exists rest.
    repeat match goal with
           | E : hex_byte ?b = _ |- _ => first
               [ apply (hex_byte_inj b x47) in E | apply (hex_byte_inj b x49) in E
               | apply (hex_byte_inj b x46) in E | apply (hex_byte_inj b x38) in E ]
           end.
    subst. reflexivity.
  - intros [rest ->]. reflexivity.
Qed.

(** The magic-number test of [validateImage] is the signature test on the
    bytes the read delivered. *)
Lemma magic_numbers_spec got :
  let buffer := Buffer_fill (Buffer_alloc 4) 4 got in
  negb (isPNG buffer) && negb (isJPEG buffer) && negb (isGIF buffer) = false
  <-> Signature.known got.
Proof.
  intros buffer. unfold Signature.known.
  rewrite <- isPNG_spec, <- isJPEG_spec, <- isGIF_spec. fold buffer.
  destruct (isPNG buffer), (isJPEG buffer), (isGIF buffer); simpl;
    intuition discriminate.
Qed.

(** A validated extension leaves a non-empty file name, so the check
    [if (!filename)] of [uploadGeneratedImage] cannot fire after
    validation. *)
Lemma valid_extension_filename fp :
  Js.truthy (extension_of fp) = true ->
  Js.includes allowed_extensions (default "" (extension_of fp)) = true ->
  Js.truthy (Js.pop (Js.split "/" fp)) = true.
Proof.
  intros Ht Hi.
  destruct (pop_split_is_Some "/" fp) as [piece Hp]. rewrite Hp. simpl.
  destruct (String.eqb_spec piece "") as [->|]; [exfalso|reflexivity].
  unfold extension_of in *.
  destruct (empty_filename_extension fp Hp) as [->|(e & He & Hs)].
  - discriminate Ht.
  - rewrite He in Hi. simpl in Hi.
    assert (Hl : last_char (toLowerCase e) = Some "/"%char)
      by (rewrite last_char_toLowerCase, Hs; reflexivity).
    unfold includes, allowed_extensions in Hi. simpl in Hi.
    repeat match type of Hi with
           | (?a || ?b)%bool = true =>
               apply orb_true_iff in Hi; destruct Hi as [Hi|Hi]
           end; try discriminate;
      apply String.eqb_eq in Hi; rewrite Hi in Hl; discriminate.
Qed.

End MagicNumbers.

(** ** Laws of the monad *)

Section Laws.
Context {W : Type}.
Implicit Types s : state W.

Lemma bind_inr {A B} (m : M W A) (k : A -> M W B) s s' a :
  m s = (s', inr a) -> bind m k s = k a s'.
Proof. unfold bind. intros ->. reflexivity. Qed.

Lemma bind_inl {A B} (m : M W A) (k : A -> M W B) s s' e :
  m s = (s', inl e) -> bind m k s = (s', inl e).
Proof. unfold bind. intros ->. reflexivity. Qed.

Lemma try_catch_inr {A} (m : M W A) h s s' a :
  m s = (s', inr a) -> try_catch m h s = (s', inr a).
Proof. unfold try_catch. intros ->. reflexivity. Qed.

Lemma try_catch_inl {A} (m : M W A) h s s' e :
  m s = (s', inl e) -> try_catch m h s = h e s'.
Proof. unfold try_catch. intros ->. reflexivity. Qed.

(** A computation that returns from every state. *)
Definition total {A} (m : M W A) : Prop :=
  forall s, exists s' a, m s = (s', inr a).

Lemma total_ret {A} (a : A) : total (ret a).
Proof. intros s. exists s, a. reflexivity. Qed.

Lemma total_bind {A B} (m : M W A) (k : A -> M W B) :
  total m -> (forall a, total (k a)) -> total (bind m k).
Proof.
  intros Hm Hk s. destruct (Hm s) as (s1 & a & E).
  rewrite (bind_inr _ _ _ _ _ E). apply Hk.
Qed.

Lemma total_try_catch {A} (m : M W A) h :
  (forall e, total (h e)) -> total (try_catch m h).
Proof.
  intros Hh s. unfold try_catch.
  destruct (m s) as [s1 [e|a]]; [apply Hh|eauto].
Qed.

Lemma total_log level msg : total (@log W level msg).
Proof. intros s. eexists _, tt. reflexivity. Qed.

Lemma total_peek {A} (f : W -> W * A) : total (peek f).
Proof. intros s. unfold peek. destruct (f (world s)). eauto. Qed.

Lemma total_get_recordId : total (@get_recordId W).
Proof. intros s. eexists _, _. reflexivity. Qed.

Lemma total_set_recordId v : total (@set_recordId W v).
Proof. intros s. eexists _, _. reflexivity. Qed.

(** The events a computation adds to the trace all satisfy [Q]. *)
Definition traces (Q : event -> Prop) {A} (m : M W A) : Prop :=
  forall s s' r, m s = (s', r) ->
    exists evs, trace s' = (trace s ++ evs)%list /\ Forall Q evs.

Lemma traces_ret Q {A} (a : A) : traces Q (ret a).
Proof. intros s s' r [= <- <-]. exists []. rewrite app_nil_r. auto. Qed.

Lemma traces_throw Q {A} e : traces Q (@throw W A e).
Proof. intros s s' r [= <- <-]. exists []. rewrite app_nil_r. auto. Qed.

Lemma traces_bind Q {A B} (m : M W A) (k : A -> M W B) :
  traces Q m -> (forall a, traces Q (k a)) -> traces Q (bind m k).
Proof.
  intros Hm Hk s s' r. unfold bind.
  destruct (m s) as [s1 [e|a]] eqn:E; intros H.
  - injection H as <- <-. eapply Hm, E.
  - destruct (Hm _ _ _ E) as (ev1 & T1 & F1).
    destruct (Hk _ _ _ _ H) as (ev2 & T2 & F2).
    exists (ev1 ++ ev2)%list. rewrite T2, T1, app_assoc.
    split; [reflexivity|]. apply Forall_app; auto.
Qed.

Lemma traces_try_catch Q {A} (m : M W A) h :
  traces Q m -> (forall e, traces Q (h e)) -> traces Q (try_catch m h).
Proof.
  intros Hm Hh s s' r. unfold try_catch.
  destruct (m s) as [s1 [e|a]] eqn:E; intros H.
  - destruct (Hm _ _ _ E) as (ev1 & T1 & F1).
    destruct (Hh _ _ _ _ H) as (ev2 & T2 & F2).
    exists (ev1 ++ ev2)%list. rewrite T2, T1, app_assoc.
    split; [reflexivity|]. apply Forall_app; auto.
  - injection H as <- <-. eapply Hm, E.
Qed.

Lemma traces_perform (Q : event -> Prop) {A} ev (f : W -> W * (thrown + A)) :
  Q ev -> traces Q (perform ev f).
Proof.
  intros HQ s s' r. unfold perform. destruct (f (world s)) as [w' r'].
  intros [= <- <-]. exists [ev]. split; [reflexivity|]. auto.
Qed.

Lemma traces_peek Q {A} (f : W -> W * A) : traces Q (peek f).
Proof.
  intros s s' r. unfold peek. destruct (f (world s)) as [w' a].
  intros [= <- <-]. exists []. simpl. rewrite app_nil_r. auto.
Qed.

Lemma traces_log (Q : event -> Prop) level msg :
  Q (EvLog level msg) -> traces Q (@log W level msg).
Proof. intros HQ s s' r [= <- <-]. exists [EvLog level msg]. auto. Qed.

Lemma traces_get_recordId Q : traces Q (@get_recordId W).
Proof. intros s s' r [= <- <-]. exists []. rewrite app_nil_r. auto. Qed.

Lemma traces_set_recordId Q v : traces Q (@set_recordId W v).
Proof. intros s s' r [= <- <-]. exists []. simpl. rewrite app_nil_r. auto. Qed.

(** Computations that leave the local variable alone. *)
Definition keeps_var {A} (m : M W A) : Prop :=
  forall s s' r, m s = (s', r) -> var_recordId s' = var_recordId s.

Lemma keeps_ret {A} (a : A) : keeps_var (@ret W A a).
Proof. intros s s' r [= <- <-]. reflexivity. Qed.

Lemma keeps_throw {A} e : keeps_var (@throw W A e).
Proof. intros s s' r [= <- <-]. reflexivity. Qed.

Lemma keeps_bind {A B} (m : M W A) (k : A -> M W B) :
  keeps_var m -> (forall a, keeps_var (k a)) -> keeps_var (bind m k).
Proof.
  intros Hm Hk s s' r. unfold bind.
  destruct (m s) as [s1 [e|a]] eqn:E; intros H.
  - injection H as <- <-. eapply Hm, E.
  - rewrite (Hk _ _ _ _ H). eapply Hm, E.
Qed.

Lemma keeps_try_catch {A} (m : M W A) h :
  keeps_var m -> (forall e, keeps_var (h e)) -> keeps_var (try_catch m h).
Proof.
  intros Hm Hh s s' r. unfold try_catch.
  destruct (m s) as [s1 [e|a]] eqn:E; intros H.
  - rewrite (Hh _ _ _ _ H). eapply Hm, E.
  - injection H as <- <-. eapply Hm, E.
Qed.

Lemma keeps_perform {A} ev (f : W -> W * (thrown + A)) : keeps_var (perform ev f).
Proof.
  intros s s' r. unfold perform. destruct (f (world s)).
  intros [= <- <-]. reflexivity.
Qed.

Lemma keeps_peek {A} (f : W -> W * A) : keeps_var (peek f).
Proof.
  intros s s' r. unfold peek. destruct (f (world s)).
  intros [= <- <-]. reflexivity.
Qed.

Lemma keeps_log level msg : keeps_var (@log W level msg).
Proof. intros s s' r [= <- <-]. reflexivity. Qed.

Lemma keeps_get_recordId : keeps_var (@get_recordId W).
Proof. intros s s' r [= <- <-]. reflexivity. Qed.

End Laws.

Create HintDb prog discriminated.
#[export] Hint Resolve total_ret total_bind total_try_catch total_log total_peek
  total_get_recordId total_set_recordId : prog.
#[export] Hint Resolve traces_ret traces_throw traces_bind traces_try_catch
  traces_perform traces_peek traces_log traces_get_recordId traces_set_recordId : prog.
#[export] Hint Resolve keeps_ret keeps_throw keeps_bind keeps_try_catch
  keeps_perform keeps_peek keeps_log keeps_get_recordId : prog.

(** Walks down a program, one combinator at a time. *)
Ltac walk :=
  repeat (intros; cbv zeta;
          match goal with
          | |- traces _ (if ?b then _ else _) => destruct b
          | |- traces _ (match ?x with _ => _ end) => destruct x
          | |- traces _ (bind _ _) => apply traces_bind
          | |- traces _ (try_catch _ _) => apply traces_try_catch
          | |- keeps_var (if ?b then _ else _) => destruct b
          | |- keeps_var (match ?x with _ => _ end) => destruct x
          | |- keeps_var (bind _ _) => apply keeps_bind
          | |- keeps_var (try_catch _ _) => apply keeps_try_catch
          | |- total (if ?b then _ else _) => destruct b
          | |- total (match ?x with _ => _ end) => destruct x
          | |- total (bind _ _) => apply total_bind
          end);
  eauto with prog.

(** ** Validation *)

Section Validation.
Context {W : Type} (env : Env W).
Implicit Types s : state W.

Definition is_local (e : event) : Prop := is_net e = false.

Lemma validateImage_total fp : total (validateImage env fp).
Proof.
  unfold validateImage. apply total_try_catch. intros e. walk.
Qed.

Lemma validateImage_traces (Q : event -> Prop) fp :
  (forall level msg, Q (EvLog level msg)) -> (forall c, Q (EvFs c)) ->
  traces Q (validateImage env fp).
Proof.
  intros Hlog Hfs.
  unfold validateImage, fs_existsSync, fs_stat, fs_promises_open, fd_read_into,
    fd_close_.
  walk.
Qed.

Lemma validateImage_keeps fp : keeps_var (validateImage env fp).
Proof.
  unfold validateImage, fs_existsSync, fs_stat, fs_promises_open, fd_read_into,
    fd_close_.
  walk.
Qed.

(** The size test: neither empty nor above the limit. *)
Definition accepted_size (size : N) : Prop :=
  (0 < size)%N /\ (size <= 5 * 1024 * 1024)%N.

(** The extension test: the lower-cased last [.]-piece of the path is one
    of the four names. *)
Definition accepted_extension (fp : string) : Prop :=
  exists e, extension_of fp = Some e /\ In e ["png"; "jpg"; "jpeg"; "gif"].

Lemma size_test size :
  (size =? 0)%N = false /\ (MAX_SIZE <? size)%N = false <-> accepted_size size.
Proof.
  unfold accepted_size, MAX_SIZE.
  rewrite N.eqb_neq, N.ltb_ge. lia.
Qed.

Lemma extension_test fp :
  negb (Js.truthy (extension_of fp))
  || negb (Js.includes allowed_extensions (default "" (extension_of fp))) = false
  <-> accepted_extension fp.
Proof.
  unfold accepted_extension. rewrite orb_false_iff, !negb_false_iff.
  unfold Js.includes, allowed_extensions. simpl existsb.
  rewrite !orb_true_iff, !String.eqb_eq. split.
  - intros [Ht Hi]. destruct (extension_of fp) as [e|]; [|discriminate].
    exists e. split; [reflexivity|]. simpl in *.
    destruct Hi as [->|[->|[->|[->|Hf]]]]; auto 10. discriminate Hf.
  - intros (e & -> & Hin). simpl in *.
    destruct Hin as [<-|[<-|[<-|[<-|[]]]]]; auto 10.
Qed.

(** All four checks pass, made one after the other on the world [w]. *)
Definition passes_checks (fp : string) (w : W) : Prop :=
  exists w1 w2 size w3 fd w4 got w5,
    existsSync env fp w = (w1, true) /\
    stat_size env fp w1 = (w2, inr size) /\
    accepted_size size /\
    accepted_extension fp /\
    fs_open env fp w2 = (w3, inr fd) /\
    fd_read env fd 4 0 w3 = (w4, inr got) /\
    fd_close env fd w4 = (w5, inr tt) /\
    Signature.known got.

Local Ltac exec :=
  unfold validateImage, try_catch, bind, log, ret, fs_existsSync, fs_stat,
    fs_promises_open, fd_read_into, fd_close_, perform; cbn beta iota.

Lemma validateImage_true_iff fp s :
  snd (validateImage env fp s) = inr true <-> passes_checks fp (world s).
Proof.
  pose proof (extension_test fp) as Hext.
  unfold passes_checks. exec. cbn [world emit with_world].
  destruct (existsSync env fp (world s)) as [w1 found] eqn:E1.
  destruct found; cbn [negb snd world emit with_world];
    [|split; [discriminate|intros (?&?&?&?&?&?&?&?&[=]&_)]].
  destruct (stat_size env fp w1) as [w2 [e|size]] eqn:E2;
    cbn [snd world emit with_world];
    [split; [discriminate|intros (?&?&?&?&?&?&?&?&[= <-]&H&_); congruence]|].
  pose proof (size_test size) as Hsize.
  destruct (size =? 0)%N; cbn [snd];
    [split; [discriminate|intros (?&?&sz&?&?&?&?&?&[= <-]&H&Hs&_)];
     assert (size = sz) by congruence; subst; apply Hsize in Hs; destruct Hs;
     discriminate|].
  destruct (MAX_SIZE <? size)%N; cbn [snd];
    [split; [discriminate|intros (?&?&sz&?&?&?&?&?&[= <-]&H&Hs&_)];
     assert (size = sz) by congruence; subst; apply Hsize in Hs; destruct Hs;
     discriminate|].
  destruct (negb (Js.truthy (extension_of fp)) || _)%bool; cbn [snd];
    [split; [discriminate|intros (?&?&?&?&?&?&?&?&_&_&_&Hx&_)];
     apply Hext in Hx; discriminate|].
  cbn [world emit with_world].
  destruct (fs_open env fp w2) as [w3 [e|fd]] eqn:E3;
    cbn [snd world emit with_world];
    [split; [discriminate|intros (?&?&?&?&?&?&?&?&[= <-]&H&_&_&H3&_); congruence]|].
  destruct (fd_read env fd 4 0 w3) as [w4 [e|got]] eqn:E4;
    cbn [snd world emit with_world];
    [split; [discriminate|intros (?&?&?&?&?&?&?&?&[= <-]&H&_&_&H3&H4&_); congruence]|].
  destruct (fd_close env fd w4) as [w5 [e|[]]] eqn:E5;
    cbn [snd world emit with_world];
    [split; [discriminate|intros (?&?&?&?&?&?&?&?&[= <-]&H&_&_&H3&H4&H5&_); congruence]|].
  pose proof (magic_numbers_spec got) as Hmagic. cbv zeta in Hmagic.
  destruct (negb (isPNG _) && _ && _)%bool; cbn [snd].
  - split; [discriminate|].
    intros (?&?&?&?&?&?&g&?&[= <-]&H&_&_&H3&H4&H5&Hk).
    assert (got = g) by congruence. subst.
    apply Hmagic in Hk. discriminate.
  - split; [intros _|reflexivity].
    exists w1, w2, size, w3, fd, w4, got, w5.
    repeat split; try assumption.
    + apply Hsize. auto.
    + apply Hsize. auto.
    + apply Hext. reflexivity.
    + apply Hmagic. reflexivity.
Qed.

(** Short circuit: a failed check ends validation, the later file-system
    calls are not made. *)
Lemma validateImage_missing fp s w1 :
  existsSync env fp (world s) = (w1, false) ->
  fs_calls (trace (fst (validateImage env fp s)))
  = (fs_calls (trace s) ++ [FsExistsSync fp])%list.
Proof.
  intros E1. exec. cbn [world emit with_world]. rewrite E1.
  cbn [negb fst trace emit with_world].
  unfold fs_calls. rewrite !omap_app. cbn [omap]. rewrite !app_nil_r.
  reflexivity.
Qed.

Lemma validateImage_rejected_early fp s w1 w2 size :
  existsSync env fp (world s) = (w1, true) ->
  stat_size env fp w1 = (w2, inr size) ->
  ~ (accepted_size size /\ accepted_extension fp) ->
  fs_calls (trace (fst (validateImage env fp s)))
  = (fs_calls (trace s) ++ [FsExistsSync fp; FsStat fp])%list.
Proof.
  intros E1 E2 Hno. exec. cbn [world emit with_world]. rewrite E1.
  cbn [negb world emit with_world]. rewrite E2.
  pose proof (size_test size) as Hsize. pose proof (extension_test fp) as Hext.
  assert (Hdone : forall msg,
    fs_calls (trace (emit (EvLog LogError msg)
      (emit (EvLog LogInfo "Image file stats:")
        (with_world w2 (emit (EvFs (FsStat fp))
          (with_world w1 (emit (EvFs (FsExistsSync fp))
            (emit (EvLog LogInfo "Starting image validation for:") s)))))))) =
    (fs_calls (trace s) ++ [FsExistsSync fp; FsStat fp])%list).
  { intros msg. cbn [trace emit with_world]. unfold fs_calls.
    rewrite !omap_app. cbn [omap]. rewrite !app_nil_r, <- app_assoc. reflexivity. }
  destruct (size =? 0)%N; [apply Hdone|].
  destruct (MAX_SIZE <? size)%N; [apply Hdone|].
  destruct (negb (Js.truthy (extension_of fp)) || _)%bool; [apply Hdone|].
  exfalso. apply Hno. split; [apply Hsize; auto|apply Hext; reflexivity].
Qed.

End Validation.

(** ** The extension check, in the words of the specification *)

Module SpecExtension.

(** Modelled from the spec: the letters, in lower case and in upper case. *)
Definition letter_cases : list (ascii * ascii) :=
  [("a", "A"); ("b", "B"); ("c", "C"); ("d", "D"); ("e", "E"); ("f", "F");
   ("g", "G"); ("h", "H"); ("i", "I"); ("j", "J"); ("k", "K"); ("l", "L");
   ("m", "M"); ("n", "N"); ("o", "O"); ("p", "P"); ("q", "Q"); ("r", "R");
   ("s", "S"); ("t", "T"); ("u", "U"); ("v", "V"); ("w", "W"); ("x", "X");
   ("y", "Y"); ("z", "Z")]%char.

(** Modelled from the spec: a character without its case, an upper-case
    letter being read as its lower-case one. *)
Definition fold_case (c : ascii) : ascii :=
  match List.find (fun p => Ascii.eqb (snd p) c) letter_cases with
  | Some p => fst p
  | None => c
  end.

(** Modelled from the spec: two texts that are the same when the case of
    their letters is disregarded ("case-insensitive"). *)
Fixpoint same_ignoring_case (s t : string) : bool :=
  match s, t with
  | EmptyString, EmptyString => true
  | String c s', String d t' =>
      Ascii.eqb (fold_case c) (fold_case d) && same_ignoring_case s' t'
  | _, _ => false
  end.

Definition names : list string := ["png"; "jpg"; "jpeg"; "gif"].

(** Modelled from the spec: "File extension (case-insensitive) must be one
    of png, jpg, jpeg, gif".  The path ends in a dot followed by one of the
    four names, written in any letter case. *)
Definition extension_allowed (filepath : string) : Prop :=
  exists stem e name,
    filepath = stem +:+ "." +:+ e /\ In name names /\ same_ignoring_case e name = true.

(** A path that has no extension and is itself, in any letter case, one of
    the four names: a file called [png] or [JPEG]. *)
Definition bare_name (filepath : string) : Prop :=
  exists name, In name names /\ same_ignoring_case filepath name = true.

Lemma fold_case_lower c : fold_case c = Js.lower_ascii c.
Proof. destruct c as [[] [] [] [] [] [] [] []]; vm_compute; reflexivity. Qed.

Lemma same_ignoring_case_lower s : forall t,
  same_ignoring_case s t = true <-> Js.toLowerCase s = Js.toLowerCase t.
Proof.
  induction s as [|c s IH]; intros [|d t]; cbn [same_ignoring_case Js.toLowerCase];
    try (split; [discriminate|discriminate]); [split; reflexivity|].
  rewrite andb_true_iff, Ascii.eqb_eq, IH, !fold_case_lower. split.
  - intros [-> ->]. reflexivity.
  - intros [= -> ->]. split; reflexivity.
Qed.

Lemma names_lower name : In name names -> Js.toLowerCase name = name.
Proof. intros [<-|[<-|[<-|[<-|[]]]]]; reflexivity. Qed.

Lemma names_dot_free name c :
  In name names -> In c (list_ascii_of_string name) -> c <> "."%char.
Proof.
  intros [<-|[<-|[<-|[<-|[]]]]] Hc; simpl in Hc;
    repeat (destruct Hc as [<-|Hc]; [discriminate|]); destruct Hc.
Qed.

Lemma lower_ascii_dot c : Js.lower_ascii c = "."%char -> c = "."%char.
Proof. destruct c as [[] [] [] [] [] [] [] []]; vm_compute; intros H; congruence. Qed.

Lemma toLowerCase_dot_free s :
  (forall c, In c (list_ascii_of_string (Js.toLowerCase s)) -> c <> "."%char) ->
  forall c, In c (list_ascii_of_string s) -> c <> "."%char.
Proof.
  induction s as [|d s IH]; intros H c Hc; [destruct Hc|].
  cbn [Js.toLowerCase list_ascii_of_string] in H.
  destruct Hc as [<-|Hc].
  - intros ->. apply (H (Js.lower_ascii ".")); [left; reflexivity|reflexivity].
  - apply IH; [|exact Hc]. intros x Hx. apply H. right. exact Hx.
Qed.

(** What follows the last dot of a path that has one. *)
Lemma last_dot s :
  (forall c, In c (list_ascii_of_string s) -> c <> "."%char) \/
  exists stem e,
    s = stem +:+ "." +:+ e /\
    forall c, In c (list_ascii_of_string e) -> c <> "."%char.
Proof.
  induction s as [|d s [IH|(stem & e & -> & He)]].
  - left. intros c [].
  - destruct (Ascii.eqb_spec d ".") as [->|Hd].
    + right. exists "", s. split; [reflexivity|exact IH].
    + left. intros c [<-|Hc]; [exact Hd|apply IH; exact Hc].
  - right. exists (String d stem), e. split; [reflexivity|exact He].
Qed.

(** The test the code makes accepts the paths the specification allows and,
    beyond them, the bare names. *)
Lemma accepted_extension_spec filepath :
  accepted_extension filepath <-> extension_allowed filepath \/ bare_name filepath.
Proof.
  unfold accepted_extension, extension_of. split.
  - intros (ext & Hext & Hin).
    destruct (last_dot filepath) as [Hfree|(stem & e & -> & He)].
    + right. rewrite (JsFacts.split_no_sep "." filepath Hfree) in Hext.
      injection Hext as <-. exists (Js.toLowerCase filepath).
      split; [exact Hin|]. apply same_ignoring_case_lower.
      rewrite (names_lower _ Hin). reflexivity.
    + left. change ("." +:+ e) with (String "." e) in Hext.
      rewrite JsFacts.pop_split_app, (JsFacts.split_no_sep "." e He) in Hext.
      injection Hext as <-. exists stem, e, (Js.toLowerCase e).
      split; [reflexivity|]. split; [exact Hin|]. apply same_ignoring_case_lower.
      rewrite (names_lower _ Hin). reflexivity.
  - intros [(stem & e & name & -> & Hin & Hsame)|(name & Hin & Hsame)];
      apply same_ignoring_case_lower in Hsame; rewrite (names_lower _ Hin) in Hsame.
    + assert (He : forall c, In c (list_ascii_of_string e) -> c <> "."%char).
      { apply toLowerCase_dot_free. rewrite Hsame. intros c.
        apply names_dot_free. exact Hin. }
      exists name. split; [|exact Hin]. change ("." +:+ e) with (String "." e).
      rewrite JsFacts.pop_split_app, (JsFacts.split_no_sep "." e He).
      cbn [Js.pop last option_map]. rewrite Hsame. reflexivity.
    + assert (He : forall c, In c (list_ascii_of_string filepath) -> c <> "."%char).
      { apply toLowerCase_dot_free. rewrite Hsame. intros c.
        apply names_dot_free. exact Hin. }
      exists name. split; [|exact Hin].
      rewrite (JsFacts.split_no_sep "." filepath He).
      cbn [Js.pop last option_map]. rewrite Hsame. reflexivity.
Qed.

Lemma extension_allowed_has_dot filepath :
  extension_allowed filepath -> In "."%char (list_ascii_of_string filepath).
Proof.
  intros (stem & e & name & -> & _). induction stem as [|c stem IH].
  - left. reflexivity.
  - right. exact IH.
Qed.

End SpecExtension.

(** The four checks as the specification words them, made one after the
    other on the world [w]; the third one also lets a bare name pass. *)
Definition passes_spec_checks {W : Type} (env : Env W) (fp : string) (w : W) : Prop :=
  exists w1 w2 size w3 fd w4 got w5,
    existsSync env fp w = (w1, true) /\
    stat_size env fp w1 = (w2, inr size) /\
    accepted_size size /\
    (SpecExtension.extension_allowed fp \/ SpecExtension.bare_name fp) /\
    fs_open env fp w2 = (w3, inr fd) /\
    fd_read env fd 4 0 w3 = (w4, inr got) /\
    fd_close env fd w4 = (w5, inr tt) /\
    Signature.known got.

Lemma passes_checks_spec {W : Type} (env : Env W) fp (w : W) :
  passes_checks env fp w <-> passes_spec_checks env fp w.
Proof.
  split; intros (w1 & w2 & size & w3 & fd & w4 & got & w5 & H1 & H2 & H3 & H4 & H5);
    exists w1, w2, size, w3, fd, w4, got, w5;
    (split; [exact H1|]); (split; [exact H2|]); (split; [exact H3|]);
    (split; [apply SpecExtension.accepted_extension_spec; exact H4|exact H5]).
Qed.

(** C2, amended.  [validateImage] never throws: from every state it returns
    a boolean.  It returns [true] exactly when the four checks pass one
    after the other: the file exists; [stat] gives a size above 0 and at
    most 5 MiB; the path ends in a dot followed by png, jpg, jpeg or gif in
    any letter case, or the path has no dot at all and is itself one of
    these four names in any letter case; and the bytes read from the start
    of the file begin with the PNG, JPEG or GIF signature.  An exception of
    [stat], [open], [read] or [close] gives [false].  The checks
    short-circuit: a missing file is not stat'ed, and a file with a rejected
    size or path is not opened. *)
Theorem validateImage_contract {W : Type} (env : Env W) (filepath : string)
    (s : state W) :
  (exists s' b, validateImage env filepath s = (s', inr b)) /\
  (snd (validateImage env filepath s) = inr true
   <-> passes_spec_checks env filepath (world s)) /\
  (forall w1, existsSync env filepath (world s) = (w1, false) ->
     fs_calls (trace (fst (validateImage env filepath s)))
     = (fs_calls (trace s) ++ [FsExistsSync filepath])%list) /\
  (forall w1 w2 size,
     existsSync env filepath (world s) = (w1, true) ->
     stat_size env filepath w1 = (w2, inr size) ->
     ~ (accepted_size size /\
        (SpecExtension.extension_allowed filepath \/ SpecExtension.bare_name filepath)) ->
     fs_calls (trace (fst (validateImage env filepath s)))
     = (fs_calls (trace s) ++ [FsExistsSync filepath; FsStat filepath])%list).
Proof.
  split; [apply validateImage_total|].
  split; [rewrite <- passes_checks_spec; apply validateImage_true_iff|].
  split; [apply validateImage_missing|].
  intros w1 w2 size E1 E2 Hno.
  apply (validateImage_rejected_early env filepath s w1 w2 size E1 E2).
  intros [Hs Hx]. apply Hno. split; [exact Hs|].
  apply SpecExtension.accepted_extension_spec. exact Hx.
Qed.

(** ** Worked inputs *)

Module Examples.
Import Sim.

Definition png_bytes : list byte := [x89; x50; x4e; x47; x0d; x0a; x1a; x0a].
Definition jpeg_bytes : list byte := [xff; xd8; xff; xe0].
Definition gif_bytes : list byte := [x47; x49; x46; x38; x39; x61].

(** A 2 KB file that starts with the PNG signature. *)
Definition png_2k : list byte := (png_bytes ++ repeat x00 2040)%list.

(** A world with one file, an empty table and an empty bucket. *)
Definition one_file (path : string) (content : list byte) (sch : list outcome) : sim :=
  {| files := {[ path := content ]}; fds := ∅; rows := [];
     next_id := 0; blobs := ∅; clock := 1700000000000; latency := 40;
     schedule := sch |}.

End Examples.

(** C2, as stated, fails: a file whose path is [png], without any
    extension, that holds the PNG signature is accepted, although its path
    does not end in a dot followed by one of the four names. *)
Lemma validateImage_accepts_bare_name :
  let w := Examples.one_file "png" Examples.png_bytes [] in
  snd (validateImage Sim.env "png" (Sim.init_state w)) = inr true /\
  ~ SpecExtension.extension_allowed "png".
Proof.
  cbv zeta. split; [vm_compute; reflexivity|].
  intros H. apply SpecExtension.extension_allowed_has_dot in H. simpl in H.
  repeat (destruct H as [H|H]; [discriminate|]). exact H.
Qed.

Section ExtensionAndSignature.
Context {W : Type} (env : Env W).

Lemma extension_of_dot_png stem : extension_of (stem +:+ ".png") = Some "png".
Proof.
  unfold extension_of.
  change ".png" with (String "." "png").
  rewrite JsFacts.pop_split_app. reflexivity.
Qed.

End ExtensionAndSignature.

(** C8, as stated, fails: a four-byte file named [/tmp/cat.png] holding the
    JPEG signature exists, is not empty and is below the limit, and
    [validateImage] returns [true] for it. *)
Lemma validateImage_png_name_jpeg_bytes :
  let w := Examples.one_file "/tmp/cat.png" Examples.jpeg_bytes [] in
  existsSync Sim.env "/tmp/cat.png" w = (w, true) /\
  stat_size Sim.env "/tmp/cat.png" w = (w, inr 4%N) /\
  Signature.starts Signature.JPEG Examples.jpeg_bytes /\
  snd (validateImage Sim.env "/tmp/cat.png" (Sim.init_state w)) = inr true /\
  snd (validateImage Sim.env "/tmp/cat.png" (Sim.init_state w)) <> inr false.
Proof.
  cbv zeta. split; [vm_compute; reflexivity|].
  split; [vm_compute; reflexivity|].
  split; [exists [xff; xe0]; reflexivity|].
  split; [vm_compute; reflexivity|vm_compute; discriminate].
Qed.

(** C8, amended.  The extension and the signature are tested independently
    of each other: a file that exists, whose size is above 0 and at most
    5 MiB, whose name ends in [.png], and whose first bytes are the JPEG
    signature FF D8 is accepted, provided [open], [read] and [close] do not
    throw. *)
Theorem validateImage_accepts_jpeg_named_png {W : Type} (env : Env W)
    (stem : string) (s : state W) w1 w2 size w3 fd w4 rest w5 :
  existsSync env (stem +:+ ".png") (world s) = (w1, true) ->
  stat_size env (stem +:+ ".png") w1 = (w2, inr size) ->
  (0 < size)%N -> (size <= 5 * 1024 * 1024)%N ->
  fs_open env (stem +:+ ".png") w2 = (w3, inr fd) ->
  fd_read env fd 4 0 w3 = (w4, inr (xff :: xd8 :: rest)) ->
  fd_close env fd w4 = (w5, inr tt) ->
  snd (validateImage env (stem +:+ ".png") s) = inr true.
Proof.
  intros E1 E2 Hpos Hmax E3 E4 E5.
  apply validateImage_true_iff.
  exists w1, w2, size, w3, fd, w4, (xff :: xd8 :: rest), w5.
  repeat split; try assumption.
  - exists "png". split; [apply extension_of_dot_png|simpl; auto].
  - right; left. exists rest. reflexivity.
Qed.

Lemma validateImage_accepts_jpeg_named_png_witness :
  snd (validateImage Sim.env ("/tmp/cat" +:+ ".png")
         (Sim.init_state (Examples.one_file "/tmp/cat.png" Examples.jpeg_bytes [])))
  = inr true.
Proof.
  pose (w := Examples.one_file "/tmp/cat.png" Examples.jpeg_bytes []).
  pose (w3 := fst (Sim.sim_open "/tmp/cat.png" w)).
  apply (validateImage_accepts_jpeg_named_png Sim.env "/tmp/cat" (Sim.init_state w)
           w w 4%N w3 0%nat w3 [xff; xe0] (fst (Sim.sim_close 0%nat w3)));
    try (vm_compute; reflexivity); lia.
Defined.

(** ** The retry executor *)

Section TraceMeasures.

Lemma invocations_snoc tr e :
  invocations (tr ++ [e]) = (invocations tr + (if is_invoke e then 1 else 0))%nat.
Proof.
  unfold invocations. rewrite List.filter_app, length_app. simpl.
  destruct (is_invoke e); reflexivity.
Qed.

Lemma total_wait_snoc tr e : total_wait (tr ++ [e]) = total_wait tr + sleep_ms e.
Proof.
  unfold total_wait. induction tr as [|x tr IH]; simpl; [lia|].
  rewrite IH. lia.
Qed.

Lemma net_calls_snoc tr e :
  net_calls (tr ++ [e])
  = (net_calls tr ++ match e with EvNet c => [c] | _ => [] end)%list.
Proof.
  unfold net_calls. rewrite omap_app. destruct e; reflexivity.
Qed.

End TraceMeasures.

(** [initialDelay * 2^0 + ... + initialDelay * 2^(n-1)] *)
Definition backoff_sum (initialDelay : Z) (n : nat) : Z :=
  fold_right Z.add 0 (map (fun k => initialDelay * 2 ^ Z.of_nat k) (seq 0 n)).

Lemma backoff_shift d n : forall a,
  fold_right Z.add 0 (map (fun k => d * 2 ^ Z.of_nat k) (seq (S a) n))
  = fold_right Z.add 0 (map (fun k => d * 2 * 2 ^ Z.of_nat k) (seq a n)).
Proof.
  induction n as [|n IH]; intros a; [reflexivity|].
  cbn [seq map fold_right]. rewrite IH, Nat2Z.inj_succ, Z.pow_succ_r by lia. lia.
Qed.

Lemma backoff_sum_S d n : backoff_sum d (S n) = d + backoff_sum (d * 2) n.
Proof.
  unfold backoff_sum. cbn [seq map fold_right].
  rewrite backoff_shift. simpl Z.of_nat. rewrite Z.pow_0_r. lia.
Qed.

Lemma backoff_sum_closed d n : backoff_sum d n = d * (2 ^ Z.of_nat n - 1).
Proof.
  revert d. induction n as [|n IH]; intros d; [unfold backoff_sum; simpl; lia|].
  rewrite backoff_sum_S, IH, Nat2Z.inj_succ, Z.pow_succ_r by lia. lia.
Qed.

Section Retry.
Context {W : Type} (env : Env W) {T : Type}.
Implicit Types s : state W.

Definition retry_warning : string :=
  "Operation failed, attempt ${attempt}/${maxRetries}. Retrying in ${delay}ms...".

(** The loop makes at most [maxRetries + 1 - attempt] iterations: more fuel
    changes nothing. *)
Lemma retry_loop_fuel (op : M W T) maxRetries fuel :
  forall attempt delay lastError s,
    (S maxRetries - attempt <= fuel)%nat ->
    retry_loop env fuel op maxRetries attempt delay lastError s
    = retry_loop env (S maxRetries - attempt) op maxRetries attempt delay lastError s.
Proof.
  induction fuel as [|fuel IH]; intros attempt delay lastError s Hf.
  - replace (S maxRetries - attempt)%nat with 0%nat by lia. reflexivity.
  - destruct (Nat.leb_spec attempt maxRetries) as [Hle|Hgt].
    + replace (S maxRetries - attempt)%nat with (S (maxRetries - attempt)) by lia.
      cbn [retry_loop]. apply Nat.leb_le in Hle as Hb. rewrite Hb.
      unfold try_catch. destruct (op s) as [s1 [error|v]]; [|reflexivity].
      destruct (attempt =? maxRetries)%nat; [reflexivity|].
      unfold bind. destruct (log _ _ s1) as [s2 [?|?]]; [reflexivity|].
      destruct (sleep env delay s2) as [s3 [?|?]]; [reflexivity|].
      rewrite IH by lia.
      replace (S maxRetries - S attempt)%nat with (maxRetries - attempt)%nat by lia.
      reflexivity.
    + replace (S maxRetries - attempt)%nat with 0%nat by lia.
      cbn [retry_loop]. apply Nat.leb_gt in Hgt. rewrite Hgt. reflexivity.
Qed.

Lemma retry_loop_traces (Q : event -> Prop) (op : M W T) maxRetries fuel :
  traces Q op -> (forall level msg, Q (EvLog level msg)) -> (forall d, Q (EvSleep d)) ->
  forall attempt delay lastError,
    traces Q (retry_loop env fuel op maxRetries attempt delay lastError).
Proof.
  intros Hop Hlog Hsleep.
  induction fuel as [|fuel IH]; intros attempt delay lastError; cbn [retry_loop].
  - auto with prog.
  - unfold sleep. walk.
Qed.

Lemma retryOperation_traces (Q : event -> Prop) (op : M W T) maxRetries delay :
  traces Q op -> (forall level msg, Q (EvLog level msg)) -> (forall d, Q (EvSleep d)) ->
  traces Q (retryOperation env op maxRetries delay).
Proof. intros. apply retry_loop_traces; assumption. Qed.

Lemma retry_loop_keeps (op : M W T) maxRetries fuel :
  keeps_var op ->
  forall attempt delay lastError,
    keeps_var (retry_loop env fuel op maxRetries attempt delay lastError).
Proof.
  intros Hop.
  induction fuel as [|fuel IH]; intros attempt delay lastError; cbn [retry_loop].
  - auto with prog.
  - unfold sleep. walk.
Qed.

Lemma retryOperation_keeps (op : M W T) maxRetries delay :
  keeps_var op -> keeps_var (retryOperation env op maxRetries delay).
Proof. intros. apply retry_loop_keeps; assumption. Qed.

(** An operation on the world, observed: each invocation leaves [EvInvoke]
    in the trace. *)
Definition observed (f : W -> W * (thrown + T)) : M W T := perform EvInvoke f.

Definition always_fails (f : W -> W * (thrown + T)) : Prop :=
  forall w, exists w' e, f w = (w', inl e).

(** [f] fails at its first [n] invocations and succeeds at the next one,
    when it is first invoked in the world [w] and each failure is followed
    by a wait that starts at [delay] and doubles. *)
Inductive fails_then_succeeds (f : W -> W * (thrown + T))
  : nat -> Z -> W -> W -> T -> Prop :=
| fts_succeeds delay w w' v :
    f w = (w', inr v) ->
    fails_then_succeeds f 0 delay w w' v
| fts_fails n delay w w1 e w' v :
    f w = (w1, inl e) ->
    fails_then_succeeds f n (delay * 2) (setTimeout env delay w1) w' v ->
    fails_then_succeeds f (S n) delay w w' v.

(** The state after a failed attempt, its warning and its wait. *)
Definition after_failure (w1 : W) (delay : Z) s : state W :=
  with_world (setTimeout env delay w1)
    (emit (EvSleep delay)
       (emit (EvLog LogWarn retry_warning) (with_world w1 (emit EvInvoke s)))).

Lemma retry_loop_step_fail f fuel maxRetries attempt delay lastError s w1 e :
  f (world s) = (w1, inl e) ->
  (attempt < maxRetries)%nat ->
  retry_loop env (S fuel) (observed f) maxRetries attempt delay lastError s
  = retry_loop env fuel (observed f) maxRetries (S attempt) (delay * 2) e
      (after_failure w1 delay s).
Proof.
  intros E Hlt. cbn [retry_loop].
  assert (Hle : (attempt <=? maxRetries)%nat = true) by (apply Nat.leb_le; lia).
  assert (Hne : (attempt =? maxRetries)%nat = false) by (apply Nat.eqb_neq; lia).
  rewrite Hle. unfold try_catch, observed, perform. rewrite E, Hne.
  reflexivity.
Qed.

Lemma retry_loop_step_last f fuel maxRetries delay lastError s w1 e :
  f (world s) = (w1, inl e) ->
  (0 < maxRetries)%nat ->
  retry_loop env (S fuel) (observed f) maxRetries maxRetries delay lastError s
  = (with_world w1 (emit EvInvoke s), inl e).
Proof.
  intros E Hpos. cbn [retry_loop].
  rewrite Nat.leb_refl, Nat.eqb_refl. unfold try_catch, observed, perform.
  rewrite E. reflexivity.
Qed.

Lemma retry_loop_step_ok f fuel maxRetries attempt delay lastError s w1 v :
  f (world s) = (w1, inr v) ->
  (attempt <= maxRetries)%nat ->
  retry_loop env (S fuel) (observed f) maxRetries attempt delay lastError s
  = (with_world w1 (emit EvInvoke s), inr v).
Proof.
  intros E Hle. cbn [retry_loop]. apply Nat.leb_le in Hle. rewrite Hle.
  unfold try_catch, observed, perform. rewrite E. reflexivity.
Qed.

Lemma after_failure_measures w1 delay s :
  world (after_failure w1 delay s) = setTimeout env delay w1 /\
  total_wait (trace (after_failure w1 delay s)) = total_wait (trace s) + delay /\
  invocations (trace (after_failure w1 delay s)) = S (invocations (trace s)).
Proof.
  unfold after_failure. cbn [world trace emit with_world].
  rewrite !total_wait_snoc, !invocations_snoc. simpl. repeat split; lia.
Qed.

Lemma retry_loop_succeeds f n :
  forall fuel maxRetries attempt delay lastError s w' v,
    fails_then_succeeds f n delay (world s) w' v ->
    (attempt + n <= maxRetries)%nat -> (n < fuel)%nat ->
    let r := retry_loop env fuel (observed f) maxRetries attempt delay lastError s in
    snd r = inr v /\
    world (fst r) = w' /\
    total_wait (trace (fst r)) = total_wait (trace s) + backoff_sum delay n /\
    invocations (trace (fst r)) = (invocations (trace s) + n + 1)%nat.
Proof.
  induction n as [|n IH]; intros fuel maxRetries attempt delay lastError s w' v H Hle Hf;
    inversion H; subst; (destruct fuel as [|fuel]; [lia|]).
  - cbv zeta. erewrite retry_loop_step_ok by (eassumption || lia).
    cbn [fst snd world trace emit with_world].
    rewrite total_wait_snoc, invocations_snoc. unfold backoff_sum. simpl.
    repeat split; lia.
  - cbv zeta. erewrite retry_loop_step_fail by (eassumption || lia).
    destruct (after_failure_measures w1 delay s) as (Hw & Ht & Hi).
    rewrite <- Hw in H2.
    destruct (IH fuel maxRetries (S attempt) (delay * 2) e _ _ _ H2) as (R1 & R2 & R3 & R4);
      [lia|lia|].
    rewrite R1, R2, R3, R4, Ht, Hi, backoff_sum_S. repeat split; lia.
Qed.

End Retry.

(** C6. An operation that fails whenever it is invoked is invoked exactly
    three times by [retryOperation] with [maxRetries = 3] (after waits of
    [delay] and [2 * delay]), and the error thrown to the caller is the
    error of the third invocation. *)
Theorem retryOperation_exhausts {W : Type} (env : Env W) {T : Type}
    (f : W -> W * (thrown + T)) (delay : Z) (s : state W) :
  always_fails f ->
  exists w1 e1 w2 e2 w3 e3,
    f (world s) = (w1, inl e1) /\
    f (setTimeout env delay w1) = (w2, inl e2) /\
    f (setTimeout env (delay * 2) w2) = (w3, inl e3) /\
    snd (retryOperation env (observed f) 3 delay s) = inl e3 /\
    world (fst (retryOperation env (observed f) 3 delay s)) = w3 /\
    invocations (trace (fst (retryOperation env (observed f) 3 delay s)))
    = (invocations (trace s) + 3)%nat.
Proof.
  intros Hf.
  destruct (Hf (world s)) as (w1 & e1 & E1).
  destruct (Hf (setTimeout env delay w1)) as (w2 & e2 & E2).
  destruct (Hf (setTimeout env (delay * 2) w2)) as (w3 & e3 & E3).
  exists w1, e1, w2, e2, w3, e3. repeat split; try assumption;
    unfold retryOperation;
    rewrite (retry_loop_step_fail env f _ 3 1 delay _ s w1 e1 E1) by lia;
    destruct (after_failure_measures env w1 delay s) as (Hw1 & _ & Hi1);
    rewrite <- Hw1 in E2;
    rewrite (retry_loop_step_fail env f _ 3 2 _ _ _ w2 e2 E2) by lia;
    destruct (after_failure_measures env w2 (delay * 2) (after_failure env w1 delay s))
      as (Hw2 & _ & Hi2);
    rewrite <- Hw2 in E3;
    rewrite (retry_loop_step_last env f _ 3 _ _ _ w3 e3 E3) by lia;
    cbn [fst snd world trace emit with_world]; try reflexivity.
  rewrite invocations_snoc, Hi2, Hi1. simpl. lia.
Qed.

Lemma retryOperation_exhausts_witness :
  let f := fun w : Sim.sim =>
             (w, @inl thrown nat (JsObject ("attempt at " +:+ pretty (Sim.clock w)))) in
  let s := Sim.init_state (Examples.one_file "/tmp/a.png" Examples.png_bytes []) in
  snd (retryOperation Sim.env (observed f) 3 1000 s)
  = inl (JsObject "attempt at 1700000003000") /\
  invocations (trace (fst (retryOperation Sim.env (observed f) 3 1000 s))) = 3%nat.
Proof.
  intros f s.
  destruct (retryOperation_exhausts Sim.env f 1000 s) as (w1&e1&w2&e2&w3&e3&E1&E2&E3&R&_&I).
  - intros w. eexists _, _. reflexivity.
  - split; [|exact I]. rewrite R. injection E1 as <- <-. injection E2 as <- <-.
    injection E3 as <- <-. vm_compute. reflexivity.
Defined.

(** C7. When the operation fails at its first [n] invocations and succeeds
    at the next one, and [maxRetries > n], [retryOperation] returns the
    value of that success after [n + 1] invocations, and the waits it made
    add up to [delay * 2^0 + ... + delay * 2^(n-1)]: one wait after each
    failure, doubled each time, none after the success. *)
Theorem retryOperation_succeeds_after {W : Type} (env : Env W) {T : Type}
    (f : W -> W * (thrown + T)) (n maxRetries : nat) (delay : Z)
    (s : state W) (w' : W) (v : T) :
  (n < maxRetries)%nat ->
  fails_then_succeeds env f n delay (world s) w' v ->
  snd (retryOperation env (observed f) maxRetries delay s) = inr v /\
  world (fst (retryOperation env (observed f) maxRetries delay s)) = w' /\
  total_wait (trace (fst (retryOperation env (observed f) maxRetries delay s)))
  = total_wait (trace s) + backoff_sum delay n /\
  invocations (trace (fst (retryOperation env (observed f) maxRetries delay s)))
  = (invocations (trace s) + n + 1)%nat.
Proof.
  intros Hlt H. unfold retryOperation.
  apply (retry_loop_succeeds env f n maxRetries maxRetries 1 delay JsNull s w' v H); lia.
Qed.

Lemma retryOperation_succeeds_after_witness :
  let f := fun w : Sim.sim =>
             if Sim.clock w <? 1700000003000
             then (w, @inl thrown Z (JsObject "not yet"))
             else (w, inr (Sim.clock w)) in
  let s := Sim.init_state (Examples.one_file "/tmp/a.png" Examples.png_bytes []) in
  (2 < 3)%nat /\
  snd (retryOperation Sim.env (observed f) 3 1000 s) = inr 1700000003000 /\
  total_wait (trace (fst (retryOperation Sim.env (observed f) 3 1000 s)))
  = 1000 * 2 ^ 0 + 1000 * 2 ^ 1 /\
  invocations (trace (fst (retryOperation Sim.env (observed f) 3 1000 s))) = 3%nat.
Proof.
  intros f s. split; [lia|].
  destruct (retryOperation_succeeds_after Sim.env f 2 3 1000 s
              (Sim.set_clock 1700000003000 (world s)) 1700000003000)
    as (R & _ & Tw & I).
  - lia.
  - apply (fts_fails Sim.env f 1 1000 (world s) (world s) (JsObject "not yet"));
      [reflexivity|].
    apply (fts_fails Sim.env f 0 (1000 * 2) _
             (Sim.set_clock 1700000001000 (world s)) (JsObject "not yet"));
      [reflexivity|].
    apply fts_succeeds. reflexivity.
  - split; [exact R|]. split; [|exact I]. rewrite Tw. vm_compute. reflexivity.
Defined.

(** ** The upload pipeline *)

Ltac walk_pipeline :=
  repeat (intros; cbv zeta;
          match goal with
          | |- traces _ (if ?b then _ else _) => destruct b
          | |- traces _ (match ?x with _ => _ end) => destruct x
          | |- traces _ (bind _ _) => apply traces_bind
          | |- traces _ (try_catch _ _) => apply traces_try_catch
          | |- traces _ (retryOperation _ _ _ _) => apply retryOperation_traces
          | |- traces _ (validateImage _ _) => apply validateImage_traces
          | |- traces _ (perform _ _) => apply traces_perform
          | |- traces _ (log _ _) => apply traces_log
          | |- keeps_var (if ?b then _ else _) => destruct b
          | |- keeps_var (match ?x with _ => _ end) => destruct x
          | |- keeps_var (bind _ _) => apply keeps_bind
          | |- keeps_var (try_catch _ _) => apply keeps_try_catch
          | |- keeps_var (retryOperation _ _ _ _) => apply retryOperation_keeps
          | |- total (if ?b then _ else _) => destruct b
          | |- total (match ?x with _ => _ end) => destruct x
          | |- total (bind _ _) => apply total_bind
          | |- total (try_catch _ _) => apply total_try_catch
          end);
  eauto with prog.

Section Pipeline.
Context {W : Type} (env : Env W).
Implicit Types s : state W.

(** The start time and the state in which validation runs: [recordId] is
    [null], the clock has been read, two lines have been logged. *)
Definition enter s : Z * state W :=
  let (w1, t0) := date_now env (world s) in
  (t0,
   emit (EvLog LogInfo "Upload details:")
     (emit (EvLog LogInfo "Starting image upload process for:")
        {| world := w1; trace := trace s; var_recordId := None |})).

(** The state after [recordId = recordData.id] and its log line. *)
Definition with_record (recordData : GeneratedImageRecord) s : state W :=
  emit (EvLog LogInfo "Created database record:")
    {| world := world s; trace := trace s; var_recordId := Some (id recordData) |}.

(** [`generated-images/${recordId}_${filename}`] *)
Definition storage_key (recordData : GeneratedImageRecord) (filepath : string) : string :=
  "generated-images/" +:+ id recordData +:+ "_"
    +:+ default "" (Js.pop (Js.split "/" filepath)).

(** The fully successful path: validation accepts the file, the record is
    created, the file is read, the blob is uploaded and the record is
    updated, each retried operation returning within its attempts. *)
Inductive successful_run (filepath prompt : string) s
  : GeneratedImageRecord -> Prop :=
| successful_run_intro s1 recordData s2 fileBuffer s3 stored s4 updatedRecord s5 :
    validateImage env filepath (snd (enter s)) = (s1, inr true) ->
    retryOperation env (insert_operation env filepath prompt) 3 1000 s1
    = (s2, inr (RespData recordData)) ->
    fs_readFile env filepath (with_record recordData s2) = (s3, inr fileBuffer) ->
    retryOperation env
      (upload_operation env (storage_key recordData filepath) fileBuffer) 3 1000
      (emit (EvLog LogInfo "Attempting storage upload:") s3)
    = (s4, inr (RespData stored)) ->
    retryOperation env
      (complete_operation env
         (getPublicUrl env BUCKET (storage_key recordData filepath))
         recordData (fst (enter s))) 3 1000
      (emit (EvLog LogInfo "Storage upload successful:") s4)
    = (s5, inr (RespData updatedRecord)) ->
    successful_run filepath prompt s updatedRecord.

Lemma uploadGeneratedImage_total filepath prompt :
  total (uploadGeneratedImage env filepath prompt).
Proof.
  unfold uploadGeneratedImage, upload_catch, now. walk_pipeline.
Qed.

Lemma upload_catch_null uploadStartTime error s :
  snd (upload_catch env uploadStartTime error s) = inr None.
Proof.
  unfold upload_catch, bind, now, peek, log, get_recordId, try_catch, ret.
  destruct (date_now env (world s)) as [w t].
  cbn [var_recordId emit with_world].
  destruct (Js.truthy (var_recordId s)); [|reflexivity].
  destruct (retryOperation env _ 3 1000 _) as [s1 [e|r]]; reflexivity.
Qed.

Lemma uploadGeneratedImage_unfold filepath prompt s :
  uploadGeneratedImage env filepath prompt s
  = try_catch (fun s0 => upload_try env filepath prompt (fst (enter s)) s0)
      (upload_catch env (fst (enter s)))
      {| world := fst (date_now env (world s)); trace := trace s;
         var_recordId := None |}.
Proof.
  unfold uploadGeneratedImage, bind, set_recordId, now, peek, enter.
  cbn [world trace var_recordId with_world].
  destruct (date_now env (world s)) as [w1 t0]. reflexivity.
Qed.


Lemma validated_filename filepath s s1 :
  validateImage env filepath s = (s1, inr true) ->
  Js.truthy (Js.pop (Js.split "/" filepath)) = true.
Proof.
  intros H.
  assert (Hp : passes_checks env filepath (world s))
    by (apply validateImage_true_iff; rewrite H; reflexivity).
  destruct Hp as (?&?&?&?&?&?&?&?&_&_&_&Hx&_).
  apply extension_test in Hx. apply orb_false_iff in Hx. destruct Hx as [Ht Hi].
  apply negb_false_iff in Ht, Hi.
  apply valid_extension_filename; assumption.
Qed.

Local Ltac chain :=
  repeat match goal with
         | E : ?l = _, H : ?l = _ |- _ => rewrite E in H; inversion H; subst; clear H
         end.

Local Ltac not_successful Hd :=
  cbn [snd negb throw]; try rewrite upload_catch_null;
  split; [discriminate|];
  let H := fresh "H" in
  intros H; inversion H; subst;
  unfold enter, with_record, storage_key in *;
  rewrite Hd in *; cbn [fst snd] in *; chain.

Lemma uploadGeneratedImage_success_iff filepath prompt s rec :
  snd (uploadGeneratedImage env filepath prompt s) = inr (Some rec)
  <-> successful_run filepath prompt s rec.
Proof.
  rewrite uploadGeneratedImage_unfold.
  unfold try_catch, upload_try, bind, log, enter.
  destruct (date_now env (world s)) as [w1 t0] eqn:Hd. cbn [fst snd].
  destruct (validateImage env filepath _) as [s1 [e|[|]]] eqn:E1;
    [not_successful Hd| |not_successful Hd].
  cbn [negb].
  destruct (retryOperation env (insert_operation env filepath prompt) 3 1000 s1)
    as [s2 [e|[recordData|recordError]]] eqn:E2;
    [not_successful Hd| |not_successful Hd].
  unfold set_recordId at 1.
  destruct (fs_readFile env filepath _) as [s3 [e|fileBuffer]] eqn:E3;
    [not_successful Hd|].
  rewrite (validated_filename _ _ _ E1). cbn [negb].
  destruct (retryOperation env (upload_operation env _ fileBuffer) 3 1000 _)
    as [s4 [e|[stored|storageError]]] eqn:E4;
    [not_successful Hd| |not_successful Hd].
  destruct (retryOperation env (complete_operation env _ recordData t0) 3 1000 _)
    as [s5 [e|[updatedRecord|updateError]]] eqn:E5;
    [not_successful Hd| |not_successful Hd].
  unfold now, peek. cbn [ret]. destruct (date_now env (world s5)) as [w6 t6].
  cbn [snd]. split.
  - intros [= <-]. econstructor; unfold enter, with_record, storage_key;
      rewrite ?Hd; cbn [fst snd]; eassumption.
  - intros H; inversion H; subst.
    unfold enter, with_record, storage_key in *.
    rewrite Hd in *; cbn [fst snd] in *. chain. reflexivity.
Qed.

Lemma net_calls_local tr evs :
  Forall is_local evs -> net_calls (tr ++ evs) = net_calls tr.
Proof.
  intros H. unfold net_calls. rewrite omap_app.
  induction H as [|e evs He _ IH]; [apply app_nil_r|].
  destruct e; try discriminate He; exact IH.
Qed.

(** A file that does not pass validation: the pipeline returns [null]
    without any client call. *)
Lemma uploadGeneratedImage_invalid filepath prompt s :
  ~ passes_checks env filepath (fst (date_now env (world s))) ->
  snd (uploadGeneratedImage env filepath prompt s) = inr None /\
  net_calls (trace (fst (uploadGeneratedImage env filepath prompt s)))
  = net_calls (trace s).
Proof.
  intros Hno. rewrite uploadGeneratedImage_unfold.
  unfold try_catch, upload_try, bind, log.
  match goal with
  | |- context [validateImage env filepath ?S0] =>
      destruct (validateImage_total env filepath S0) as (s1 & b & E1);
      pose proof (validateImage_keeps env filepath _ _ _ E1) as Hvar;
      destruct (validateImage_traces env is_local filepath
                  (fun _ _ => eq_refl) (fun _ => eq_refl) _ _ _ E1)
        as (evs & Htr & Hloc);
      pose proof (validateImage_true_iff env filepath S0) as Hiff;
      rewrite E1 in *
  end.
  cbn [world trace var_recordId emit snd] in Hvar, Htr, Hiff.
  destruct b; [exfalso; apply Hno, Hiff; reflexivity|].
  cbn [negb throw].
  unfold upload_catch, bind, now, peek, log, get_recordId, ret.
  destruct (date_now env (world s1)) as [w2 t2].
  cbn [var_recordId emit with_world]. rewrite Hvar. cbn [Js.truthy fst snd].
  split; [reflexivity|].
  cbn [trace emit with_world]. rewrite Htr.
  rewrite net_calls_snoc, app_nil_r, net_calls_local by assumption.
  rewrite !net_calls_snoc, !app_nil_r. reflexivity.
Qed.

(** Every upload to the bucket is labelled [image/png] and may overwrite. *)
Definition png_upsert (e : event) : Prop :=
  match e with
  | EvNet (NetUpload bucket key body contentType upsert) =>
      bucket = "generated-images" /\ contentType = "image/png" /\ upsert = true
  | _ => True
  end.

Lemma uploadGeneratedImage_png_upsert filepath prompt :
  traces png_upsert (uploadGeneratedImage env filepath prompt).
Proof.
  unfold uploadGeneratedImage, upload_try, upload_catch, insert_operation,
    upload_operation, complete_operation, fail_operation, throw_on_error, now,
    fs_readFile, BUCKET.
  walk_pipeline; simpl; auto.
Qed.

End Pipeline.

(** C1. [uploadGeneratedImage] returns from every state, whatever the file
    system and the backend do: it never throws.  It returns a record exactly
    on the fully successful path (validation accepts, and creation, file
    read, blob upload and final update each return), and that record is the
    one the final update answered with.  Every other run returns [null];
    the failure handler returns [null] whether its own update of the record
    succeeds or not. *)
Theorem uploadGeneratedImage_never_raises {W : Type} (env : Env W)
    (filepath prompt : string) (s : state W) :
  (exists s' r, uploadGeneratedImage env filepath prompt s = (s', inr r)) /\
  (forall rec,
     snd (uploadGeneratedImage env filepath prompt s) = inr (Some rec)
     <-> successful_run env filepath prompt s rec) /\
  ((forall rec, ~ successful_run env filepath prompt s rec) ->
   snd (uploadGeneratedImage env filepath prompt s) = inr None) /\
  (forall uploadStartTime error s1,
     snd (upload_catch env uploadStartTime error s1) = inr None).
Proof.
  split; [apply uploadGeneratedImage_total|].
  split; [intros rec; apply uploadGeneratedImage_success_iff|].
  split; [|apply upload_catch_null].
  intros Hno.
  destruct (uploadGeneratedImage_total env filepath prompt s) as (s' & r & E).
  destruct r as [rec|]; [|rewrite E; reflexivity].
  exfalso. apply (Hno rec). apply uploadGeneratedImage_success_iff.
  rewrite E. reflexivity.
Qed.

(** C3. When the file does not pass the checks of [validateImage] (in the
    world left by the initial clock read), [uploadGeneratedImage] returns
    [null] and the trace gains no client call: no insert, so no record; no
    upload, so no blob; no update, because [recordId] is still [null] in the
    failure handler. *)
Theorem uploadGeneratedImage_invalid_no_network {W : Type} (env : Env W)
    (filepath prompt : string) (s : state W) :
  ~ passes_checks env filepath (fst (date_now env (world s))) ->
  snd (uploadGeneratedImage env filepath prompt s) = inr None /\
  net_calls (trace (fst (uploadGeneratedImage env filepath prompt s)))
  = net_calls (trace s).
Proof. apply uploadGeneratedImage_invalid. Qed.

Lemma uploadGeneratedImage_invalid_no_network_witness :
  let w := Examples.one_file "/tmp/notes.txt" Examples.png_bytes [] in
  snd (uploadGeneratedImage Sim.env "/tmp/notes.txt" "a sunset" (Sim.init_state w))
  = inr None /\
  net_calls (trace (fst (uploadGeneratedImage Sim.env "/tmp/notes.txt" "a sunset"
                           (Sim.init_state w))))
  = net_calls (trace (Sim.init_state w)).
Proof.
  intros w.
  apply (uploadGeneratedImage_invalid_no_network Sim.env "/tmp/notes.txt" "a sunset"
           (Sim.init_state w)).
  intros Hp.
  apply (validateImage_true_iff Sim.env "/tmp/notes.txt" (Sim.init_state w)) in Hp.
  vm_compute in Hp. discriminate Hp.
Defined.

(** ** Runs of the retried operations *)

Section Attempts.
Context {W : Type} (env : Env W) {T : Type}.
Implicit Types s : state W.

Lemma with_world_id s : with_world (world s) s = s.
Proof. destruct s; reflexivity. Qed.

(** The state after the warning and the wait that follow a failed attempt. *)
Definition pause (delay : Z) s : state W :=
  with_world (setTimeout env delay (world s))
    (emit (EvSleep delay) (emit (EvLog LogWarn retry_warning) s)).

(** [op] throws at its first [n] attempts and returns [v] at the next. *)
Inductive attempts (op : M W T) : nat -> Z -> state W -> state W -> T -> Prop :=
| attempts_return delay s s' v :
    op s = (s', inr v) ->
    attempts op 0 delay s s' v
| attempts_throw n delay s s1 e s' v :
    op s = (s1, inl e) ->
    attempts op n (delay * 2) (pause delay s1) s' v ->
    attempts op (S n) delay s s' v.

Lemma retry_loop_throw (op : M W T) fuel maxRetries attempt delay lastError s s1 e :
  op s = (s1, inl e) ->
  (attempt < maxRetries)%nat ->
  retry_loop env (S fuel) op maxRetries attempt delay lastError s
  = retry_loop env fuel op maxRetries (S attempt) (delay * 2) e (pause delay s1).
Proof.
  intros E Hlt. cbn [retry_loop].
  assert (Hle : (attempt <=? maxRetries)%nat = true) by (apply Nat.leb_le; lia).
  assert (Hne : (attempt =? maxRetries)%nat = false) by (apply Nat.eqb_neq; lia).
  rewrite Hle. unfold try_catch. rewrite E, Hne. reflexivity.
Qed.

Lemma retry_loop_throw_last (op : M W T) fuel maxRetries delay lastError s s1 e :
  op s = (s1, inl e) ->
  (0 < maxRetries)%nat ->
  retry_loop env (S fuel) op maxRetries maxRetries delay lastError s = (s1, inl e).
Proof.
  intros E Hpos. cbn [retry_loop].
  rewrite Nat.leb_refl, Nat.eqb_refl. unfold try_catch. rewrite E. reflexivity.
Qed.

Lemma retry_loop_return (op : M W T) fuel maxRetries attempt delay lastError s s1 v :
  op s = (s1, inr v) ->
  (attempt <= maxRetries)%nat ->
  retry_loop env (S fuel) op maxRetries attempt delay lastError s = (s1, inr v).
Proof.
  intros E Hle. cbn [retry_loop]. apply Nat.leb_le in Hle. rewrite Hle.
  unfold try_catch. rewrite E. reflexivity.
Qed.

Lemma retry_loop_attempts (op : M W T) n :
  forall fuel maxRetries attempt delay lastError s s' v,
    attempts op n delay s s' v ->
    (attempt + n <= maxRetries)%nat -> (n < fuel)%nat ->
    retry_loop env fuel op maxRetries attempt delay lastError s = (s', inr v).
Proof.
  induction n as [|n IH]; intros fuel maxRetries attempt delay lastError s s' v H Hle Hf;
    inversion H; subst; (destruct fuel as [|fuel]; [lia|]).
  - eapply retry_loop_return; [eassumption|lia].
  - erewrite retry_loop_throw by (eassumption || lia).
    apply IH; [assumption|lia|lia].
Qed.

Lemma retryOperation_attempts (op : M W T) n maxRetries delay s s' v :
  attempts op n delay s s' v -> (n < maxRetries)%nat ->
  retryOperation env op maxRetries delay s = (s', inr v).
Proof.
  intros H Hlt. unfold retryOperation.
  apply (retry_loop_attempts op n); [exact H|lia|lia].
Qed.

Lemma retryOperation_three_failures (op : M W T) delay s s1 e1 s2 e2 s3 e3 :
  op s = (s1, inl e1) ->
  op (pause delay s1) = (s2, inl e2) ->
  op (pause (delay * 2) s2) = (s3, inl e3) ->
  retryOperation env op 3 delay s = (s3, inl e3).
Proof.
  intros E1 E2 E3. unfold retryOperation.
  rewrite (retry_loop_throw op _ 3 1 delay _ s s1 e1 E1) by lia.
  rewrite (retry_loop_throw op _ 3 2 _ _ _ s2 e2 E2) by lia.
  apply (retry_loop_throw_last op _ 3 _ _ _ s3 e3 E3). lia.
Qed.

End Attempts.

Section PipelineRuns.
Context {W : Type} (env : Env W).
Implicit Types s : state W.

(** The run on the successful path, with its final state. *)
Lemma uploadGeneratedImage_success_run filepath prompt s
    s1 recordData s2 fileBuffer s3 stored s4 updatedRecord s5 :
  validateImage env filepath (snd (enter env s)) = (s1, inr true) ->
  retryOperation env (insert_operation env filepath prompt) 3 1000 s1
  = (s2, inr (RespData recordData)) ->
  fs_readFile env filepath (with_record recordData s2) = (s3, inr fileBuffer) ->
  retryOperation env
    (upload_operation env (storage_key recordData filepath) fileBuffer) 3 1000
    (emit (EvLog LogInfo "Attempting storage upload:") s3)
  = (s4, inr (RespData stored)) ->
  retryOperation env
    (complete_operation env
       (getPublicUrl env BUCKET (storage_key recordData filepath))
       recordData (fst (enter env s))) 3 1000
    (emit (EvLog LogInfo "Storage upload successful:") s4)
  = (s5, inr (RespData updatedRecord)) ->
  uploadGeneratedImage env filepath prompt s
  = (emit (EvLog LogInfo "Upload process completed successfully:")
       (with_world (fst (date_now env (world s5))) s5),
     inr (Some updatedRecord)).
Proof.
  intros E1 E2 E3 E4 E5.
  rewrite uploadGeneratedImage_unfold.
  unfold enter, with_record, storage_key in *.
  destruct (date_now env (world s)) as [w1 t0] eqn:Hd. cbn [fst snd] in *.
  unfold try_catch, upload_try, bind, log.
  rewrite E1. cbn [negb]. rewrite E2.
  unfold set_recordId at 1. rewrite E3.
  rewrite (validated_filename _ _ _ _ E1). cbn [negb]. rewrite E4, E5.
  unfold now, peek, ret. destruct (date_now env (world s5)) as [w6 t6].
  reflexivity.
Qed.

(** The run in which the blob upload exhausts its attempts: the handler
    receives the error of the last attempt and retries the error update. *)
Lemma uploadGeneratedImage_upload_failure_run filepath prompt s
    s1 recordData s2 fileBuffer s3 s4 error :
  validateImage env filepath (snd (enter env s)) = (s1, inr true) ->
  retryOperation env (insert_operation env filepath prompt) 3 1000 s1
  = (s2, inr (RespData recordData)) ->
  fs_readFile env filepath (with_record recordData s2) = (s3, inr fileBuffer) ->
  retryOperation env
    (upload_operation env (storage_key recordData filepath) fileBuffer) 3 1000
    (emit (EvLog LogInfo "Attempting storage upload:") s3)
  = (s4, inl error) ->
  uploadGeneratedImage env filepath prompt s
  = upload_catch env (fst (enter env s)) error s4.
Proof.
  intros E1 E2 E3 E4.
  rewrite uploadGeneratedImage_unfold.
  unfold enter, with_record, storage_key in *.
  destruct (date_now env (world s)) as [w1 t0] eqn:Hd. cbn [fst snd] in *.
  unfold try_catch, upload_try, bind, log.
  rewrite E1. cbn [negb]. rewrite E2.
  unfold set_recordId at 1. rewrite E3.
  rewrite (validated_filename _ _ _ _ E1). cbn [negb]. rewrite E4.
  reflexivity.
Qed.

(** The handler when a record id is known. *)
Lemma upload_catch_with_record uploadStartTime error s :
  Js.truthy (var_recordId s) = true ->
  upload_catch env uploadStartTime error s
  = let (w1, t_fail) := date_now env (world s) in
    match retryOperation env (fail_operation env error (t_fail - uploadStartTime))
            3 1000
            (emit (EvLog LogError "Error in uploadGeneratedImage:") (with_world w1 s))
    with
    | (s1, inr _) => (s1, inr None)
    | (s1, inl _) =>
        (emit (EvLog LogError "Failed to update record with error status:") s1,
         inr None)
    end.
Proof.
  intros Ht. unfold upload_catch, bind, now, peek, log, get_recordId, try_catch, ret.
  destruct (date_now env (world s)) as [w1 t_fail].
  cbn [var_recordId emit with_world]. rewrite Ht.
  destruct (retryOperation env _ 3 1000 _) as [s1 [e|r]]; reflexivity.
Qed.

End PipelineRuns.

(** ** The pipeline in the concrete world *)

Module SimFacts.
Import Sim.
Implicit Types (w : sim) (s : state sim).

Lemma sim_fd_roundtrip w path :
  set_fds (delete (fresh (dom (fds w))) (<[fresh (dom (fds w)) := path]> (fds w)))
          (set_fds (<[fresh (dom (fds w)) := path]> (fds w)) w) = w.
Proof.
  rewrite delete_insert_id by (apply not_elem_of_dom, is_fresh).
  destruct w; reflexivity.
Qed.

(** Validation opens and closes one descriptor and leaves the world as it
    found it. *)
Lemma validateImage_world fp s :
  world (fst (validateImage env fp s)) = world s.
Proof.
  unfold validateImage, try_catch, bind, log, ret, fs_existsSync, fs_stat,
    fs_promises_open, fd_read_into, fd_close_, perform.
  cbn [env existsSync stat_size fs_open fd_read fd_close world emit with_world].
  unfold sim_stat, sim_open, sim_read, sim_close.
  destruct (files (world s) !! fp) as [content|] eqn:Hf; [|reflexivity].
  cbn [bool_decide decide_rel is_Some_dec negb world emit with_world fst].
  rewrite Hf.
  destruct (_ =? 0)%N; [reflexivity|].
  destruct (MAX_SIZE <? _)%N; [reflexivity|].
  destruct (negb (Js.truthy (extension_of fp)) || _)%bool; [reflexivity|].
  cbn [world emit with_world fst snd files fds set_fds].
  rewrite Hf.
  cbn [world emit with_world fst snd files fds set_fds].
  rewrite lookup_insert_eq, Hf.
  cbn [world emit with_world fst snd files fds set_fds].
  rewrite lookup_insert_eq.
  cbn [world emit with_world fst snd files fds set_fds].
  destruct (negb (isPNG _) && _ && _)%bool;
    cbn [world emit with_world fst snd]; apply sim_fd_roundtrip.
Qed.

Lemma passes_checks_file fp w :
  passes_checks env fp w -> exists content, files w !! fp = Some content.
Proof.
  intros (w1&?&?&?&?&?&?&?&E&_). cbn [env existsSync] in E.
  injection E as _ E. apply bool_decide_eq_true in E. destruct E as [c Hc]. eauto.
Qed.

(** The world after the latency of one client call. *)
Definition ticked w : sim := set_clock (clock w + latency w) w.

(** The next client call is not scheduled to fail. *)
Definition next_succeeds (sch : list outcome) : Prop :=
  forall e rest, sch <> Fails e :: rest.

Lemma scheduled_fails {A} (act : sim -> sim * response A) w e rest :
  schedule w = Fails e :: rest ->
  scheduled act w = (set_schedule rest (ticked w), inr (RespError e)).
Proof.
  intros H. unfold scheduled. cbn [schedule set_clock]. rewrite H. reflexivity.
Qed.

Lemma scheduled_succeeds {A} (act : sim -> sim * response A) w :
  next_succeeds (schedule w) ->
  scheduled act w
  = (fst (act (set_schedule (tail (schedule w)) (ticked w))),
     inr (snd (act (set_schedule (tail (schedule w)) (ticked w))))).
Proof.
  intros H. unfold scheduled. cbn [schedule set_clock].
  destruct (schedule w) as [|[|e] rest] eqn:E.
  - replace (set_schedule (tail []) (ticked w)) with (ticked w)
      by (unfold ticked; destruct w; cbn in *; subst; reflexivity).
    unfold ticked. destruct (act _); reflexivity.
  - cbn [tail]. unfold ticked. destruct (act _); reflexivity.
  - destruct (H e rest eq_refl).
Qed.

Lemma now_sim s : now env s = (s, inr (clock (world s))).
Proof. unfold now, peek. cbn [env date_now]. rewrite with_world_id. reflexivity. Qed.


(** The row [insert_operation] sends when the clock shows [t]. *)
Definition uploading_row (fp prompt : string) (t : Z) : insert_row :=
  {| ins_original_filepath := fp;
     ins_prompt := prompt;
     ins_status := "uploading";
     ins_storage_path := "";
     ins_metadata :=
       <["attempts" := JNum 1]>
         (<["originalFilename" := jstr_opt (Js.pop (Js.split "/" fp))]>
            (<["uploadStarted" := JStr (iso t)]> ∅)) |}.

(** The record the table gives back for a row. *)
Definition inserted (row : insert_row) w : GeneratedImageRecord :=
  {| id := id_of (next_id w);
     created_at := iso (clock w);
     storage_path := ins_storage_path row;
     original_filepath := ins_original_filepath row;
     prompt := ins_prompt row;
     status := ins_status row;
     error_message := None;
     metadata := Some (ins_metadata row) |}.

(** The world in which a call that is not scheduled to fail acts. *)
Definition served w : sim := set_schedule (tail (schedule w)) (ticked w).

Lemma insert_attempt_fails fp prompt s e rest :
  schedule (world s) = Fails e :: rest ->
  insert_operation env fp prompt s
  = (with_world (set_schedule rest (ticked (world s)))
       (emit (EvNet (NetInsert (uploading_row fp prompt (clock (world s))))) s),
     inl e).
Proof.
  intros H. unfold insert_operation, bind. rewrite now_sim. cbv zeta.
  unfold perform. cbn [env db_insert toISOString].
  rewrite (scheduled_fails _ _ _ _ H). reflexivity.
Qed.

Lemma insert_attempt_succeeds fp prompt s :
  next_succeeds (schedule (world s)) ->
  let row := uploading_row fp prompt (clock (world s)) in
  let r := inserted row (served (world s)) in
  insert_operation env fp prompt s
  = (with_world (set_rows (rows (world s) ++ [r]) (S (next_id (world s)))
                   (served (world s)))
       (emit (EvNet (NetInsert row)) s),
     inr (RespData r)).
Proof.
  intros H row r. unfold insert_operation, bind. rewrite now_sim. cbv zeta.
  unfold perform. cbn [env db_insert toISOString].
  rewrite (scheduled_succeeds _ _ H). reflexivity.
Qed.

Lemma upload_attempt_fails key body s e rest :
  schedule (world s) = Fails e :: rest ->
  upload_operation env key body s
  = (with_world (set_schedule rest (ticked (world s)))
       (emit (EvNet (NetUpload BUCKET key body "image/png" true)) s),
     inl e).
Proof.
  intros H. unfold upload_operation, bind, perform. cbn [env storage_upload].
  rewrite (scheduled_fails _ _ _ _ H). reflexivity.
Qed.

Lemma upload_attempt_succeeds key body s :
  next_succeeds (schedule (world s)) ->
  upload_operation env key body s
  = (with_world (set_blobs (<[key := (body, "image/png")]> (blobs (world s)))
                   (served (world s)))
       (emit (EvNet (NetUpload BUCKET key body "image/png" true)) s),
     inr (RespData key)).
Proof.
  intros H. unfold upload_operation, bind, perform. cbn [env storage_upload].
  rewrite (scheduled_succeeds _ _ H). unfold upload_act.
  cbn [blobs served set_schedule ticked set_clock].
  destruct (blobs (world s) !! key); reflexivity.
Qed.

Lemma fail_attempt_fails error failureTime s e rest :
  schedule (world s) = Fails e :: rest ->
  fail_operation env error failureTime s
  = (with_world (set_schedule rest (ticked (world s)))
       (emit (EvNet (NetUpdate (error_patch env error (clock (world s)) failureTime)
                       (default "" (var_recordId s)) false)) s),
     inl e).
Proof.
  intros H. unfold fail_operation, bind. rewrite now_sim. cbv zeta.
  unfold get_recordId, perform. cbn [env db_update].
  rewrite (scheduled_fails _ _ _ _ H). reflexivity.
Qed.

Lemma fail_attempt_succeeds error failureTime s :
  next_succeeds (schedule (world s)) ->
  let p := error_patch env error (clock (world s)) failureTime in
  let rid := default "" (var_recordId s) in
  fail_operation env error failureTime s
  = (with_world (set_rows (update_rows p rid (rows (world s))) (next_id (world s))
                   (served (world s)))
       (emit (EvNet (NetUpdate p rid false)) s),
     inr (RespData tt)).
Proof.
  intros H p rid. unfold fail_operation, bind. rewrite now_sim. cbv zeta.
  unfold get_recordId, perform. cbn [env db_update].
  rewrite (scheduled_succeeds _ _ H). reflexivity.
Qed.


Section Calls.
Context {A : Type} (op : M sim (response A)) (done : sim -> option string -> sim * A).
Hypothesis op_fails : forall s e rest,
  schedule (world s) = Fails e :: rest ->
  exists ev, op s = (with_world (set_schedule rest (ticked (world s))) (emit ev s), inl e).
Hypothesis op_succeeds : forall s,
  next_succeeds (schedule (world s)) ->
  exists ev,
    op s = (with_world (fst (done (world s) (var_recordId s))) (emit ev s),
            inr (RespData (snd (done (world s) (var_recordId s))))).

(** A call that is scheduled to fail [length errs] times and then to
    succeed: the successful attempt acts at some time [T] on a world that
    differs from the first one in its clock and schedule only. *)
Lemma call_attempts errs :
  forall delay s rest,
    schedule (world s) = (map Fails errs ++ rest)%list ->
    next_succeeds rest ->
    exists s' T,
      attempts env op (List.length errs) delay s s'
        (RespData (snd (done (set_schedule rest (set_clock T (world s)))
                          (var_recordId s)))) /\
      world s' = fst (done (set_schedule rest (set_clock T (world s)))
                        (var_recordId s)) /\
      var_recordId s' = var_recordId s.
Proof.
  induction errs as [|e errs IH]; intros delay s rest Hs Hn.
  - cbn [map app] in Hs.
    assert (Hw : set_schedule rest (set_clock (clock (world s)) (world s)) = world s)
      by (destruct (world s); cbn in *; subst; reflexivity).
    destruct (op_succeeds s) as (ev & E); [rewrite Hs; exact Hn|].
    eexists _, (clock (world s)). rewrite Hw.
    split; [apply attempts_return; exact E|]. split; reflexivity.
  - cbn [map app] in Hs.
    destruct (op_fails s e _ Hs) as (ev & E).
    destruct (IH (delay * 2)
                (pause env delay
                   (with_world (set_schedule (map Fails errs ++ rest) (ticked (world s)))
                      (emit ev s))) rest eq_refl Hn)
      as (s' & T & Ha & Hw & Hv).
    exists s', T. split; [|split].
    + eapply attempts_throw; [exact E|exact Ha].
    + exact Hw.
    + exact Hv.
Qed.

End Calls.


(** Rows with other ids are not touched by an update. *)
Lemma update_rows_others p rid (rs : list GeneratedImageRecord) :
  (forall x, In x rs -> id x <> rid) -> update_rows p rid rs = rs.
Proof.
  intros H. unfold update_rows. induction rs as [|x rs IH]; [reflexivity|].
  cbn [map]. rewrite IH by (intros y Hy; apply H; right; exact Hy).
  unfold matches. destruct (String.eqb_spec (id x) rid) as [E|_]; [|reflexivity].
  destruct (H x (or_introl eq_refl) E).
Qed.

Lemma update_rows_last p rid rs r :
  (forall x, In x rs -> id x <> rid) -> id r = rid ->
  update_rows p rid (rs ++ [r]) = (rs ++ [apply_patch p r])%list.
Proof.
  intros H Hr. unfold update_rows. rewrite map_app.
  fold (update_rows p rid rs). rewrite (update_rows_others p rid rs H).
  cbn [map]. unfold matches. rewrite Hr, String.eqb_refl. reflexivity.
Qed.

Lemma filter_matches_last rid rs r :
  (forall x, In x rs -> id x <> rid) -> id r = rid ->
  List.filter (matches rid) (rs ++ [r]) = [r].
Proof.
  intros H Hr. rewrite List.filter_app.
  replace (List.filter (matches rid) rs) with (@nil GeneratedImageRecord).
  - cbn [List.filter app]. unfold matches. rewrite Hr, String.eqb_refl. reflexivity.
  - symmetry. induction rs as [|x rs IH]; [reflexivity|].
    cbn [List.filter]. unfold matches at 1.
    destruct (String.eqb_spec (id x) rid) as [E|_];
      [destruct (H x (or_introl eq_refl) E)|].
    apply IH. intros y Hy. apply H. right. exact Hy.
Qed.

Lemma complete_attempt_succeeds url recordData t0 s rid r :
  next_succeeds (schedule (world s)) ->
  var_recordId s = Some rid ->
  let p := completed_patch env url recordData (clock (world s)) (clock (world s)) t0 in
  List.filter (matches rid) (update_rows p rid (rows (world s))) = [r] ->
  complete_operation env url recordData t0 s
  = (with_world (set_rows (update_rows p rid (rows (world s))) (next_id (world s))
                   (served (world s)))
       (emit (EvNet (NetUpdate p rid true)) s),
     inr (RespData r)).
Proof.
  intros H Hv p Hr. unfold complete_operation, bind. rewrite !now_sim. cbv zeta.
  unfold get_recordId, perform. rewrite Hv.
  change (default "" (Some rid)) with rid. cbn [env db_update_select].
  rewrite (scheduled_succeeds _ _ H). unfold update_select_act.
  cbn [rows served set_schedule ticked set_clock fst snd]. fold p. rewrite Hr.
  reflexivity.
Qed.

(** The next [n] client calls are not scheduled to fail. *)
Definition all_succeed (n : nat) (sch : list outcome) : Prop :=
  Forall (eq Succeeds) (firstn n sch).

Lemma all_succeed_next n sch :
  all_succeed (S n) sch -> next_succeeds sch /\ all_succeed n (tail sch).
Proof.
  unfold all_succeed, next_succeeds. destruct sch as [|o sch]; cbn [firstn tail].
  - intros _. split; [discriminate|]. destruct n; constructor.
  - intros H. inversion H; subst. split; [discriminate|assumption].
Qed.

Lemma id_of_nonempty n : Js.truthy (Some (id_of n)) = true.
Proof. reflexivity. Qed.


(** The state in which the pipeline validates, when it starts in [w] with
    an empty trace. *)
Lemma enter_init w :
  enter env (init_state w)
  = (clock w,
     emit (EvLog LogInfo "Upload details:")
       (emit (EvLog LogInfo "Starting image upload process for:")
          {| world := w; trace := []; var_recordId := None |})).
Proof. reflexivity. Qed.

(** Validation of an acceptable file, run by the pipeline started in [w]. *)
Lemma validate_init fp w :
  passes_checks env fp w ->
  exists evs,
    Forall is_local evs /\
    validateImage env fp (snd (enter env (init_state w)))
    = ({| world := w; trace := evs; var_recordId := None |}, inr true).
Proof.
  intros Hp. rewrite enter_init. cbn [snd].
  match goal with
  | |- context [validateImage env fp ?S0] =>
      pose proof (validateImage_world fp S0) as Hw;
      pose proof (proj2 (validateImage_true_iff env fp S0) Hp) as Ht;
      destruct (validateImage env fp S0) as [s1 r] eqn:E1;
      pose proof (validateImage_keeps env fp _ _ _ E1) as Hv;
      destruct (validateImage_traces env is_local fp
                  (fun _ _ => eq_refl) (fun _ => eq_refl) _ _ _ E1)
        as (evs & Htr & Hloc)
  end.
  cbn [fst snd world trace var_recordId emit] in *. subst r.
  destruct s1 as [w1 tr1 v1]. cbn [world trace var_recordId] in *. subst.
  eexists. split; [|reflexivity].
  apply Forall_app. split; [|exact Hloc].
  repeat constructor.
Qed.


Lemma retryOperation_first {T} (op : M sim T) maxRetries delay s s' v :
  op s = (s', inr v) -> (0 < maxRetries)%nat ->
  retryOperation env op maxRetries delay s = (s', inr v).
Proof.
  intros E Hpos. apply (retryOperation_attempts env op 0); [|exact Hpos].
  apply attempts_return. exact E.
Qed.

(** C4, amended.  When validation accepts the file and none of the three
    client calls is scheduled to fail, the pipeline makes exactly these
    calls, in this order: one insert of a row with status [uploading] and
    empty storage path; one upload of the bytes of the file, in the bucket
    [generated-images], to the key [generated-images/<id>_<filename>], where
    [<id>] is the id of the created record; one update of that record to
    status [completed] with the public URL of the key as storage path and no
    error message.  The table gains one record, the updated one, which is
    the record returned; its storage path is not empty.  (C4 names the key
    [<id>_<filename>], without the folder.) *)
Theorem uploadGeneratedImage_success w fp prompt content :
  passes_checks env fp w ->
  files w !! fp = Some content ->
  (forall x, In x (rows w) -> id x <> id_of (next_id w)) ->
  all_succeed 3 (schedule w) ->
  let run := uploadGeneratedImage env fp prompt (init_state w) in
  let rid := id_of (next_id w) in
  let key := "generated-images/" +:+ rid +:+ "_"
               +:+ default "" (Js.pop (Js.split "/" fp)) in
  let url := getPublicUrl env BUCKET key in
  exists row p updated,
    net_calls (trace (fst run))
    = [NetInsert row; NetUpload "generated-images" key content "image/png" true;
       NetUpdate p rid true] /\
    ins_status row = "uploading" /\ ins_storage_path row = "" /\
    upd_status p = Some "completed" /\ upd_storage_path p = Some url /\
    upd_error_message p = None /\
    snd run = inr (Some updated) /\
    rows (world (fst run)) = (rows w ++ [updated])%list /\
    id updated = rid /\ status updated = "completed" /\
    storage_path updated = url /\ url <> "" /\ error_message updated = None /\
    blobs (world (fst run)) = <[key := (content, "image/png")]> (blobs w).
Proof.
  intros Hp Hf Hfresh Hs run rid key url.
  destruct (validate_init fp w Hp) as (evs & Hloc & E1).
  destruct (all_succeed_next _ _ Hs) as [N1 Hs2].
  destruct (all_succeed_next _ _ Hs2) as [N2 Hs3].
  destruct (all_succeed_next _ _ Hs3) as [N3 _].
  eassert (Hrun : run = _).
  { unfold run. eapply uploadGeneratedImage_success_run.
    - exact E1.
    - apply retryOperation_first; [|lia].
      apply insert_attempt_succeeds. exact N1.
    - unfold fs_readFile, perform, with_record.
      cbn [env readFile world emit with_world]. unfold sim_readFile.
      cbn [files set_rows served set_schedule ticked set_clock]. rewrite Hf.
      reflexivity.
    - apply retryOperation_first; [|lia].
      apply upload_attempt_succeeds. exact N2.
    - apply retryOperation_first; [|lia].
      apply complete_attempt_succeeds with (rid := rid).
      + exact N3.
      + reflexivity.
      + cbn [rows world emit with_world set_rows set_blobs served set_schedule
               ticked set_clock].
        rewrite update_rows_last by (assumption || reflexivity).
        apply filter_matches_last; [assumption|reflexivity]. }
  assert (Hevs : net_calls evs = [])
    by (apply (net_calls_local [] evs Hloc)).
  clearbody run. subst run.
  cbn [fst snd world trace var_recordId emit with_world env date_now rows blobs
         set_rows set_blobs served set_schedule ticked set_clock next_id].
  rewrite !net_calls_snoc, Hevs, !app_nil_r. cbn [app].
  rewrite update_rows_last by (assumption || reflexivity).
  eexists _, _, _.
  repeat split; try reflexivity.
  unfold url. cbn [env getPublicUrl]. unfold base_url.
  rewrite JsFacts.append_cons. discriminate.
Qed.


(** What a served insert and a served error update do to the world. *)
Definition insert_done (fp prompt : string) w (v : option string)
  : sim * GeneratedImageRecord :=
  let r := inserted (uploading_row fp prompt (clock w)) (served w) in
  (set_rows (rows w ++ [r]) (S (next_id w)) (served w), r).

Definition fail_done (error : thrown) (failureTime : Z) w (v : option string)
  : sim * unit :=
  (set_rows (update_rows (error_patch env error (clock w) failureTime)
               (default "" v) (rows w))
     (next_id w) (served w), tt).

Lemma insert_within_budget fp prompt errs s rest :
  schedule (world s) = (map Fails errs ++ rest)%list ->
  next_succeeds rest -> (List.length errs < 3)%nat ->
  exists s' T,
    let wT := set_schedule rest (set_clock T (world s)) in
    retryOperation env (insert_operation env fp prompt) 3 1000 s
    = (s', inr (RespData (snd (insert_done fp prompt wT (var_recordId s))))) /\
    world s' = fst (insert_done fp prompt wT (var_recordId s)) /\
    var_recordId s' = var_recordId s.
Proof.
  intros Hs Hn Hl.
  destruct (call_attempts (insert_operation env fp prompt) (insert_done fp prompt))
    with (errs := errs) (delay := 1000) (s := s) (rest := rest)
    as (s' & T & Ha & Hw & Hv); try assumption.
  - intros s0 e rest0 H. eexists. apply insert_attempt_fails. exact H.
  - intros s0 H. eexists. apply (insert_attempt_succeeds fp prompt s0 H).
  - exists s', T. cbv zeta. split; [|split; assumption].
    eapply retryOperation_attempts; [exact Ha|exact Hl].
Qed.

Lemma fail_within_budget error failureTime errs s rest :
  schedule (world s) = (map Fails errs ++ rest)%list ->
  next_succeeds rest -> (List.length errs < 3)%nat ->
  exists s' T,
    let wT := set_schedule rest (set_clock T (world s)) in
    retryOperation env (fail_operation env error failureTime) 3 1000 s
    = (s', inr (RespData tt)) /\
    world s' = fst (fail_done error failureTime wT (var_recordId s)) /\
    var_recordId s' = var_recordId s.
Proof.
  intros Hs Hn Hl.
  destruct (call_attempts (fail_operation env error failureTime)
              (fail_done error failureTime))
    with (errs := errs) (delay := 1000) (s := s) (rest := rest)
    as (s' & T & Ha & Hw & Hv); try assumption.
  - intros s0 e rest0 H. eexists. apply fail_attempt_fails. exact H.
  - intros s0 H. eexists. apply (fail_attempt_succeeds error failureTime s0 H).
  - exists s', T. cbv zeta. split; [|split; assumption].
    eapply retryOperation_attempts; [exact Ha|exact Hl].
Qed.

Lemma upload_exhausted key body s e1 e2 e3 rest :
  schedule (world s) = Fails e1 :: Fails e2 :: Fails e3 :: rest ->
  exists s',
    retryOperation env (upload_operation env key body) 3 1000 s = (s', inl e3) /\
    (exists T, world s' = set_schedule rest (set_clock T (world s))) /\
    var_recordId s' = var_recordId s.
Proof.
  intros Hs. eexists. split; [|split].
  - eapply retryOperation_three_failures.
    + apply upload_attempt_fails. exact Hs.
    + apply upload_attempt_fails. reflexivity.
    + apply upload_attempt_fails. reflexivity.
  - eexists. reflexivity.
  - reflexivity.
Qed.


(** The run in which the record is created, the blob upload fails three
    times and the error update is served: the table gains the created
    record, patched by the error update. *)
Lemma upload_exhausted_run w fp prompt content errs_c e1 e2 e3 errs_r rest :
  passes_checks env fp w ->
  files w !! fp = Some content ->
  (forall x, In x (rows w) -> id x <> id_of (next_id w)) ->
  schedule w
  = (map Fails errs_c ++ Succeeds :: Fails e1 :: Fails e2 :: Fails e3
       :: map Fails errs_r ++ rest)%list ->
  (List.length errs_c < 3)%nat -> (List.length errs_r < 3)%nat ->
  next_succeeds rest ->
  let run := uploadGeneratedImage env fp prompt (init_state w) in
  exists t_insert t_error t_fail wS,
    next_id wS = next_id w /\
    snd run = inr None /\
    rows (world (fst run))
    = (rows w ++ [apply_patch (error_patch env e3 t_error (t_fail - clock w))
                    (inserted (uploading_row fp prompt t_insert) wS)])%list /\
    blobs (world (fst run)) = blobs w.
Proof.
  intros Hp Hf Hfresh Hs Hlc Hlr Hn run.
  destruct (validate_init fp w Hp) as (evs & Hloc & E1).
  destruct (insert_within_budget fp prompt errs_c
              {| world := w; trace := evs; var_recordId := None |}
              (Succeeds :: Fails e1 :: Fails e2 :: Fails e3 :: map Fails errs_r ++ rest)
              Hs) as (s2 & T & E2 & Hw2 & Hv2); [discriminate|exact Hlc|].
  cbv zeta in E2, Hw2. cbn [world var_recordId] in E2, Hw2, Hv2.
  unfold insert_done in E2, Hw2. cbn [fst snd] in E2, Hw2.
  match type of E2 with
  | _ = (_, inr (RespData ?r)) => set (rd := r) in *
  end.
  assert (E3 : fs_readFile env fp (with_record rd s2)
               = (with_world (world s2)
                    (emit (EvFs (FsReadFile fp)) (with_record rd s2)),
                  inr content)).
  { unfold fs_readFile, perform, with_record.
    cbn [env readFile world emit with_world]. unfold sim_readFile.
    rewrite Hw2. cbn [files set_rows served set_schedule ticked set_clock].
    rewrite Hf. reflexivity. }
  destruct (upload_exhausted (storage_key rd fp) content
              (emit (EvLog LogInfo "Attempting storage upload:")
                 (with_world (world s2)
                    (emit (EvFs (FsReadFile fp)) (with_record rd s2))))
              e1 e2 e3 (map Fails errs_r ++ rest)%list)
    as (s4 & E4 & (T4 & Hw4) & Hv4).
  { cbn [world emit with_world]. rewrite Hw2. reflexivity. }
  cbn [world var_recordId emit with_world with_record] in Hw4, Hv4.
  assert (Hrun : run = upload_catch env (fst (enter env (init_state w))) e3 s4)
    by (eapply uploadGeneratedImage_upload_failure_run; eassumption).
  rewrite upload_catch_with_record in Hrun by (rewrite Hv4; reflexivity).
  cbn [env date_now] in Hrun.
  match type of Hrun with
  | context [retryOperation env (fail_operation env e3 ?ft) 3 1000 ?S] =>
      destruct (fail_within_budget e3 ft errs_r S rest)
        as (s5 & T5 & E5 & Hw5 & Hv5);
        [cbn [world emit with_world]; rewrite Hw4; reflexivity
        |exact Hn|exact Hlr|];
      rewrite E5 in Hrun
  end.
  cbv zeta in Hw5. cbn [world var_recordId emit with_world] in Hw5.
  rewrite Hv4, Hw4, Hw2 in Hw5. unfold fail_done in Hw5.
  change (default "" (Some (id rd))) with (id rd) in Hw5.
  cbn [fst rows set_rows set_schedule set_clock served] in Hw5.
  rewrite update_rows_last in Hw5 by (exact Hfresh || reflexivity).
  eexists _, _, _, _. subst run. rewrite Hrun. cbn [fst snd]. rewrite Hw5.
  cbn [rows blobs set_rows set_schedule set_clock served ticked].
  split; [|split; [reflexivity|split; reflexivity]].
  reflexivity.
Qed.


Lemma fail_exhausted error failureTime s e1 e2 e3 rest :
  schedule (world s) = Fails e1 :: Fails e2 :: Fails e3 :: rest ->
  exists s',
    retryOperation env (fail_operation env error failureTime) 3 1000 s = (s', inl e3) /\
    (exists T, world s' = set_schedule rest (set_clock T (world s))) /\
    var_recordId s' = var_recordId s.
Proof.
  intros Hs. eexists. split; [|split].
  - eapply retryOperation_three_failures.
    + apply fail_attempt_fails. exact Hs.
    + apply fail_attempt_fails. reflexivity.
    + apply fail_attempt_fails. reflexivity.
  - eexists. reflexivity.
  - reflexivity.
Qed.

(** The run in which the record is created, the blob upload fails three
    times and so does the error update: the table gains the created record,
    as it was created. *)
Lemma upload_and_recovery_exhausted_run w fp prompt content errs_c e1 e2 e3
    r1 r2 r3 rest :
  passes_checks env fp w ->
  files w !! fp = Some content ->
  schedule w
  = (map Fails errs_c ++ Succeeds :: Fails e1 :: Fails e2 :: Fails e3
       :: Fails r1 :: Fails r2 :: Fails r3 :: rest)%list ->
  (List.length errs_c < 3)%nat ->
  let run := uploadGeneratedImage env fp prompt (init_state w) in
  exists t_insert wS,
    next_id wS = next_id w /\
    snd run = inr None /\
    rows (world (fst run))
    = (rows w ++ [inserted (uploading_row fp prompt t_insert) wS])%list /\
    blobs (world (fst run)) = blobs w.
Proof.
  intros Hp Hf Hs Hlc run.
  destruct (validate_init fp w Hp) as (evs & Hloc & E1).
  destruct (insert_within_budget fp prompt errs_c
              {| world := w; trace := evs; var_recordId := None |}
              (Succeeds :: Fails e1 :: Fails e2 :: Fails e3
                 :: Fails r1 :: Fails r2 :: Fails r3 :: rest)
              Hs) as (s2 & T & E2 & Hw2 & Hv2); [discriminate|exact Hlc|].
  cbv zeta in E2, Hw2. cbn [world var_recordId] in E2, Hw2, Hv2.
  unfold insert_done in E2, Hw2. cbn [fst snd] in E2, Hw2.
  match type of E2 with
  | _ = (_, inr (RespData ?r)) => set (rd := r) in *
  end.
  assert (E3 : fs_readFile env fp (with_record rd s2)
               = (with_world (world s2)
                    (emit (EvFs (FsReadFile fp)) (with_record rd s2)),
                  inr content)).
  { unfold fs_readFile, perform, with_record.
    cbn [env readFile world emit with_world]. unfold sim_readFile.
    rewrite Hw2. cbn [files set_rows served set_schedule ticked set_clock].
    rewrite Hf. reflexivity. }
  destruct (upload_exhausted (storage_key rd fp) content
              (emit (EvLog LogInfo "Attempting storage upload:")
                 (with_world (world s2)
                    (emit (EvFs (FsReadFile fp)) (with_record rd s2))))
              e1 e2 e3 (Fails r1 :: Fails r2 :: Fails r3 :: rest))
    as (s4 & E4 & (T4 & Hw4) & Hv4).
  { cbn [world emit with_world]. rewrite Hw2. reflexivity. }
  cbn [world var_recordId emit with_world with_record] in Hw4, Hv4.
  assert (Hrun : run = upload_catch env (fst (enter env (init_state w))) e3 s4)
    by (eapply uploadGeneratedImage_upload_failure_run; eassumption).
  rewrite upload_catch_with_record in Hrun by (rewrite Hv4; reflexivity).
  cbn [env date_now] in Hrun.
  match type of Hrun with
  | context [retryOperation env (fail_operation env e3 ?ft) 3 1000 ?S] =>
      destruct (fail_exhausted e3 ft S r1 r2 r3 rest)
        as (s5 & E5 & (T5 & Hw5) & Hv5);
        [cbn [world emit with_world]; rewrite Hw4; reflexivity|];
      rewrite E5 in Hrun
  end.
  cbn [world var_recordId emit with_world] in Hw5.
  rewrite Hw4, Hw2 in Hw5.
  eexists _, _. subst run. rewrite Hrun. cbn [fst snd world emit]. rewrite Hw5.
  cbn [rows blobs set_rows set_schedule set_clock served ticked].
  split; [|split; [reflexivity|split; reflexivity]].
  reflexivity.
Qed.

(** C5, amended.  The record is created (within the three attempts of the
    insert) and the blob upload fails at all three attempts.  When the error
    update is then served within its own three attempts, the pipeline
    returns [null] and the record ends with status [error], an error message
    (the message of the last upload error when it is an [Error],
    [Unknown error] otherwise) and the empty storage path it was created
    with.  When the error update fails at all three attempts too, the
    pipeline still returns [null], and the record stays as it was created:
    status [uploading], no error message, empty storage path.  In both cases
    no blob is written. *)
Theorem uploadGeneratedImage_upload_exhausted w fp prompt content
    errs_c e1 e2 e3 sch :
  passes_checks env fp w ->
  files w !! fp = Some content ->
  (forall x, In x (rows w) -> id x <> id_of (next_id w)) ->
  schedule w
  = (map Fails errs_c ++ Succeeds :: Fails e1 :: Fails e2 :: Fails e3 :: sch)%list ->
  (List.length errs_c < 3)%nat ->
  let run := uploadGeneratedImage env fp prompt (init_state w) in
  (forall errs_r rest,
     sch = (map Fails errs_r ++ rest)%list ->
     (List.length errs_r < 3)%nat -> next_succeeds rest ->
     exists r,
       snd run = inr None /\
       rows (world (fst run)) = (rows w ++ [r])%list /\
       id r = id_of (next_id w) /\
       status r = "error" /\
       error_message r
       = Some (if instanceof_Error e3 then message_of e3 else "Unknown error") /\
       storage_path r = "" /\
       blobs (world (fst run)) = blobs w) /\
  (forall r1 r2 r3 rest,
     sch = Fails r1 :: Fails r2 :: Fails r3 :: rest ->
     exists r,
       snd run = inr None /\
       rows (world (fst run)) = (rows w ++ [r])%list /\
       id r = id_of (next_id w) /\
       status r = "uploading" /\
       error_message r = None /\
       storage_path r = "" /\
       blobs (world (fst run)) = blobs w).
Proof.
  intros Hp Hf Hfresh Hs Hlc run. split.
  - intros errs_r rest -> Hlr Hn.
    destruct (upload_exhausted_run w fp prompt content errs_c e1 e2 e3 errs_r rest
                Hp Hf Hfresh Hs Hlc Hlr Hn)
      as (t_insert & t_error & t_fail & wS & Hid & Hr & Hrows & Hb).
    eexists. split; [exact Hr|]. split; [exact Hrows|].
    cbn [apply_patch inserted error_patch id status error_message storage_path
           upd_status upd_error_message upd_storage_path uploading_row
           ins_storage_path default].
    rewrite Hid. repeat split; try reflexivity. exact Hb.
  - intros r1 r2 r3 rest ->.
    destruct (upload_and_recovery_exhausted_run w fp prompt content errs_c e1 e2 e3
                r1 r2 r3 rest Hp Hf Hs Hlc)
      as (t_insert & wS & Hid & Hr & Hrows & Hb).
    eexists. split; [exact Hr|]. split; [exact Hrows|].
    cbn [inserted id status error_message storage_path uploading_row
           ins_storage_path ins_status].
    rewrite Hid. repeat split; try reflexivity. exact Hb.
Qed.

(** The update of the error path replaces the metadata of the record: the
    keys written at creation, [uploadStarted], [originalFilename] and
    [attempts], are gone from the record in its terminal state, which holds
    [errorTimestamp], [processingTime] and [errorDetails] only.  (C9 asks for
    the creation keys to survive.) *)
Theorem error_update_drops_creation_metadata w fp prompt content
    errs_c e1 e2 e3 errs_r rest :
  passes_checks env fp w ->
  files w !! fp = Some content ->
  (forall x, In x (rows w) -> id x <> id_of (next_id w)) ->
  schedule w
  = (map Fails errs_c ++ Succeeds :: Fails e1 :: Fails e2 :: Fails e3
       :: map Fails errs_r ++ rest)%list ->
  (List.length errs_c < 3)%nat -> (List.length errs_r < 3)%nat ->
  next_succeeds rest ->
  let run := uploadGeneratedImage env fp prompt (init_state w) in
  exists r m t_fail,
    rows (world (fst run)) = (rows w ++ [r])%list /\
    status r = "error" /\
    metadata r = Some m /\
    m !! "uploadStarted" = None /\
    m !! "originalFilename" = None /\
    m !! "attempts" = None /\
    m !! "processingTime" = Some (JNum (t_fail - clock w)) /\
    dom m = ({["errorTimestamp"; "processingTime"; "errorDetails"]} : gset string).
Proof.
  intros Hp Hf Hfresh Hs Hlc Hlr Hn run.
  destruct (upload_exhausted_run w fp prompt content errs_c e1 e2 e3 errs_r rest
              Hp Hf Hfresh Hs Hlc Hlr Hn)
    as (t_insert & t_error & t_fail & wS & Hid & Hr & Hrows & Hb).
  eexists _, _, t_fail. split; [exact Hrows|].
  cbn [apply_patch inserted error_patch status metadata upd_status upd_metadata
         default].
  split; [reflexivity|]. split; [reflexivity|].
  split; [reflexivity|]. split; [reflexivity|]. split; [reflexivity|].
  split; [reflexivity|].
  rewrite !dom_insert_L, dom_empty_L. set_solver.
Qed.

End SimFacts.

(** ** Runs on worked inputs *)

Module Runs.
Import Sim SimFacts.

Definition sunset : string := "/tmp/images/sunset.png".

Definition timeout_error : thrown := JsObject "request timed out".
Definition storage_error : thrown := JsError "StorageError" "bucket unavailable" "".

(** The kind of each client call. *)
Definition call_name (c : net_call) : string :=
  match c with
  | NetInsert _ => "insert"
  | NetUpload _ _ _ _ _ => "upload"
  | NetUpdate _ _ _ => "update"
  end.

Lemma sunset_passes sch :
  passes_checks env sunset (Examples.one_file sunset Examples.png_2k sch).
Proof.
  apply (validateImage_true_iff env sunset
           (init_state (Examples.one_file sunset Examples.png_2k sch))).
  vm_compute. reflexivity.
Qed.

End Runs.

(** The keys of the uploads of a trace, in order. *)
Definition uploaded_keys (tr : list event) : list string :=
  omap (fun c => match c with
                 | NetUpload _ key _ _ _ => Some key
                 | _ => None
                 end) (net_calls tr).

(** C4, as stated, fails on the storage key: the record created for
    [/tmp/images/sunset.png] has the id [img-0], and the bytes are uploaded
    to [generated-images/img-0_sunset.png]; nothing is stored under
    [img-0_sunset.png], the key [<id>_<filename>]. *)
Lemma upload_key_has_folder_prefix :
  let w := Examples.one_file Runs.sunset Examples.png_2k [] in
  let run := uploadGeneratedImage Sim.env Runs.sunset "a sunset" (Sim.init_state w) in
  match snd run with
  | inr (Some r) => id r = "img-0" /\ status r = "completed"
  | _ => False
  end /\
  uploaded_keys (trace (fst run)) = ["generated-images/img-0_sunset.png"] /\
  uploaded_keys (trace (fst run)) <> ["img-0_sunset.png"] /\
  Sim.blobs (world (fst run)) !! "img-0_sunset.png" = None /\
  Sim.blobs (world (fst run)) !! "generated-images/img-0_sunset.png"
  = Some (Examples.png_2k, "image/png").
Proof.
  cbv zeta. split; [vm_compute; split; reflexivity|].
  split; [vm_compute; reflexivity|].
  split; [vm_compute; discriminate|].
  split; vm_compute; reflexivity.
Qed.

Lemma uploadGeneratedImage_success_witness :
  let w := Examples.one_file Runs.sunset Examples.png_2k [] in
  let run := uploadGeneratedImage Sim.env Runs.sunset "a sunset" (Sim.init_state w) in
  exists updated,
    snd run = inr (Some updated) /\
    Sim.rows (world (fst run)) = [updated] /\
    status updated = "completed" /\
    storage_path updated <> "" /\
    error_message updated = None /\
    map Runs.call_name (net_calls (trace (fst run))) = ["insert"; "upload"; "update"].
Proof.
  intros w run.
  destruct (SimFacts.uploadGeneratedImage_success w Runs.sunset "a sunset"
              Examples.png_2k)
    as (row & p & updated & Hc & _ & _ & _ & _ & _ & Hr & Hrows & _ & Hst & Hsp & Hne & He & _).
  - apply Runs.sunset_passes.
  - reflexivity.
  - intros x [].
  - constructor.
  - exists updated. fold run in Hc, Hr, Hrows.
    split; [exact Hr|]. split; [exact Hrows|]. split; [exact Hst|].
    split; [rewrite Hsp; exact Hne|]. split; [exact He|].
    rewrite Hc. reflexivity.
Defined.

(** C5, as stated, fails: the record is created, the blob upload fails at
    its three attempts, and so does the error update; the pipeline returns
    [null] and the record stays in status [uploading] without an error
    message. *)
Lemma upload_exhausted_recovery_fails :
  let sch := [Sim.Succeeds;
              Sim.Fails Runs.storage_error; Sim.Fails Runs.storage_error;
              Sim.Fails Runs.storage_error;
              Sim.Fails Runs.timeout_error; Sim.Fails Runs.timeout_error;
              Sim.Fails Runs.timeout_error] in
  let w := Examples.one_file Runs.sunset Examples.png_2k sch in
  let run := uploadGeneratedImage Sim.env Runs.sunset "a sunset" (Sim.init_state w) in
  snd run = inr None /\
  map Runs.call_name (net_calls (trace (fst run)))
  = ["insert"; "upload"; "upload"; "upload"; "update"; "update"; "update"] /\
  map status (Sim.rows (world (fst run))) = ["uploading"] /\
  map error_message (Sim.rows (world (fst run))) = [None] /\
  map status (Sim.rows (world (fst run))) <> ["error"].
Proof.
  cbv zeta. split; [vm_compute; reflexivity|].
  split; [vm_compute; reflexivity|].
  split; [vm_compute; reflexivity|].
  split; [vm_compute; reflexivity|].
  vm_compute. discriminate.
Qed.

Lemma uploadGeneratedImage_upload_exhausted_witness :
  (let sch := [Sim.Fails Runs.timeout_error; Sim.Succeeds;
               Sim.Fails Runs.storage_error; Sim.Fails Runs.storage_error;
               Sim.Fails Runs.storage_error;
               Sim.Fails Runs.timeout_error] in
   let w := Examples.one_file Runs.sunset Examples.png_2k sch in
   let run := uploadGeneratedImage Sim.env Runs.sunset "a sunset" (Sim.init_state w) in
   exists r,
     snd run = inr None /\
     Sim.rows (world (fst run)) = [r] /\
     status r = "error" /\
     error_message r = Some "bucket unavailable" /\
     storage_path r = "") /\
  (let sch := [Sim.Succeeds;
               Sim.Fails Runs.storage_error; Sim.Fails Runs.storage_error;
               Sim.Fails Runs.storage_error;
               Sim.Fails Runs.timeout_error; Sim.Fails Runs.timeout_error;
               Sim.Fails Runs.timeout_error; Sim.Succeeds] in
   let w := Examples.one_file Runs.sunset Examples.png_2k sch in
   let run := uploadGeneratedImage Sim.env Runs.sunset "a sunset" (Sim.init_state w) in
   exists r,
     snd run = inr None /\
     Sim.rows (world (fst run)) = [r] /\
     status r = "uploading" /\
     error_message r = None /\
     storage_path r = "").
Proof.
  split; intros sch w run.
  - destruct (SimFacts.uploadGeneratedImage_upload_exhausted w Runs.sunset "a sunset"
                Examples.png_2k [Runs.timeout_error]
                Runs.storage_error Runs.storage_error Runs.storage_error
                [Sim.Fails Runs.timeout_error]) as [Hserved _].
    + apply Runs.sunset_passes.
    + reflexivity.
    + intros x [].
    + reflexivity.
    + simpl; lia.
    + destruct (Hserved [Runs.timeout_error] [])
        as (r & Hr & Hrows & _ & Hst & He & Hsp & _).
      * reflexivity.
      * simpl; lia.
      * intros e rest; discriminate.
      * exists r. fold run in Hr, Hrows. repeat split; assumption.
  - destruct (SimFacts.uploadGeneratedImage_upload_exhausted w Runs.sunset "a sunset"
                Examples.png_2k []
                Runs.storage_error Runs.storage_error Runs.storage_error
                [Sim.Fails Runs.timeout_error; Sim.Fails Runs.timeout_error;
                 Sim.Fails Runs.timeout_error; Sim.Succeeds]) as [_ Hfailed].
    + apply Runs.sunset_passes.
    + reflexivity.
    + intros x [].
    + reflexivity.
    + simpl; lia.
    + destruct (Hfailed Runs.timeout_error Runs.timeout_error Runs.timeout_error
                  [Sim.Succeeds] eq_refl)
        as (r & Hr & Hrows & _ & Hst & He & Hsp & _).
      exists r. fold run in Hr, Hrows. repeat split; assumption.
Defined.

Lemma error_update_drops_creation_metadata_witness :
  let sch := [Sim.Succeeds;
              Sim.Fails Runs.storage_error; Sim.Fails Runs.storage_error;
              Sim.Fails Runs.storage_error] in
  let w := Examples.one_file Runs.sunset Examples.png_2k sch in
  let run := uploadGeneratedImage Sim.env Runs.sunset "a sunset" (Sim.init_state w) in
  exists r m,
    Sim.rows (world (fst run)) = [r] /\
    status r = "error" /\
    metadata r = Some m /\
    m !! "uploadStarted" = None /\
    m !! "originalFilename" = None /\
    m !! "attempts" = None.
Proof.
  intros sch w run.
  destruct (SimFacts.error_update_drops_creation_metadata w Runs.sunset "a sunset"
              Examples.png_2k []
              Runs.storage_error Runs.storage_error Runs.storage_error [] [])
    as (r & m & t & Hrows & Hst & Hm & H1 & H2 & H3 & _).
  - apply Runs.sunset_passes.
  - reflexivity.
  - intros x [].
  - reflexivity.
  - simpl; lia.
  - simpl; lia.
  - intros e rest; discriminate.
  - exists r, m. fold run in Hrows. repeat split; assumption.
Defined.

(** C10.  Whatever the path, the prompt and the environment, every upload
    the pipeline issues goes to the bucket [generated-images] with content
    type [image/png] and [upsert] set.  A JPEG file and a GIF file that pass
    validation are stored under that label. *)
Theorem uploads_are_labelled_png :
  (forall (W : Type) (env : Env W) (filepath prompt : string) (s : state W),
     exists evs,
       trace (fst (uploadGeneratedImage env filepath prompt s))
       = (trace s ++ evs)%list /\
       forall bucket key body contentType upsert,
         In (EvNet (NetUpload bucket key body contentType upsert)) evs ->
         bucket = "generated-images" /\ contentType = "image/png" /\ upsert = true) /\
  (let w := Examples.one_file "/tmp/cat.jpg" Examples.jpeg_bytes [] in
   Sim.blobs (world (fst (uploadGeneratedImage Sim.env "/tmp/cat.jpg" "a cat"
                            (Sim.init_state w))))
   !! "generated-images/img-0_cat.jpg" = Some (Examples.jpeg_bytes, "image/png")) /\
  (let w := Examples.one_file "/tmp/cat.gif" Examples.gif_bytes [] in
   Sim.blobs (world (fst (uploadGeneratedImage Sim.env "/tmp/cat.gif" "a cat"
                            (Sim.init_state w))))
   !! "generated-images/img-0_cat.gif" = Some (Examples.gif_bytes, "image/png")).
Proof.
  split; [|split; vm_compute; reflexivity].
  intros W env filepath prompt s.
  destruct (uploadGeneratedImage env filepath prompt s) as [s' r] eqn:E.
  destruct (uploadGeneratedImage_png_upsert env filepath prompt s s' r E)
    as (evs & Htr & Hall).
  exists evs. split; [exact Htr|].
  intros bucket key body contentType upsert Hin.
  rewrite Forall_forall in Hall. apply (Hall _ (proj2 (list_elem_of_In _ _) Hin)).
Qed.

(** * Further properties *)

(** ** The extension test of [validateImage] *)

Section ExtensionTest.
Import Js JsFacts.

Definition dot_free (s : string) : Prop :=
  forall c, In c (list_ascii_of_string s) -> c <> "."%char.

(** The extension is the text after the last dot of the path, lower-cased;
    directories and earlier dots do not matter. *)
Theorem extension_after_last_dot (stem e : string) :
  dot_free e ->
  extension_of (stem +:+ "." +:+ e) = Some (toLowerCase e).
Proof.
  intros He. unfold extension_of.
  change ("." +:+ e) with (String "." e).
  rewrite pop_split_app, (split_no_sep "." e He). reflexivity.
Qed.

Lemma extension_after_last_dot_witness :
  extension_of ("/srv/out.v2/Photo.Final" +:+ "." +:+ "JPeG") = Some "jpeg".
Proof.
  apply (extension_after_last_dot "/srv/out.v2/Photo.Final" "JPeG").
  intros c Hc. simpl in Hc.
  destruct Hc as [<-|[<-|[<-|[<-|[]]]]]; discriminate.
Defined.

(** A path without any dot is its own extension: the test accepts it
    exactly when the whole path, lower-cased, is one of the four names. *)
Theorem extension_of_dot_free_path (filepath : string) :
  dot_free filepath ->
  (accepted_extension filepath
   <-> In (toLowerCase filepath) ["png"; "jpg"; "jpeg"; "gif"]).
Proof.
  intros Hf. unfold accepted_extension, extension_of.
  rewrite (split_no_sep "." filepath Hf). cbn [pop last option_map]. split.
  - intros (e & [= <-] & Hin). exact Hin.
  - intros Hin. eexists. split; [reflexivity|exact Hin].
Qed.

Lemma extension_of_dot_free_path_witness :
  accepted_extension "PNG" <-> In (toLowerCase "PNG") ["png"; "jpg"; "jpeg"; "gif"].
Proof.
  apply (extension_of_dot_free_path "PNG").
  intros c Hc. simpl in Hc. destruct Hc as [<-|[<-|[<-|[]]]]; discriminate.
Defined.

End ExtensionTest.

(** ** Branches of [uploadGeneratedImage] that cannot be taken *)

Section DeadBranches.
Context {W : Type} (env : Env W).
Implicit Types s : state W.

(** After a successful validation the file name derived from the path is
    not empty: the test [if (!filename)] and its error
    [Invalid filepath - no filename found] are never reached. *)
Theorem validated_path_has_filename (filepath : string) s s1 :
  validateImage env filepath s = (s1, inr true) ->
  exists filename,
    Js.pop (Js.split "/" filepath) = Some filename /\ filename <> "".
Proof.
  intros H. pose proof (validated_filename env filepath s s1 H) as Ht.
  destruct (JsFacts.pop_split_is_Some "/" filepath) as [filename Hp].
  exists filename. split; [exact Hp|].
  rewrite Hp in Ht. simpl in Ht. intros ->. discriminate Ht.
Qed.

(** What a retried operation returns is something one of its attempts
    returned. *)
Lemma retry_loop_returns {T} (P : T -> Prop) (op : M W T) :
  (forall s s' v, op s = (s', inr v) -> P v) ->
  forall fuel maxRetries attempt delay lastError s s' v,
    retry_loop env fuel op maxRetries attempt delay lastError s = (s', inr v) -> P v.
Proof.
  intros Hop. induction fuel as [|fuel IH];
    intros maxRetries attempt delay lastError s s' v; cbn [retry_loop].
  - discriminate.
  - destruct (attempt <=? maxRetries)%nat; [|discriminate].
    unfold try_catch. destruct (op s) as [s1 [e|v1]] eqn:E.
    + destruct (attempt =? maxRetries)%nat; [discriminate|].
      unfold bind, log, sleep, perform. cbn [world emit with_world]. apply IH.
    + intros [= <- <-]. eapply Hop, E.
Qed.

Lemma throw_on_error_returns {T} (m : M W (response T)) s s' r :
  bind m throw_on_error s = (s', inr r) -> exists data, r = RespData data.
Proof.
  unfold bind. destruct (m s) as [s1 [e|[data|error]]]; try discriminate.
  intros [= <- <-]. eauto.
Qed.

(** The closures handed to [retryOperation] throw when the client answers
    with an error, so [retryOperation] never returns such an answer: the
    tests [if (recordError)], [if (storageError)] and [if (updateError)],
    with their prefixed messages, are never taken. *)
Theorem retried_calls_return_data :
  (forall filepath prompt maxRetries delay s s' r,
     retryOperation env (insert_operation env filepath prompt) maxRetries delay s
     = (s', inr r) -> exists data, r = RespData data) /\
  (forall key body maxRetries delay s s' r,
     retryOperation env (upload_operation env key body) maxRetries delay s
     = (s', inr r) -> exists data, r = RespData data) /\
  (forall url recordData t0 maxRetries delay s s' r,
     retryOperation env (complete_operation env url recordData t0) maxRetries delay s
     = (s', inr r) -> exists data, r = RespData data) /\
  (forall error failureTime maxRetries delay s s' r,
     retryOperation env (fail_operation env error failureTime) maxRetries delay s
     = (s', inr r) -> exists data, r = RespData data).
Proof.
  repeat split; intros; unfold retryOperation in *;
    (eapply (retry_loop_returns (fun r => exists data, r = RespData data));
     [|eassumption]);
    intros s0 s1 v.
  - unfold insert_operation, bind. destruct (now env s0) as [s2 [e|t]]; [discriminate|].
    apply (throw_on_error_returns _ s2 s1 v).
  - unfold upload_operation. apply throw_on_error_returns.
  - unfold complete_operation, bind.
    destruct (now env s0) as [s2 [e|t]]; [discriminate|].
    destruct (now env s2) as [s3 [e|t']]; [discriminate|].
    destruct (get_recordId s3) as [s4 [e|v']]; [discriminate|].
    apply (throw_on_error_returns _ s4 s1 v).
  - unfold fail_operation, bind.
    destruct (now env s0) as [s2 [e|t]]; [discriminate|].
    destruct (get_recordId s2) as [s4 [e|v']]; [discriminate|].
    apply (throw_on_error_returns _ s4 s1 v).
Qed.

End DeadBranches.

Lemma validated_path_has_filename_witness :
  exists filename,
    Js.pop (Js.split "/" Runs.sunset) = Some filename /\ filename <> "".
Proof.
  pose (s := Sim.init_state (Examples.one_file Runs.sunset Examples.png_2k [])).
  apply (validated_path_has_filename Sim.env Runs.sunset s
           (fst (validateImage Sim.env Runs.sunset s))).
  vm_compute. reflexivity.
Defined.

(** ** The retry executor for any number of attempts *)

Definition is_sleep (e : event) : bool :=
  match e with EvSleep _ => true | _ => false end.

(** Number of waits in a trace. *)
Definition sleeps (tr : list event) : nat := List.length (List.filter is_sleep tr).

Lemma sleeps_snoc tr e :
  sleeps (tr ++ [e]) = (sleeps tr + (if is_sleep e then 1 else 0))%nat.
Proof.
  unfold sleeps. rewrite List.filter_app, length_app. simpl.
  destruct (is_sleep e); reflexivity.
Qed.

Section RetryInGeneral.
Context {W : Type} (env : Env W) {T : Type}.
Implicit Types s : state W.

Lemma after_failure_sleeps w1 delay s :
  sleeps (trace (after_failure env w1 delay s)) = S (sleeps (trace s)).
Proof.
  unfold after_failure. cbn [trace emit with_world].
  rewrite !sleeps_snoc. simpl. lia.
Qed.

Lemma retry_loop_exhausts (f : W -> W * (thrown + T)) :
  always_fails f ->
  forall left maxRetries attempt delay lastError s,
    (attempt + left = maxRetries)%nat -> (0 < attempt)%nat ->
    let r := retry_loop env (S left) (observed f) maxRetries attempt delay lastError s in
    (exists w e, f w = (world (fst r), inl e) /\ snd r = inl e) /\
    invocations (trace (fst r)) = (invocations (trace s) + S left)%nat /\
    sleeps (trace (fst r)) = (sleeps (trace s) + left)%nat /\
    total_wait (trace (fst r)) = total_wait (trace s) + backoff_sum delay left.
Proof.
  intros Hf. induction left as [|left IH];
    intros maxRetries attempt delay lastError s Hsum Hpos;
    destruct (Hf (world s)) as (w1 & e & E).
  - replace attempt with maxRetries by lia. cbv zeta.
    rewrite (retry_loop_step_last env f _ _ _ _ _ w1 e E) by lia.
    cbn [fst snd world trace emit with_world].
    rewrite invocations_snoc, sleeps_snoc, total_wait_snoc. simpl.
    unfold backoff_sum. simpl.
    split; [exists (world s), e; auto|]. repeat split; lia.
  - cbv zeta. rewrite (retry_loop_step_fail env f _ _ _ _ _ _ w1 e E) by lia.
    destruct (after_failure_measures env w1 delay s) as (_ & Ht & Hi).
    pose proof (after_failure_sleeps w1 delay s) as Hsl.
    destruct (IH maxRetries (S attempt) (delay * 2) e (after_failure env w1 delay s))
      as (He & Hinv & Hslp & Hwait); [lia|lia|].
    cbv zeta in He, Hinv, Hslp, Hwait.
    split; [exact He|]. rewrite Hinv, Hslp, Hwait, Hi, Hsl, Ht, backoff_sum_S.
    repeat split; lia.
Qed.

(** For any [maxRetries >= 1], an operation that always fails is invoked
    exactly [maxRetries] times; between the invocations there are
    [maxRetries - 1] waits, which add up to
    [delay * 2^0 + ... + delay * 2^(maxRetries - 2)]; the error thrown is the
    error of the invocation that produced the final world, the last one. *)
Theorem retryOperation_exhausts_any (f : W -> W * (thrown + T))
    (maxRetries : nat) (delay : Z) s :
  always_fails f -> (0 < maxRetries)%nat ->
  let r := retryOperation env (observed f) maxRetries delay s in
  (exists w e, f w = (world (fst r), inl e) /\ snd r = inl e) /\
  invocations (trace (fst r)) = (invocations (trace s) + maxRetries)%nat /\
  sleeps (trace (fst r)) = (sleeps (trace s) + (maxRetries - 1))%nat /\
  total_wait (trace (fst r))
  = total_wait (trace s) + backoff_sum delay (maxRetries - 1).
Proof.
  intros Hf Hpos. unfold retryOperation.
  destruct maxRetries as [|n]; [lia|].
  replace (S n - 1)%nat with n by lia.
  apply (retry_loop_exhausts f Hf n (S n) 1 delay JsNull s); lia.
Qed.

Lemma retry_loop_bounds (f : W -> W * (thrown + T)) :
  forall fuel maxRetries attempt delay lastError s,
    (0 < attempt)%nat -> (S maxRetries - attempt <= fuel)%nat ->
    let r := retry_loop env fuel (observed f) maxRetries attempt delay lastError s in
    let k := (invocations (trace (fst r)) - invocations (trace s))%nat in
    (invocations (trace s) <= invocations (trace (fst r)))%nat /\
    (k <= S maxRetries - attempt)%nat /\
    ((attempt <= maxRetries)%nat -> (1 <= k)%nat) /\
    sleeps (trace (fst r)) = (sleeps (trace s) + (k - 1))%nat.
Proof.
  induction fuel as [|fuel IH]; intros maxRetries attempt delay lastError s Hpos Hfuel.
  - cbn [retry_loop throw fst]. cbv zeta. repeat split; lia.
  - destruct (Nat.leb_spec attempt maxRetries) as [Hle|Hgt].
    + destruct (f (world s)) as [w1 [e|v]] eqn:E.
      * destruct (Nat.eq_dec attempt maxRetries) as [->|Hne].
        -- cbv zeta. rewrite (retry_loop_step_last env f _ _ _ _ _ w1 e E) by lia.
           cbn [fst trace emit with_world].
           rewrite invocations_snoc, sleeps_snoc. simpl. repeat split; lia.
        -- cbv zeta. rewrite (retry_loop_step_fail env f _ _ _ _ _ _ w1 e E) by lia.
           destruct (after_failure_measures env w1 delay s) as (_ & _ & Hi).
           pose proof (after_failure_sleeps w1 delay s) as Hsl.
           destruct (IH maxRetries (S attempt) (delay * 2) e
                       (after_failure env w1 delay s)) as (H1 & H2 & H3 & H4);
             [lia|lia|].
           cbv zeta in H1, H2, H3, H4. rewrite Hi in H1, H2, H3, H4.
           rewrite Hsl in H4. specialize (H3 ltac:(lia)).
           rewrite H4. repeat split; lia.
      * cbv zeta. rewrite (retry_loop_step_ok env f _ _ _ _ _ _ w1 v E) by lia.
        cbn [fst trace emit with_world].
        rewrite invocations_snoc, sleeps_snoc. simpl. repeat split; lia.
    + cbn [retry_loop]. rewrite (proj2 (Nat.leb_gt _ _) Hgt).
      cbn [throw fst]. cbv zeta. repeat split; lia.
Qed.

(** Whatever the operation does, [retryOperation] invokes it at most
    [maxRetries] times and waits once between two invocations, never after
    the last one; with [maxRetries = 0] the operation is not invoked and
    [null] is thrown. *)
Theorem retryOperation_bounds (f : W -> W * (thrown + T))
    (maxRetries : nat) (delay : Z) s :
  let r := retryOperation env (observed f) maxRetries delay s in
  let k := (invocations (trace (fst r)) - invocations (trace s))%nat in
  (k <= maxRetries)%nat /\
  sleeps (trace (fst r)) = (sleeps (trace s) + (k - 1))%nat /\
  (maxRetries = 0%nat -> r = (s, inl JsNull)).
Proof.
  cbv zeta. unfold retryOperation.
  destruct (retry_loop_bounds f maxRetries maxRetries 1 delay JsNull s)
    as (_ & H2 & _ & H3); [lia|lia|].
  cbv zeta in H2, H3. split; [lia|]. split; [exact H3|].
  intros ->. reflexivity.
Qed.

End RetryInGeneral.

Lemma retryOperation_exhausts_any_witness :
  let f := fun w : Sim.sim =>
             (w, @inl thrown nat (JsObject ("attempt at " +:+ pretty (Sim.clock w)))) in
  let s := Sim.init_state (Examples.one_file "/tmp/a.png" Examples.png_bytes []) in
  let r := retryOperation Sim.env (observed f) 5 1000 s in
  invocations (trace (fst r)) = 5%nat /\
  sleeps (trace (fst r)) = 4%nat /\
  total_wait (trace (fst r)) = 15000.
Proof.
  intros f s r.
  destruct (retryOperation_exhausts_any Sim.env f 5 1000 s) as (_ & Hi & Hs & Hw).
  - intros w. eexists _, _. reflexivity.
  - lia.
  - fold r in Hi, Hs, Hw. rewrite Hi, Hs, Hw. repeat split.
Defined.

(** ** Bounds on what one run of the pipeline does *)

(** The cost of a list of events under a measure. *)
Definition cost (mu : event -> Z) (evs : list event) : Z :=
  fold_right (fun e acc => mu e + acc) 0 evs.

Lemma cost_app mu evs1 evs2 : cost mu (evs1 ++ evs2) = cost mu evs1 + cost mu evs2.
Proof.
  unfold cost. induction evs1 as [|e evs1 IH]; simpl; [reflexivity|].
  rewrite IH. lia.
Qed.

Lemma cost_zero mu evs : Forall (fun e => mu e = 0) evs -> cost mu evs = 0.
Proof.
  induction 1 as [|e evs He _ IH]; [reflexivity|].
  change (cost mu (e :: evs)) with (mu e + cost mu evs). lia.
Qed.

Lemma total_wait_cost tr : total_wait tr = cost sleep_ms tr.
Proof. reflexivity. Qed.

Definition net_cost (e : event) : Z := if is_net e then 1 else 0.

Lemma net_cost_length evs : cost net_cost evs = Z.of_nat (List.length (net_calls evs)).
Proof.
  induction evs as [|e evs IH]; [reflexivity|].
  change (e :: evs) with ([e] ++ evs)%list.
  rewrite cost_app, IH. unfold net_calls. rewrite omap_app, length_app.
  unfold net_cost. destruct e; simpl; lia.
Qed.

Definition insert_cost (e : event) : Z :=
  match e with EvNet (NetInsert _) => 1 | _ => 0 end.

Definition upload_cost (e : event) : Z :=
  match e with EvNet (NetUpload _ _ _ _ _) => 1 | _ => 0 end.

Section Spending.
Context {W : Type} (mu : event -> Z).
Implicit Types s : state W.

(** Every run of [m] adds events of total cost at most [n]. *)
Definition spends (n : Z) {A} (m : M W A) : Prop :=
  0 <= n /\
  forall s s' r, m s = (s', r) ->
    exists evs, trace s' = (trace s ++ evs)%list /\ cost mu evs <= n.

Lemma spends_weaken n n' {A} (m : M W A) : spends n m -> n <= n' -> spends n' m.
Proof.
  intros [Hn H] Hle. split; [lia|]. intros s s' r E.
  destruct (H _ _ _ E) as (evs & Ht & Hc). exists evs. split; [exact Ht|lia].
Qed.

Lemma spends_of_traces {A} (m : M W A) :
  traces (fun e => mu e = 0) m -> spends 0 m.
Proof.
  intros H. split; [lia|]. intros s s' r E.
  destruct (H _ _ _ E) as (evs & Ht & Hall). exists evs. split; [exact Ht|].
  rewrite (cost_zero mu evs Hall). lia.
Qed.

Lemma spends_ret {A} (a : A) : spends 0 (@ret W A a).
Proof. apply spends_of_traces, traces_ret. Qed.

Lemma spends_throw {A} e : spends 0 (@throw W A e).
Proof. apply spends_of_traces, traces_throw. Qed.

Lemma spends_peek {A} (f : W -> W * A) : spends 0 (peek f).
Proof. apply spends_of_traces, traces_peek. Qed.

Lemma spends_get_recordId : spends 0 (@get_recordId W).
Proof. apply spends_of_traces, traces_get_recordId. Qed.

Lemma spends_set_recordId v : spends 0 (@set_recordId W v).
Proof. apply spends_of_traces, traces_set_recordId. Qed.

Lemma spends_log level msg : 0 <= mu (EvLog level msg) ->
  spends (mu (EvLog level msg)) (@log W level msg).
Proof.
  intros Hn. split; [exact Hn|]. intros s s' r [= <- <-].
  exists [EvLog level msg]. split; [reflexivity|]. simpl. lia.
Qed.

Lemma spends_perform n {A} ev (f : W -> W * (thrown + A)) :
  mu ev = n -> 0 <= n -> spends n (perform ev f).
Proof.
  intros <- Hn. split; [exact Hn|]. intros s s' r. unfold perform.
  destruct (f (world s)) as [w' r']. intros [= <- <-].
  exists [ev]. split; [reflexivity|]. simpl. lia.
Qed.

Lemma spends_bind n1 n2 {A B} (m : M W A) (k : A -> M W B) :
  spends n1 m -> (forall a, spends n2 (k a)) -> 0 <= n2 -> spends (n1 + n2) (bind m k).
Proof.
  intros [Hn1 Hm] Hk Hn2. split; [lia|]. intros s s' r. unfold bind.
  destruct (m s) as [s1 [e|a]] eqn:E; intros H.
  - injection H as <- <-. destruct (Hm _ _ _ E) as (evs & Ht & Hc).
    exists evs. split; [exact Ht|lia].
  - destruct (Hm _ _ _ E) as (ev1 & T1 & C1).
    destruct (Hk a) as [_ Hka]. destruct (Hka _ _ _ H) as (ev2 & T2 & C2).
    exists (ev1 ++ ev2)%list. rewrite T2, T1, app_assoc, cost_app.
    split; [reflexivity|lia].
Qed.

Lemma spends_try_catch n1 n2 {A} (m : M W A) h :
  spends n1 m -> (forall e, spends n2 (h e)) -> 0 <= n2 ->
  spends (n1 + n2) (try_catch m h).
Proof.
  intros [Hn1 Hm] Hh Hn2. split; [lia|]. intros s s' r. unfold try_catch.
  destruct (m s) as [s1 [e|a]] eqn:E; intros H.
  - destruct (Hm _ _ _ E) as (ev1 & T1 & C1).
    destruct (Hh e) as [_ Hhe]. destruct (Hhe _ _ _ H) as (ev2 & T2 & C2).
    exists (ev1 ++ ev2)%list. rewrite T2, T1, app_assoc, cost_app.
    split; [reflexivity|lia].
  - injection H as <- <-. destruct (Hm _ _ _ E) as (evs & Ht & Hc).
    exists evs. split; [exact Ht|lia].
Qed.

Lemma spends_if n1 n2 (b : bool) {A} (m1 m2 : M W A) :
  spends n1 m1 -> spends n2 m2 -> spends (Z.max n1 n2) (if b then m1 else m2).
Proof.
  intros H1 H2. destruct b; [apply (spends_weaken n1)|apply (spends_weaken n2)];
    auto; lia.
Qed.

Lemma spends_response n1 n2 {T A} (r : response T) (k1 : T -> M W A) (k2 : thrown -> M W A) :
  (forall d, spends n1 (k1 d)) -> (forall e, spends n2 (k2 e)) ->
  spends (Z.max n1 n2)
    (match r with RespData d => k1 d | RespError e => k2 e end).
Proof.
  intros H1 H2. destruct r; [apply (spends_weaken n1)|apply (spends_weaken n2)];
    auto; lia.
Qed.

End Spending.

Ltac spend_step :=
  match goal with
  | |- spends _ _ (bind _ _) => eapply spends_bind; [ | intros | ]
  | |- spends _ _ (try_catch _ _) => eapply spends_try_catch; [ | intros | ]
  | |- spends _ _ (if _ then _ else _) => eapply spends_if
  | |- spends _ _ (match _ with RespData _ => _ | RespError _ => _ end) =>
      eapply spends_response; intros
  | |- spends _ _ (ret _) => apply spends_ret
  | |- spends _ _ (throw _) => apply spends_throw
  | |- spends _ _ (peek _) => apply spends_peek
  | |- spends _ _ get_recordId => apply spends_get_recordId
  | |- spends _ _ (set_recordId _) => apply spends_set_recordId
  | |- spends _ _ (log _ _) => eapply spends_log
  | |- spends ?mu _ (perform ?ev _) =>
      let c := eval lazy in (mu ev) in
      apply (spends_perform mu c); [reflexivity|lia]
  end.

Section SpendingRetry.
Context {W : Type} (env : Env W) (mu : event -> Z).

Lemma spends_retry3 n {T} (op : M W T) :
  spends mu n op ->
  0 <= mu (EvLog LogWarn retry_warning) ->
  0 <= mu (EvSleep 1000) -> 0 <= mu (EvSleep 2000) ->
  spends mu (3 * n + 2 * mu (EvLog LogWarn retry_warning)
             + mu (EvSleep 1000) + mu (EvSleep 2000))
    (retryOperation env op 3 1000).
Proof.
  intros Hop Hw H1 H2. pose proof (proj1 Hop) as Hn.
  unfold retryOperation. cbn [retry_loop Nat.leb Nat.eqb]. unfold sleep.
  change (1000 * 2) with 2000.
  eapply spends_weaken.
  - repeat first [ exact Hop | spend_step
                 | match goal with
                   | |- spends _ _ (perform (EvSleep ?d) _) =>
                       apply (spends_perform mu (mu (EvSleep d))); [reflexivity|lia]
                   end ];
      fold retry_warning; lia.
  - fold retry_warning. lia.
Qed.

End SpendingRetry.

Ltac spend_pipeline :=
  unfold uploadGeneratedImage, upload_try, upload_catch, insert_operation,
    upload_operation, complete_operation, fail_operation, throw_on_error, now,
    fs_readFile;
  eapply spends_weaken;
  [ repeat (intros; cbv zeta;
            first
              [ spend_step
              | match goal with
                | |- spends _ _ (validateImage _ _) =>
                    apply spends_of_traces, validateImage_traces; reflexivity
                | |- spends _ _ (retryOperation _ _ 3 1000) => eapply spends_retry3
                end ]);
    cbv [net_cost insert_cost upload_cost sleep_ms is_net]; lia
  | cbv [net_cost insert_cost upload_cost sleep_ms is_net]; lia ].

Section PipelineBounds.
Context {W : Type} (env : Env W).
Implicit Types s : state W.

Lemma upload_spends_net filepath prompt :
  spends net_cost 12 (uploadGeneratedImage env filepath prompt).
Proof. spend_pipeline. Qed.

Lemma upload_spends_inserts filepath prompt :
  spends insert_cost 3 (uploadGeneratedImage env filepath prompt).
Proof. spend_pipeline. Qed.

Lemma upload_spends_uploads filepath prompt :
  spends upload_cost 3 (uploadGeneratedImage env filepath prompt).
Proof. spend_pipeline. Qed.

Lemma upload_spends_wait filepath prompt :
  spends sleep_ms 12000 (uploadGeneratedImage env filepath prompt).
Proof. spend_pipeline. Qed.

End PipelineBounds.

Section PipelineInvariants.
Context {W : Type} (env : Env W).
Implicit Types s : state W.

Lemma retryOperation3_traces (Q : event -> Prop) {T} (op : M W T) :
  traces Q op -> (forall level msg, Q (EvLog level msg)) ->
  Q (EvSleep 1000) -> Q (EvSleep 2000) ->
  traces Q (retryOperation env op 3 1000).
Proof.
  intros Hop Hlog H1 H2. unfold retryOperation.
  cbn [retry_loop Nat.leb Nat.eqb]. unfold sleep. change (1000 * 2) with 2000.
  walk.
Qed.

(** The waits of the pipeline are the first two steps of the backoff. *)
Definition backoff_wait (e : event) : Prop :=
  match e with EvSleep ms => ms = 1000 \/ ms = 2000 | _ => True end.

Lemma uploadGeneratedImage_waits filepath prompt :
  traces backoff_wait (uploadGeneratedImage env filepath prompt).
Proof.
  unfold uploadGeneratedImage, upload_try, upload_catch, insert_operation,
    upload_operation, complete_operation, fail_operation, throw_on_error, now,
    fs_readFile.
  repeat (intros; cbv zeta;
          match goal with
          | |- traces _ (if ?b then _ else _) => destruct b
          | |- traces _ (match ?x with _ => _ end) => destruct x
          | |- traces _ (bind _ _) => apply traces_bind
          | |- traces _ (try_catch _ _) => apply traces_try_catch
          | |- traces _ (retryOperation _ _ 3 1000) => apply retryOperation3_traces
          | |- traces _ (validateImage _ _) => apply validateImage_traces
          | |- traces _ (perform _ _) => apply traces_perform
          | |- traces _ (log _ _) => apply traces_log
          end);
    eauto with prog; simpl; auto.
Qed.

(** One run of [uploadGeneratedImage], whatever the environment does, makes
    at most twelve client calls, of which at most three inserts and at most
    three uploads; it waits at most 12 seconds between attempts, and each
    wait is 1000 ms or 2000 ms. *)
Theorem uploadGeneratedImage_bounds (filepath prompt : string) s :
  exists evs,
    trace (fst (uploadGeneratedImage env filepath prompt s)) = (trace s ++ evs)%list /\
    (List.length (net_calls evs) <= 12)%nat /\
    cost insert_cost evs <= 3 /\
    cost upload_cost evs <= 3 /\
    total_wait evs <= 12000 /\
    (forall ms, In (EvSleep ms) evs -> ms = 1000 \/ ms = 2000).
Proof.
  destruct (uploadGeneratedImage env filepath prompt s) as [s' r] eqn:E.
  cbn [fst].
  destruct (proj2 (upload_spends_net env filepath prompt) _ _ _ E) as (evs & Ht & Hn).
  destruct (proj2 (upload_spends_inserts env filepath prompt) _ _ _ E) as (ev1 & Ht1 & Hi).
  destruct (proj2 (upload_spends_uploads env filepath prompt) _ _ _ E) as (ev2 & Ht2 & Hu).
  destruct (proj2 (upload_spends_wait env filepath prompt) _ _ _ E) as (ev3 & Ht3 & Hw).
  destruct (uploadGeneratedImage_waits filepath prompt _ _ _ E) as (ev4 & Ht4 & Hb).
  rewrite Ht in Ht1, Ht2, Ht3, Ht4.
  apply app_inv_head in Ht1, Ht2, Ht3, Ht4. subst ev1 ev2 ev3 ev4.
  exists evs. split; [exact Ht|]. rewrite net_cost_length in Hn.
  split; [lia|]. split; [exact Hi|]. split; [exact Hu|]. split; [exact Hw|].
  intros ms Hin. rewrite Forall_forall in Hb.
  apply (Hb (EvSleep ms)). apply list_elem_of_In. exact Hin.
Qed.

End PipelineInvariants.

(** ** Retries inside a successful run *)

Module SimRetries.
Import Sim SimFacts.
Implicit Types (w : sim) (s : state sim).

Section CallsWith.
Context {A : Type} (op : M sim (response A)) (done : sim -> option string -> sim * A).
Variable holds : sim -> option string -> Prop.
Hypothesis holds_stable : forall w v t sch,
  holds w v -> holds (set_schedule sch (set_clock t w)) v.
Hypothesis op_fails : forall s e rest,
  schedule (world s) = Fails e :: rest ->
  exists ev, op s = (with_world (set_schedule rest (ticked (world s))) (emit ev s), inl e).
Hypothesis op_succeeds : forall s,
  holds (world s) (var_recordId s) ->
  next_succeeds (schedule (world s)) ->
  exists ev,
    op s = (with_world (fst (done (world s) (var_recordId s))) (emit ev s),
            inr (RespData (snd (done (world s) (var_recordId s))))).

Lemma call_attempts_with errs :
  forall delay s rest,
    holds (world s) (var_recordId s) ->
    schedule (world s) = (map Fails errs ++ rest)%list ->
    next_succeeds rest ->
    exists s' T,
      attempts env op (List.length errs) delay s s'
        (RespData (snd (done (set_schedule rest (set_clock T (world s)))
                          (var_recordId s)))) /\
      world s' = fst (done (set_schedule rest (set_clock T (world s)))
                        (var_recordId s)) /\
      var_recordId s' = var_recordId s.
Proof.
  induction errs as [|e errs IH]; intros delay s rest Hh Hs Hn.
  - cbn [map app] in Hs.
    assert (Hw : set_schedule rest (set_clock (clock (world s)) (world s)) = world s)
      by (destruct (world s); cbn in *; subst; reflexivity).
    destruct (op_succeeds s Hh) as (ev & E); [rewrite Hs; exact Hn|].
    eexists _, (clock (world s)). rewrite Hw.
    split; [apply attempts_return; exact E|]. split; reflexivity.
  - cbn [map app] in Hs.
    destruct (op_fails s e _ Hs) as (ev & E).
    destruct (IH (delay * 2)
                (pause env delay
                   (with_world (set_schedule (map Fails errs ++ rest) (ticked (world s)))
                      (emit ev s))) rest)
      as (s' & T & Ha & Hw & Hv).
    + exact (holds_stable (world s) (var_recordId s)
               (clock (world s) + latency (world s) + delay)
               (map Fails errs ++ rest)%list Hh).
    + reflexivity.
    + exact Hn.
    + exists s', T. split; [|split].
      * eapply attempts_throw; [exact E|exact Ha].
      * exact Hw.
      * exact Hv.
Qed.

End CallsWith.

Definition upload_done (key : string) (body : list byte) w (v : option string)
  : sim * string :=
  (set_blobs (<[key := (body, "image/png")]> (blobs w)) (served w), key).

Lemma upload_within_budget key body errs s rest :
  schedule (world s) = (map Fails errs ++ rest)%list ->
  next_succeeds rest -> (List.length errs < 3)%nat ->
  exists s' T,
    retryOperation env (upload_operation env key body) 3 1000 s
    = (s', inr (RespData key)) /\
    world s' = fst (upload_done key body
                      (set_schedule rest (set_clock T (world s))) (var_recordId s)) /\
    var_recordId s' = var_recordId s.
Proof.
  intros Hs Hn Hl.
  destruct (call_attempts_with (upload_operation env key body) (upload_done key body)
              (fun _ _ => True))
    with (errs := errs) (delay := 1000) (s := s) (rest := rest)
    as (s' & T & Ha & Hw & Hv); try assumption; auto.
  - intros s0 e rest0 H. eexists. apply upload_attempt_fails. exact H.
  - intros s0 _ H. eexists. apply (upload_attempt_succeeds key body s0 H).
  - exists s', T. split; [|split; assumption].
    eapply retryOperation_attempts; [exact Ha|exact Hl].
Qed.

(** The record [r0] is the last row of the table, the only one with the id
    in [recordId]. *)
Definition has_record (older : list GeneratedImageRecord) (r0 : GeneratedImageRecord)
    w (v : option string) : Prop :=
  v = Some (id r0) /\ rows w = (older ++ [r0])%list /\
  forall x, In x older -> id x <> id r0.

Definition complete_done (url : string) (recordData : GeneratedImageRecord) (t0 : Z)
    (older : list GeneratedImageRecord) (r0 : GeneratedImageRecord)
    w (v : option string) : sim * GeneratedImageRecord :=
  let p := completed_patch env url recordData (clock w) (clock w) t0 in
  (set_rows (older ++ [apply_patch p r0]) (next_id w) (served w), apply_patch p r0).

Lemma complete_within_budget url recordData t0 older r0 errs s rest :
  has_record older r0 (world s) (var_recordId s) ->
  schedule (world s) = (map Fails errs ++ rest)%list ->
  next_succeeds rest -> (List.length errs < 3)%nat ->
  exists s' T,
    let wT := set_schedule rest (set_clock T (world s)) in
    retryOperation env (complete_operation env url recordData t0) 3 1000 s
    = (s', inr (RespData (snd (complete_done url recordData t0 older r0 wT
                                 (var_recordId s))))) /\
    world s' = fst (complete_done url recordData t0 older r0 wT (var_recordId s)) /\
    var_recordId s' = var_recordId s.
Proof.
  intros Hh Hs Hn Hl.
  destruct (call_attempts_with (complete_operation env url recordData t0)
              (complete_done url recordData t0 older r0) (has_record older r0))
    with (errs := errs) (delay := 1000) (s := s) (rest := rest)
    as (s' & T & Ha & Hw & Hv); try assumption.
  - intros w v t sch (Hv & Hr & Hf). repeat split; assumption.
  - intros s0 e rest0 H. eexists.
    unfold complete_operation, bind. rewrite !now_sim. cbv zeta.
    unfold get_recordId, perform. cbn [env db_update_select].
    rewrite (scheduled_fails _ _ _ _ H). reflexivity.
  - intros s0 (Hv0 & Hr0 & Hf0) H. eexists.
    rewrite (complete_attempt_succeeds url recordData t0 s0 (id r0)
               (apply_patch
                  (completed_patch env url recordData (clock (world s0))
                     (clock (world s0)) t0) r0) H Hv0).
    + unfold complete_done. cbn [fst snd]. rewrite Hr0.
      rewrite update_rows_last by (assumption || reflexivity). reflexivity.
    + cbv zeta. rewrite Hr0.
      rewrite update_rows_last by (assumption || reflexivity).
      apply filter_matches_last; [assumption|reflexivity].
  - exists s', T. cbv zeta. split; [|split; assumption].
    eapply retryOperation_attempts; [exact Ha|exact Hl].
Qed.


(** The successful run in which each of the three operations may need
    retries. *)
Lemma success_with_retries w fp prompt content errs_c errs_u errs_f rest :
  passes_checks env fp w ->
  files w !! fp = Some content ->
  (forall x, In x (rows w) -> id x <> id_of (next_id w)) ->
  schedule w
  = (map Fails errs_c ++ Succeeds :: map Fails errs_u ++ Succeeds
       :: map Fails errs_f ++ rest)%list ->
  (List.length errs_c < 3)%nat -> (List.length errs_u < 3)%nat ->
  (List.length errs_f < 3)%nat ->
  next_succeeds rest ->
  let run := uploadGeneratedImage env fp prompt (init_state w) in
  exists t_insert t_done wS,
    next_id wS = next_id w /\
    let r0 := inserted (uploading_row fp prompt t_insert) wS in
    let key := storage_key r0 fp in
    let updated :=
      apply_patch
        (completed_patch env (getPublicUrl env BUCKET key) r0 t_done t_done (clock w))
        r0 in
    snd run = inr (Some updated) /\
    rows (world (fst run)) = (rows w ++ [updated])%list /\
    blobs (world (fst run)) = <[key := (content, "image/png")]> (blobs w).
Proof.
  intros Hp Hf Hfresh Hs Hlc Hlu Hlf Hn run.
  destruct (validate_init fp w Hp) as (evs & Hloc & E1).
  destruct (insert_within_budget fp prompt errs_c
              {| world := w; trace := evs; var_recordId := None |}
              (Succeeds :: map Fails errs_u ++ Succeeds :: map Fails errs_f ++ rest)
              Hs) as (s2 & T & E2 & Hw2 & Hv2); [discriminate|exact Hlc|].
  cbv zeta in E2, Hw2. cbn [world var_recordId] in E2, Hw2, Hv2.
  unfold insert_done in E2, Hw2. cbn [fst snd] in E2, Hw2.
  match type of E2 with
  | _ = (_, inr (RespData ?r)) => set (rd := r) in *
  end.
  assert (E3 : fs_readFile env fp (with_record rd s2)
               = (with_world (world s2)
                    (emit (EvFs (FsReadFile fp)) (with_record rd s2)),
                  inr content)).
  { unfold fs_readFile, perform, with_record.
    cbn [env readFile world emit with_world]. unfold sim_readFile.
    rewrite Hw2. cbn [files set_rows served set_schedule ticked set_clock].
    rewrite Hf. reflexivity. }
  destruct (upload_within_budget (storage_key rd fp) content errs_u
              (emit (EvLog LogInfo "Attempting storage upload:")
                 (with_world (world s2)
                    (emit (EvFs (FsReadFile fp)) (with_record rd s2))))
              (Succeeds :: map Fails errs_f ++ rest))
    as (s4 & T4 & E4 & Hw4 & Hv4);
    [cbn [world emit with_world]; rewrite Hw2; reflexivity|discriminate|exact Hlu|].
  cbn [world var_recordId emit with_world with_record] in Hw4, Hv4.
  rewrite Hw2 in Hw4. unfold upload_done in Hw4.
  cbn [fst blobs set_rows set_schedule set_clock served ticked] in Hw4.
  destruct (complete_within_budget
              (getPublicUrl env BUCKET (storage_key rd fp)) rd
              (fst (enter env (init_state w))) (rows w) rd errs_f
              (emit (EvLog LogInfo "Storage upload successful:") s4) rest)
    as (s5 & T5 & E5 & Hw5 & Hv5).
  { cbn [world var_recordId emit]. rewrite Hv4, Hw4.
    split; [reflexivity|]. split; [reflexivity|]. exact Hfresh. }
  { cbn [world emit]. rewrite Hw4. reflexivity. }
  { exact Hn. }
  { exact Hlf. }
  cbv zeta in E5, Hw5. cbn [world var_recordId emit] in E5, Hw5.
  unfold complete_done in E5, Hw5. cbn [fst snd] in E5, Hw5.
  pose proof (uploadGeneratedImage_success_run env fp prompt (init_state w)
                _ _ _ _ _ _ _ _ _ E1 E2 E3 E4 E5) as Hrun.
  fold run in Hrun.
  eexists _, _, _. split; [|cbv zeta; rewrite Hrun; cbn [fst snd world emit with_world env date_now];
    rewrite Hw5, Hw4;
    cbn [rows blobs clock set_rows set_blobs set_schedule set_clock served ticked];
    split; [reflexivity|split; reflexivity]].
  reflexivity.
Qed.

End SimRetries.

(** Each retried operation has its own three attempts: the run succeeds
    although the insert, the upload and the final update may each fail
    twice before they are served, six failed calls in all; the record
    returned is completed and is the one the table holds. *)
Theorem each_operation_has_its_own_attempts w fp prompt content
    errs_c errs_u errs_f rest :
  passes_checks Sim.env fp w ->
  Sim.files w !! fp = Some content ->
  (forall x, In x (Sim.rows w) -> id x <> Sim.id_of (Sim.next_id w)) ->
  Sim.schedule w
  = (map Sim.Fails errs_c ++ Sim.Succeeds :: map Sim.Fails errs_u ++ Sim.Succeeds
       :: map Sim.Fails errs_f ++ rest)%list ->
  (List.length errs_c < 3)%nat -> (List.length errs_u < 3)%nat ->
  (List.length errs_f < 3)%nat ->
  SimFacts.next_succeeds rest ->
  let run := uploadGeneratedImage Sim.env fp prompt (Sim.init_state w) in
  exists updated key,
    snd run = inr (Some updated) /\
    Sim.rows (world (fst run)) = (Sim.rows w ++ [updated])%list /\
    id updated = Sim.id_of (Sim.next_id w) /\
    status updated = "completed" /\
    error_message updated = None /\
    storage_path updated = getPublicUrl Sim.env BUCKET key /\
    Sim.blobs (world (fst run)) !! key = Some (content, "image/png").
Proof.
  intros Hp Hf Hfresh Hs Hlc Hlu Hlf Hn run.
  destruct (SimRetries.success_with_retries w fp prompt content errs_c errs_u errs_f
              rest Hp Hf Hfresh Hs Hlc Hlu Hlf Hn)
    as (t_insert & t_done & wS & Hid & Hr & Hrows & Hb).
  eexists _, _. split; [exact Hr|]. split; [exact Hrows|].
  fold run in Hb. rewrite Hb, lookup_insert_eq.
  cbn [Sim.apply_patch SimFacts.inserted completed_patch id status error_message
         storage_path upd_status upd_error_message upd_storage_path default].
  rewrite Hid. repeat split; reflexivity.
Qed.

Lemma each_operation_has_its_own_attempts_witness :
  let sch := [Sim.Fails Runs.timeout_error; Sim.Fails Runs.timeout_error; Sim.Succeeds;
              Sim.Fails Runs.storage_error; Sim.Fails Runs.timeout_error; Sim.Succeeds;
              Sim.Fails Runs.timeout_error; Sim.Fails Runs.timeout_error] in
  let w := Examples.one_file Runs.sunset Examples.png_2k sch in
  let run := uploadGeneratedImage Sim.env Runs.sunset "a sunset" (Sim.init_state w) in
  exists updated,
    snd run = inr (Some updated) /\
    Sim.rows (world (fst run)) = [updated] /\
    status updated = "completed".
Proof.
  intros sch w run.
  destruct (each_operation_has_its_own_attempts w Runs.sunset "a sunset"
              Examples.png_2k
              [Runs.timeout_error; Runs.timeout_error]
              [Runs.storage_error; Runs.timeout_error]
              [Runs.timeout_error; Runs.timeout_error] [])
    as (updated & key & Hr & Hrows & _ & Hst & _).
  - apply Runs.sunset_passes.
  - reflexivity.
  - intros x [].
  - reflexivity.
  - simpl; lia.
  - simpl; lia.
  - simpl; lia.
  - intros e rest; discriminate.
  - exists updated. fold run in Hr, Hrows. repeat split; assumption.
Defined.

(** On the successful path the metadata accumulates: the completed record
    keeps [uploadStarted], [originalFilename] and [attempts] from its
    creation and gains [uploadCompleted] and [processingTime], the time
    elapsed since the start of the run.  [attempts] is 1 however many
    attempts the operations needed. *)
Theorem completed_record_metadata w fp prompt content
    errs_c errs_u errs_f rest :
  passes_checks Sim.env fp w ->
  Sim.files w !! fp = Some content ->
  (forall x, In x (Sim.rows w) -> id x <> Sim.id_of (Sim.next_id w)) ->
  Sim.schedule w
  = (map Sim.Fails errs_c ++ Sim.Succeeds :: map Sim.Fails errs_u ++ Sim.Succeeds
       :: map Sim.Fails errs_f ++ rest)%list ->
  (List.length errs_c < 3)%nat -> (List.length errs_u < 3)%nat ->
  (List.length errs_f < 3)%nat ->
  SimFacts.next_succeeds rest ->
  let run := uploadGeneratedImage Sim.env fp prompt (Sim.init_state w) in
  exists updated m t_insert t_done,
    snd run = inr (Some updated) /\
    metadata updated = Some m /\
    m !! "uploadStarted" = Some (JStr (Sim.iso t_insert)) /\
    m !! "originalFilename" = Some (jstr_opt (Js.pop (Js.split "/" fp))) /\
    m !! "attempts" = Some (JNum 1) /\
    m !! "uploadCompleted" = Some (JStr (Sim.iso t_done)) /\
    m !! "processingTime" = Some (JNum (t_done - Sim.clock w)) /\
    dom m = ({["uploadStarted"; "originalFilename"; "attempts"; "uploadCompleted";
               "processingTime"]} : gset string).
Proof.
  intros Hp Hf Hfresh Hs Hlc Hlu Hlf Hn run.
  destruct (SimRetries.success_with_retries w fp prompt content errs_c errs_u errs_f
              rest Hp Hf Hfresh Hs Hlc Hlu Hlf Hn)
    as (t_insert & t_done & wS & Hid & Hr & Hrows & Hb).
  eexists _, _, t_insert, t_done. split; [exact Hr|].
  cbn [Sim.apply_patch SimFacts.inserted completed_patch metadata upd_metadata
         spread default SimFacts.uploading_row ins_metadata Sim.env toISOString].
  split; [reflexivity|].
  split; [reflexivity|]. split; [reflexivity|]. split; [reflexivity|].
  split; [reflexivity|]. split; [reflexivity|].
  unfold Datatypes.id. rewrite !dom_insert_L, dom_empty_L. set_solver.
Qed.

Lemma completed_record_metadata_witness :
  let sch := [Sim.Fails Runs.timeout_error; Sim.Succeeds; Sim.Succeeds; Sim.Succeeds] in
  let w := Examples.one_file Runs.sunset Examples.png_2k sch in
  let run := uploadGeneratedImage Sim.env Runs.sunset "a sunset" (Sim.init_state w) in
  exists updated m,
    snd run = inr (Some updated) /\
    metadata updated = Some m /\
    m !! "originalFilename" = Some (JStr "sunset.png") /\
    m !! "attempts" = Some (JNum 1).
Proof.
  intros sch w run.
  destruct (completed_record_metadata w Runs.sunset "a sunset" Examples.png_2k
              [Runs.timeout_error] [] [] [Sim.Succeeds])
    as (updated & m & t1 & t2 & Hr & Hm & _ & Hn & Ha & _).
  - apply Runs.sunset_passes.
  - reflexivity.
  - intros x [].
  - reflexivity.
  - simpl; lia.
  - simpl; lia.
  - simpl; lia.
  - intros e rest; discriminate.
  - exists updated, m. fold run in Hr. repeat split; assumption.
Defined.

(** * The query operations

    [getLatestGeneratedImage], [getGeneratedImageById] and
    [verifyImageAccess] of the same file.  Their collaborators are the
    selects of the client and [fetch]; each call to them leaves an invocation
    in the trace. *)

(** A chain [.select('*').eq(column, value)...order(column, { ascending
    })...limit(n)] as the data it carries. *)
Record select_query := {
  sel_eq : list (string * string);
  sel_order : option (string * bool);
  sel_limit : option nat
}.

(** What the program reads of the response of [fetch]: [response.ok],
    [response.status] and [response.headers.get('content-type')], which is
    [null] when the header is absent. *)
Record fetch_response := {
  resp_ok : bool;
  resp_status : Z;
  resp_content_type : option string
}.

(** [db_select_single] is a select that ends in [.single()]; its [data] is
    one row or [null].  [fetch] takes the URL and the method. *)
Record QueryEnv (W : Type) := {
  db_select_single :
    select_query -> W -> W * (thrown + response (option GeneratedImageRecord));
  fetch : string -> string -> W -> W * (thrown + fetch_response)
}.
Arguments db_select_single {W} _ _ _.
Arguments fetch {W} _ _ _ _.

Section Queries.
Context {W : Type} (env : Env W) (qenv : QueryEnv W).
Local Open Scope prog_scope.

(** [data] of a destructured [{ data, error }]. *)
Definition data_of {T} (answer : response (option T)) : option T :=
  match answer with
  | RespData data => data
  | RespError _ => None
  end.

Definition latest_completed_query : select_query :=
  {| sel_eq := [("status", "completed")];
     sel_order := Some ("created_at", false);
     sel_limit := Some 1%nat |}.

Definition by_id_query (id : string) : select_query :=
  {| sel_eq := [("id", id)]; sel_order := None; sel_limit := None |}.

(** The closure handed to [retryOperation] by both queries. *)
Definition select_operation (q : select_query)
  : M W (response (option GeneratedImageRecord)) :=
  do result <- observed (db_select_single qenv q);
  throw_on_error result.

Definition getLatestGeneratedImage : M W (option GeneratedImageRecord) :=
  do startTime <- now env;
  try_catch
    (log LogInfo "Fetching latest generated image" >>
     do answer <- retryOperation env (select_operation latest_completed_query) 3 1000;
     let data := data_of answer in
     do t_end <- now env;
     let processingTime := t_end - startTime in
     match data with
     | Some record => log LogInfo "Retrieved latest image:" >> ret (Some record)
     | None => log LogWarn "No completed images found in database" >> ret None
     end)
    (fun error =>
       do t_end <- now env;
       let processingTime := t_end - startTime in
       log LogError "Error fetching latest image:" >> ret None).

Definition getGeneratedImageById (id : string) : M W (option GeneratedImageRecord) :=
  do startTime <- now env;
  try_catch
    (log LogInfo "Fetching image by ID:" >>
     do answer <- retryOperation env (select_operation (by_id_query id)) 3 1000;
     let data := data_of answer in
     do t_end <- now env;
     let processingTime := t_end - startTime in
     match data with
     | Some record => log LogInfo "Retrieved image by ID:" >> ret (Some record)
     | None => log LogWarn "No image found with ID:" >> ret None
     end)
    (fun error =>
       do t_end <- now env;
       let processingTime := t_end - startTime in
       log LogError "Error fetching image by ID:" >> ret None).

(** The value of [response.ok && contentType?.startsWith('image/')]:
    [false] when the response is not ok, and [undefined], here [None], when
    it is ok and carries no content type. *)
Definition isAccessible (response : fetch_response) : option bool :=
  if resp_ok response then
    option_map (fun contentType => Js.startsWith contentType "image/")
               (resp_content_type response)
  else Some false.

Definition verifyImageAccess (record : GeneratedImageRecord) : M W (option bool) :=
  try_catch
    (log LogInfo "Verifying image access:" >>
     do response <- observed (fetch qenv (storage_path record) "HEAD");
     log LogInfo "Image access verification:" >>
     ret (isAccessible response))
    (fun error =>
       log LogError "Error verifying image access:" >> ret (Some false)).

End Queries.

(** ** What the queries do *)

Definition invoke_cost (e : event) : Z := if is_invoke e then 1 else 0.

Lemma invoke_cost_invocations evs : cost invoke_cost evs = Z.of_nat (invocations evs).
Proof.
  induction evs as [|e evs IH]; [reflexivity|].
  change (cost invoke_cost (e :: evs)) with (invoke_cost e + cost invoke_cost evs).
  rewrite IH. unfold invocations, invoke_cost. simpl.
  destruct (is_invoke e); simpl; lia.
Qed.

Lemma invocations_app tr evs :
  invocations (tr ++ evs) = (invocations tr + invocations evs)%nat.
Proof. unfold invocations. rewrite List.filter_app, length_app. reflexivity. Qed.

Lemma total_wait_app tr evs : total_wait (tr ++ evs) = total_wait tr + total_wait evs.
Proof. rewrite !total_wait_cost. apply cost_app. Qed.

(** Events that are neither client writes nor file-system calls. *)
Definition is_read_only (e : event) : Prop :=
  match e with EvNet _ | EvFs _ => False | _ => True end.

Lemma read_only_calls evs :
  Forall is_read_only evs -> net_calls evs = [] /\ fs_calls evs = [].
Proof.
  induction 1 as [|e evs He _ [IHn IHf]]; [split; reflexivity|].
  destruct e; try contradiction; split; assumption.
Qed.

Section RetryThrows.
Context {W : Type} (env : Env W) {T : Type}.
Implicit Types s : state W.

(** The loop depends on the operation only through its runs. *)
Lemma retry_loop_ext (op1 op2 : M W T) :
  (forall s, op1 s = op2 s) ->
  forall fuel maxRetries attempt delay lastError s,
    retry_loop env fuel op1 maxRetries attempt delay lastError s
    = retry_loop env fuel op2 maxRetries attempt delay lastError s.
Proof.
  intros Hop. induction fuel as [|fuel IH];
    intros maxRetries attempt delay lastError s; cbn [retry_loop]; [reflexivity|].
  destruct (attempt <=? maxRetries)%nat; [|reflexivity].
  unfold try_catch. rewrite Hop. destruct (op2 s) as [s1 [e|v]]; [|reflexivity].
  destruct (attempt =? maxRetries)%nat; [reflexivity|].
  unfold bind. destruct (log _ _ s1) as [s2 [?|?]]; [reflexivity|].
  destruct (sleep env delay s2) as [s3 [?|?]]; [reflexivity|]. apply IH.
Qed.

(** The loop throws only when every attempt it could make has thrown: all
    the invocations and all the waits have then taken place, and the error is
    the one of the invocation that left the final world. *)
Lemma retry_loop_thrown (f : W -> W * (thrown + T)) :
  forall fuel maxRetries attempt delay lastError s s' e,
    (attempt <= maxRetries)%nat -> (S maxRetries - attempt <= fuel)%nat ->
    retry_loop env fuel (observed f) maxRetries attempt delay lastError s = (s', inl e) ->
    invocations (trace s') = (invocations (trace s) + (S maxRetries - attempt))%nat /\
    total_wait (trace s')
    = total_wait (trace s) + backoff_sum delay (maxRetries - attempt) /\
    exists w, f w = (world s', inl e).
Proof.
  induction fuel as [|fuel IH];
    intros maxRetries attempt delay lastError s s' e Hle Hfuel; [lia|].
  destruct (f (world s)) as [w1 [e1|v]] eqn:E.
  - destruct (Nat.eq_dec attempt maxRetries) as [->|Hne].
    + destruct (Nat.eq_dec maxRetries 0%nat) as [->|Hpos].
      * cbn [retry_loop Nat.leb Nat.eqb]. unfold try_catch, observed, perform.
        rewrite E. intros [= <- <-]. cbn [trace world emit with_world].
        rewrite invocations_snoc, total_wait_snoc. simpl.
        unfold backoff_sum. simpl. repeat split; try lia. exists (world s). exact E.
      * rewrite (retry_loop_step_last env f _ _ _ _ _ w1 e1 E) by lia.
        intros [= <- <-]. cbn [trace world emit with_world].
        rewrite invocations_snoc, total_wait_snoc, Nat.sub_diag. simpl.
        unfold backoff_sum. simpl. repeat split; try lia. exists (world s). exact E.
    + rewrite (retry_loop_step_fail env f _ _ _ _ _ _ w1 e1 E) by lia. intros H.
      destruct (after_failure_measures env w1 delay s) as (_ & Ht & Hi).
      destruct (IH maxRetries (S attempt) (delay * 2) e1 _ _ _ ltac:(lia) ltac:(lia) H)
        as (Hinv & Hwait & Hw).
      rewrite Hinv, Hwait, Hi, Ht. split; [lia|]. split; [|exact Hw].
      replace (maxRetries - attempt)%nat with (S (maxRetries - S attempt)) by lia.
      rewrite backoff_sum_S. lia.
  - rewrite (retry_loop_step_ok env f _ _ _ _ _ _ w1 v E) by lia. discriminate.
Qed.

End RetryThrows.

Section QueryFacts.
Context {W : Type} (env : Env W) (qenv : QueryEnv W).
Implicit Types s : state W.
Local Open Scope prog_scope.

(** A client call whose error answers are thrown. *)
Definition raising {T} (f : W -> W * (thrown + response T))
  : W -> W * (thrown + response T) :=
  fun w => match f w with
           | (w', inr (RespError error)) => (w', inl error)
           | run => run
           end.

Lemma select_operation_raising q s :
  select_operation qenv q s = observed (raising (db_select_single qenv q)) s.
Proof.
  unfold select_operation, bind, observed, perform, raising.
  destruct (db_select_single qenv q (world s)) as [w' [e|[data|error]]]; reflexivity.
Qed.

(** The common shape of the two queries. *)
Definition query (q : select_query) (started found missing failed : string)
  : M W (option GeneratedImageRecord) :=
  do startTime <- now env;
  try_catch
    (log LogInfo started >>
     do answer <- retryOperation env (select_operation qenv q) 3 1000;
     do t_end <- now env;
     match data_of answer with
     | Some record => log LogInfo found >> ret (Some record)
     | None => log LogWarn missing >> ret None
     end)
    (fun error => do t_end <- now env; log LogError failed >> ret None).

Lemma getLatestGeneratedImage_query :
  getLatestGeneratedImage env qenv
  = query latest_completed_query "Fetching latest generated image"
      "Retrieved latest image:" "No completed images found in database"
      "Error fetching latest image:".
Proof. reflexivity. Qed.

Lemma getGeneratedImageById_query id :
  getGeneratedImageById env qenv id
  = query (by_id_query id) "Fetching image by ID:" "Retrieved image by ID:"
      "No image found with ID:" "Error fetching image by ID:".
Proof. reflexivity. Qed.

Lemma query_total q started found missing failed :
  total (query q started found missing failed).
Proof.
  unfold query, now. apply total_bind; [apply total_peek|]. intros t.
  apply total_try_catch. intros e. walk.
Qed.

Lemma select_operation_traces (Q : event -> Prop) q :
  Q EvInvoke -> traces Q (select_operation qenv q).
Proof.
  intros HQ. unfold select_operation, observed, throw_on_error.
  apply traces_bind; [apply traces_perform; exact HQ|]. intros [data|error]; auto with prog.
Qed.

Lemma query_traces (Q : event -> Prop) q started found missing failed :
  Q EvInvoke -> (forall level msg, Q (EvLog level msg)) -> (forall d, Q (EvSleep d)) ->
  traces Q (query q started found missing failed).
Proof.
  intros Hi Hl Hs. unfold query, now.
  repeat (intros; cbv zeta;
          match goal with
          | |- traces _ (match ?x with _ => _ end) => destruct x
          | |- traces _ (bind _ _) => apply traces_bind
          | |- traces _ (try_catch _ _) => apply traces_try_catch
          | |- traces _ (retryOperation _ _ _ _) => apply retryOperation_traces
          | |- traces _ (select_operation _ _) => apply select_operation_traces
          | |- traces _ (log _ _) => apply traces_log
          end); auto with prog.
Qed.

Lemma spends_option mu n1 n2 {T A} (o : option T) (k1 : T -> M W A) (k2 : M W A) :
  (forall d, spends mu n1 (k1 d)) -> spends mu n2 k2 ->
  spends mu (Z.max n1 n2) (match o with Some d => k1 d | None => k2 end).
Proof.
  intros H1 H2. destruct o; [apply (spends_weaken mu n1)|apply (spends_weaken mu n2)];
    auto; lia.
Qed.

End QueryFacts.

Ltac spend_query :=
  unfold query, select_operation, observed, throw_on_error, now;
  eapply spends_weaken;
  [ repeat (intros; cbv zeta;
            first
              [ spend_step
              | match goal with
                | |- spends _ _ (match data_of _ with Some _ => _ | None => _ end) =>
                    eapply spends_option
                | |- spends _ _ (retryOperation _ _ 3 1000) => eapply spends_retry3
                end ]);
    cbv [invoke_cost sleep_ms is_invoke]; lia
  | cbv [invoke_cost sleep_ms is_invoke]; lia ].

Section QueryBounds.
Context {W : Type} (env : Env W) (qenv : QueryEnv W).
Implicit Types s : state W.

Lemma query_spends_invocations q started found missing failed :
  spends invoke_cost 3 (query env qenv q started found missing failed).
Proof. spend_query. Qed.

Lemma query_spends_wait q started found missing failed :
  spends sleep_ms 3000 (query env qenv q started found missing failed).
Proof. spend_query. Qed.

End QueryBounds.

Section QueryRuns.
Context {W : Type} (env : Env W) (qenv : QueryEnv W).
Implicit Types s : state W.

Abbreviation run_of := (state W * (thrown + option GeneratedImageRecord))%type.

Lemma query_unfold q started found missing failed s :
  query env qenv q started found missing failed s
  = let (w0, t0) := date_now env (world s) in
    match retryOperation env (select_operation qenv q) 3 1000
            (emit (EvLog LogInfo started) (with_world w0 s))
    with
    | (s2, inl e) =>
        let (w3, t3) := date_now env (world s2) in
        (emit (EvLog LogError failed) (with_world w3 s2), inr None)
    | (s2, inr answer) =>
        let (w3, t3) := date_now env (world s2) in
        match data_of answer with
        | Some record => (emit (EvLog LogInfo found) (with_world w3 s2), inr (Some record))
        | None => (emit (EvLog LogWarn missing) (with_world w3 s2), inr None)
        end
    end.
Proof.
  unfold query, bind, now, peek, try_catch, log, ret.
  destruct (date_now env (world s)) as [w0 t0].
  destruct (retryOperation env _ 3 1000 _) as [s2 [e|answer]];
    destruct (date_now env (world s2)) as [w3 t3]; [reflexivity|].
  destruct (data_of answer); reflexivity.
Qed.

(** A run that returns after at most three selects and at most 3000 ms of
    waiting, and that has made no insert, upload or update and no
    file-system call. *)
Definition answers_read_only s (run : run_of) : Prop :=
  exists result evs,
    snd run = inr result /\
    trace (fst run) = (trace s ++ evs)%list /\
    net_calls evs = [] /\ fs_calls evs = [] /\
    (invocations evs <= 3)%nat /\ total_wait evs <= 3000.

Lemma query_answers_read_only q started found missing failed s :
  answers_read_only s (query env qenv q started found missing failed s).
Proof.
  destruct (query_total env qenv q started found missing failed s) as (s' & result & E).
  destruct (query_traces env qenv is_read_only q started found missing failed
              I (fun _ _ => I) (fun _ => I) _ _ _ E) as (evs & Ht & Hro).
  destruct (proj2 (query_spends_invocations env qenv q started found missing failed)
              _ _ _ E) as (ev1 & Ht1 & Hi).
  destruct (proj2 (query_spends_wait env qenv q started found missing failed)
              _ _ _ E) as (ev2 & Ht2 & Hw).
  rewrite Ht in Ht1, Ht2. apply app_inv_head in Ht1, Ht2. subst ev1 ev2.
  rewrite invoke_cost_invocations in Hi.
  destruct (read_only_calls evs Hro) as [Hn Hf].
  exists result, evs. rewrite E. cbn [fst snd].
  repeat split; try assumption; lia.
Qed.

(** The three ways a query ends.  The record returned is the [data] of an
    answer of the select; [null] is returned with the warning when the
    select answered without data and without error, and with the error log
    when the select was refused three times, after all the waits. *)
Definition query_outcome (q : select_query) (found missing failed : string)
    s (run : run_of) : Prop :=
  exists evs,
    trace (fst run) = (trace s ++ evs)%list /\
    ((exists record w w',
        snd run = inr (Some record) /\
        db_select_single qenv q w = (w', inr (RespData (Some record))) /\
        last evs = Some (EvLog LogInfo found))
     \/ (exists w w',
           snd run = inr None /\
           db_select_single qenv q w = (w', inr (RespData None)) /\
           last evs = Some (EvLog LogWarn missing))
     \/ (snd run = inr None /\
         last evs = Some (EvLog LogError failed) /\
         invocations evs = 3%nat /\ total_wait evs = 3000)).

Lemma invocations_log level msg : invocations [EvLog level msg] = 0%nat.
Proof. reflexivity. Qed.

Lemma total_wait_log level msg : total_wait [EvLog level msg] = 0.
Proof. reflexivity. Qed.

Lemma select_operation_returns q s s' answer :
  select_operation qenv q s = (s', inr answer) ->
  exists data w w',
    answer = RespData data /\ db_select_single qenv q w = (w', inr (RespData data)).
Proof.
  unfold select_operation, bind, observed, perform.
  destruct (db_select_single qenv q (world s)) as [w' [e|[data|error]]] eqn:E;
    try discriminate.
  intros [= <- <-]. exists data, (world s), w'. split; [reflexivity|exact E].
Qed.

Lemma query_has_outcome q started found missing failed s :
  query_outcome q found missing failed s
    (query env qenv q started found missing failed s).
Proof.
  rewrite query_unfold. destruct (date_now env (world s)) as [w0 t0].
  set (s1 := emit (EvLog LogInfo started) (with_world w0 s)).
  destruct (retryOperation env (select_operation qenv q) 3 1000 s1)
    as [s2 [e|answer]] eqn:E.
  - destruct (retryOperation_traces env (fun _ => True) (select_operation qenv q) 3 1000
                (select_operation_traces qenv _ q I) (fun _ _ => I) (fun _ => I)
                _ _ _ E) as (evs & Ht & _).
    unfold retryOperation in E.
    rewrite (retry_loop_ext env _ _ (select_operation_raising qenv q)) in E.
    apply retry_loop_thrown in E as (Hi & Hw & _); [|lia|lia].
    destruct (date_now env (world s2)) as [w3 t3]. cbn [fst snd].
    exists ([EvLog LogInfo started] ++ evs ++ [EvLog LogError failed])%list.
    split.
    + cbn [fst snd trace emit with_world]. rewrite Ht. unfold s1. cbn [trace emit with_world].
      rewrite <- !app_assoc. reflexivity.
    + right. right. split; [reflexivity|]. split.
      * rewrite app_assoc. apply last_snoc.
      * rewrite Ht, invocations_app in Hi. rewrite Ht, total_wait_app in Hw.
        change (backoff_sum 1000 (3 - 1)) with 3000 in Hw.
        rewrite !invocations_app, !total_wait_app, !invocations_log, !total_wait_log.
        split; lia.
  - destruct (retryOperation_traces env (fun _ => True) (select_operation qenv q) 3 1000
                (select_operation_traces qenv _ q I) (fun _ _ => I) (fun _ => I)
                _ _ _ E) as (evs & Ht & _).
    assert (Hret : exists data w w',
               answer = RespData data /\
               db_select_single qenv q w = (w', inr (RespData data))).
    { unfold retryOperation in E.
      eapply (retry_loop_returns env
                (fun a => exists data w w',
                     a = RespData data /\
                     db_select_single qenv q w = (w', inr (RespData data))));
        [|exact E].
      intros s0 s0' v. apply select_operation_returns. }
    destruct Hret as (data & w & w' & -> & Hsel).
    destruct (date_now env (world s2)) as [w3 t3]. cbn [data_of].
    destruct data as [record|]; cbn [fst snd].
    + exists ([EvLog LogInfo started] ++ evs ++ [EvLog LogInfo found])%list.
      split.
      * cbn [fst snd trace emit with_world]. rewrite Ht. unfold s1. cbn [trace emit with_world].
        rewrite <- !app_assoc. reflexivity.
      * left. exists record, w, w'. split; [reflexivity|]. split; [exact Hsel|].
        rewrite app_assoc. apply last_snoc.
    + exists ([EvLog LogInfo started] ++ evs ++ [EvLog LogWarn missing])%list.
      split.
      * cbn [fst snd trace emit with_world]. rewrite Ht. unfold s1. cbn [trace emit with_world].
        rewrite <- !app_assoc. reflexivity.
      * right. left. exists w, w'. split; [reflexivity|]. split; [exact Hsel|].
        rewrite app_assoc. apply last_snoc.
Qed.

(** Whatever the client does, [getLatestGeneratedImage] and
    [getGeneratedImageById] return: no exception reaches the caller.  They
    query the table at most three times, wait at most 3000 ms in all, and
    make no insert, upload, update or file-system call. *)
Theorem queries_never_raise (id : string) s :
  answers_read_only s (getLatestGeneratedImage env qenv s) /\
  answers_read_only s (getGeneratedImageById env qenv id s).
Proof.
  rewrite getLatestGeneratedImage_query, getGeneratedImageById_query.
  split; apply query_answers_read_only.
Qed.

(** Each query ends in one of three ways.  It returns a record, which is
    the [data] of an answer of its select; or it returns [null] after the
    warning, which happens only when the select answered with neither data
    nor error; or it returns [null] after the error log, which happens only
    when three selects in a row were refused, after waits of 1000 ms and
    2000 ms. *)
Theorem queries_end_in_three_ways (id : string) s :
  query_outcome latest_completed_query "Retrieved latest image:"
    "No completed images found in database" "Error fetching latest image:"
    s (getLatestGeneratedImage env qenv s) /\
  query_outcome (by_id_query id) "Retrieved image by ID:"
    "No image found with ID:" "Error fetching image by ID:"
    s (getGeneratedImageById env qenv id s).
Proof.
  rewrite getLatestGeneratedImage_query, getGeneratedImageById_query.
  split; apply query_has_outcome.
Qed.

End QueryRuns.

Section RefusedQueries.
Context {W : Type} (env : Env W) (qenv : QueryEnv W).
Implicit Types s : state W.

(** A client call that never answers with data: it is rejected or answers
    with an error, as a select ending in [.single()] does as long as no row,
    or more than one row, matches. *)
Definition refuses {T} (f : W -> W * (thrown + response T)) : Prop :=
  forall w, exists w' e, f w = (w', inl e) \/ f w = (w', inr (RespError e)).

(** The run of a query whose select was refused at every attempt. *)
Definition gives_up (failed : string) s
    (run : state W * (thrown + option GeneratedImageRecord)) : Prop :=
  snd run = inr None /\
  exists evs,
    trace (fst run) = (trace s ++ evs)%list /\
    invocations evs = 3%nat /\ total_wait evs = 3000 /\
    last evs = Some (EvLog LogError failed).

Lemma refused_query_gives_up q started found missing failed s :
  refuses (db_select_single qenv q) ->
  gives_up failed s (query env qenv q started found missing failed s).
Proof.
  intros Hr.
  destruct (query_has_outcome env qenv q started found missing failed s)
    as (evs & Ht & [H|[H|H]]).
  - destruct H as (record & w & w' & _ & Hsel & _).
    destruct (Hr w) as (w1 & e & [E|E]); rewrite E in Hsel; discriminate.
  - destruct H as (w & w' & _ & Hsel & _).
    destruct (Hr w) as (w1 & e & [E|E]); rewrite E in Hsel; discriminate.
  - destruct H as (Hres & Hlast & Hi & Hw). split; [exact Hres|].
    exists evs. repeat split; assumption.
Qed.

(** When the select is refused whenever it is made, each query gives up
    only after three selects and waits of 1000 ms and 2000 ms, and then logs
    an error and returns [null]; the warning about a missing record is not
    logged. *)
Theorem refused_queries_use_all_attempts s :
  (refuses (db_select_single qenv latest_completed_query) ->
   gives_up "Error fetching latest image:" s (getLatestGeneratedImage env qenv s)) /\
  (forall id,
     refuses (db_select_single qenv (by_id_query id)) ->
     gives_up "Error fetching image by ID:" s (getGeneratedImageById env qenv id s)).
Proof.
  split; [|intros id]; intros Hr.
  - rewrite getLatestGeneratedImage_query. apply refused_query_gives_up. exact Hr.
  - rewrite getGeneratedImageById_query. apply refused_query_gives_up. exact Hr.
Qed.

(** [verifyImageAccess] returns whatever [fetch] does.  It makes one
    request, for the storage path of the record.  Its value is [true] exactly
    when the response is ok and has a content type that starts with
    [image/]; it is [undefined], not [false], when the response is ok and has
    no content type; it is [false] in every other case, a rejected request
    included. *)
Theorem verifyImageAccess_contract (record : GeneratedImageRecord) s :
  let run := verifyImageAccess qenv record s in
  let probe := fetch qenv (storage_path record) "HEAD" (world s) in
  exists value,
    snd run = inr value /\
    world (fst run) = fst probe /\
    invocations (trace (fst run)) = S (invocations (trace s)) /\
    net_calls (trace (fst run)) = net_calls (trace s) /\
    (value = Some true <->
     exists response contentType,
       snd probe = inr response /\ resp_ok response = true /\
       resp_content_type response = Some contentType /\
       Js.startsWith contentType "image/" = true) /\
    (value = None <->
     exists response,
       snd probe = inr response /\ resp_ok response = true /\
       resp_content_type response = None).
Proof.
  cbv zeta. unfold verifyImageAccess, try_catch, bind, log, observed, perform, ret.
  cbn [world emit with_world].
  destruct (fetch qenv (storage_path record) "HEAD" (world s)) as [w' [e|response]];
    cbn [fst snd world trace emit with_world].
  - exists (Some false).
    rewrite !invocations_snoc, !net_calls_snoc, !app_nil_r. cbn [is_invoke].
    repeat split; try discriminate; try lia.
    + intros (response & ct & H & _). discriminate.
    + intros (response & H & _). discriminate.
  - exists (isAccessible response).
    rewrite !invocations_snoc, !net_calls_snoc, !app_nil_r. cbn [is_invoke].
    split; [reflexivity|]. split; [reflexivity|]. split; [lia|].
    split; [reflexivity|]. unfold isAccessible.
    destruct (resp_ok response) eqn:Hok;
      destruct (resp_content_type response) as [ct|] eqn:Hct; cbn [option_map].
    + split; split.
      * intros [= Hs]. exists response, ct. auto.
      * intros (r & c & [= <-] & _ & Hc & Hs). rewrite Hct in Hc.
        injection Hc as <-. rewrite Hs. reflexivity.
      * discriminate.
      * intros (r & [= <-] & _ & Hc). rewrite Hct in Hc. discriminate.
    + split; split.
      * discriminate.
      * intros (r & c & [= <-] & _ & Hc & _). rewrite Hct in Hc. discriminate.
      * intros _. exists response. auto.
      * reflexivity.
    + split; split.
      * discriminate.
      * intros (r & c & [= <-] & Ho & _). rewrite Hok in Ho. discriminate.
      * discriminate.
      * intros (r & [= <-] & Ho & _). rewrite Hok in Ho. discriminate.
    + split; split.
      * discriminate.
      * intros (r & c & [= <-] & Ho & _). rewrite Hok in Ho. discriminate.
      * discriminate.
      * intros (r & [= <-] & Ho & _). rewrite Hok in Ho. discriminate.
Qed.

End RefusedQueries.

(** ** Invariants of a retried operation *)

Section RetryInvariant.
Context {W : Type} (env : Env W) {T : Type}.
Implicit Types s : state W.

(** What holds before the first attempt and is kept by a failed attempt and
    by the wait that follows it holds when the attempt that returns is
    made. *)
Lemma retry_loop_invariant (Inv : state W -> Prop) (Post : state W -> T -> Prop)
    (op : M W T) :
  (forall s s' e, Inv s -> op s = (s', inl e) -> Inv s') ->
  (forall s s' v, Inv s -> op s = (s', inr v) -> Post s' v) ->
  (forall delay s, Inv s -> Inv (pause env delay s)) ->
  forall fuel maxRetries attempt delay lastError s s' v,
    Inv s ->
    retry_loop env fuel op maxRetries attempt delay lastError s = (s', inr v) ->
    Post s' v.
Proof.
  intros Hfail Hok Hpause. induction fuel as [|fuel IH];
    intros maxRetries attempt delay lastError s s' v Hs; cbn [retry_loop].
  - discriminate.
  - destruct (attempt <=? maxRetries)%nat; [|discriminate].
    unfold try_catch. destruct (op s) as [s1 [e|v1]] eqn:E.
    + destruct (attempt =? maxRetries)%nat; [discriminate|].
      change (bind (log LogWarn retry_warning)
                (fun _ => bind (sleep env delay)
                            (fun _ => retry_loop env fuel op maxRetries (S attempt)
                                        (delay * 2) e)) s1)
        with (retry_loop env fuel op maxRetries (S attempt) (delay * 2) e
                (pause env delay s1)).
      apply (IH _ _ _ _ (pause env delay s1) _ _ (Hpause delay s1 (Hfail _ _ _ Hs E))).
    + intros [= <- <-]. eapply Hok; eassumption.
Qed.

End RetryInvariant.

(** ** The queries in the concrete world *)

Module SimQueries.
Import Sim SimFacts.
Implicit Types (w : sim) (s : state sim).

(** The text columns of the table. *)
Definition column (name : string) (r : GeneratedImageRecord) : option string :=
  if String.eqb name "id" then Some (id r)
  else if String.eqb name "created_at" then Some (created_at r)
  else if String.eqb name "storage_path" then Some (storage_path r)
  else if String.eqb name "original_filepath" then Some (original_filepath r)
  else if String.eqb name "prompt" then Some (prompt r)
  else if String.eqb name "status" then Some (status r)
  else if String.eqb name "error_message" then error_message r
  else None.

Definition satisfies (filters : list (string * string)) (r : GeneratedImageRecord)
  : bool :=
  forallb (fun f => match column (fst f) r with
                    | Some x => String.eqb x (snd f)
                    | None => false
                    end) filters.

(** The table is kept in creation order and the program orders by
    [created_at] only: a descending order is the table reversed. *)
Definition select_rows (q : select_query) (rs : list GeneratedImageRecord)
  : list GeneratedImageRecord :=
  let kept := List.filter (satisfies (sel_eq q)) rs in
  let ordered := match sel_order q with
                 | Some (_, false) => rev kept
                 | _ => kept
                 end in
  match sel_limit q with
  | Some n => firstn n ordered
  | None => ordered
  end.

(** [.single()] wants exactly one row. *)
Definition select_single_act (q : select_query) (w : sim)
  : sim * response (option GeneratedImageRecord) :=
  match select_rows q (rows w) with
  | [r] => (w, RespData (Some r))
  | _ => (w, RespError not_single)
  end.

Fixpoint strip_prefix (p s : string) : option string :=
  match p, s with
  | EmptyString, _ => Some s
  | String a p', String b s' => if Ascii.eqb a b then strip_prefix p' s' else None
  | String _ _, EmptyString => None
  end.

Definition object_url_prefix : string :=
  base_url +:+ "/object/public/" +:+ BUCKET +:+ "/".

Definition invalid_url : thrown := JsError "TypeError" "Failed to parse URL" "".

(** The probe of a public URL of the bucket: the object answers with its
    content type, a missing object with an error status; anything that is
    not such a URL makes [fetch] reject. *)
Definition fetch_act (url method : string) (w : sim) : sim * (thrown + fetch_response) :=
  match strip_prefix object_url_prefix url with
  | Some key =>
      match blobs w !! key with
      | Some (_, contentType) =>
          (ticked w, inr {| resp_ok := true; resp_status := 200;
                            resp_content_type := Some contentType |})
      | None =>
          (ticked w, inr {| resp_ok := false; resp_status := 400;
                            resp_content_type := Some "application/json" |})
      end
  | None => (w, inl invalid_url)
  end.

Definition qenv : QueryEnv sim :=
  {| db_select_single := fun q => scheduled (select_single_act q);
     fetch := fetch_act |}.

(** *** What the client calls do to the table and the bucket *)

Lemma scheduled_cases {A} (act : sim -> sim * response A) w w' r :
  scheduled act w = (w', r) ->
  (exists e, r = inr (RespError e) /\
             rows w' = rows w /\ blobs w' = blobs w /\ next_id w' = next_id w) \/
  (exists w0, rows w0 = rows w /\ blobs w0 = blobs w /\ next_id w0 = next_id w /\
              act w0 = (w', match r with inr a => a | inl e => RespError e end) /\
              exists a, r = inr a).
Proof.
  unfold scheduled. cbn [schedule set_clock].
  destruct (schedule w) as [|[|e] rest].
  - destruct (act _) as [w2 a] eqn:E. intros [= <- <-]. right.
    exists (set_clock (clock w + latency w) w).
    split; [reflexivity|]. split; [reflexivity|]. split; [reflexivity|].
    split; [exact E|eauto].
  - destruct (act _) as [w2 a] eqn:E. intros [= <- <-]. right.
    exists (set_schedule rest (set_clock (clock w + latency w) w)).
    split; [reflexivity|]. split; [reflexivity|]. split; [reflexivity|].
    split; [exact E|eauto].
  - intros [= <- <-]. left. exists e. repeat split.
Qed.

(** The record created by the run is the last row of the table and
    [recordId] holds its id. *)
Definition tracks (rid : string) s : Prop :=
  var_recordId s = Some rid /\
  exists older x, rows (world s) = (older ++ [x])%list /\ id x = rid.

Definition stored (key : string) (body : list byte) s : Prop :=
  blobs (world s) !! key = Some (body, "image/png").

Lemma tracks_pause rid delay s : tracks rid s -> tracks rid (pause env delay s).
Proof. intros H. exact H. Qed.

Lemma stored_pause key body delay s : stored key body s -> stored key body (pause env delay s).
Proof. intros H. exact H. Qed.

Lemma insert_returns fp prompt s s' v :
  insert_operation env fp prompt s = (s', inr v) ->
  exists r0 older,
    v = RespData r0 /\ rows (world s') = (older ++ [r0])%list /\
    var_recordId s' = var_recordId s.
Proof.
  unfold insert_operation, bind. rewrite now_sim. cbv zeta. unfold perform.
  cbn [env db_insert].
  destruct (scheduled _ (world s)) as [w' r] eqn:E.
  apply scheduled_cases in E as [(e & -> & _)|(w0 & Hr & _ & _ & Hact & a & ->)].
  - discriminate.
  - unfold insert_act in Hact. injection Hact as <- <-.
    cbn [throw_on_error ret]. intros [= <- <-].
    eexists _, (rows w0). split; [reflexivity|]. split; reflexivity.
Qed.

Lemma upload_keeps_table key body rid s s' r :
  tracks rid s -> upload_operation env key body s = (s', r) -> tracks rid s'.
Proof.
  intros (Hv & older & x & Hrows & Hid).
  unfold upload_operation, bind, perform. cbn [env storage_upload].
  destruct (scheduled _ (world s)) as [w' a] eqn:E.
  assert (Hw : rows w' = rows (world s)).
  { apply scheduled_cases in E as [(e & _ & H & _)|(w0 & Hr & _ & _ & Hact & _)];
      [exact H|].
    rewrite <- Hr. unfold upload_act in Hact.
    destruct (blobs w0 !! key); injection Hact as <- _; reflexivity. }
  destruct a as [e|[d|e]]; cbn [throw_on_error ret throw]; intros [= <- <-];
    (split; [exact Hv|]); exists older, x; cbn [world with_world];
    rewrite Hw; split; assumption.
Qed.

Lemma upload_returns key body s s' v :
  upload_operation env key body s = (s', inr v) -> stored key body s'.
Proof.
  unfold upload_operation, bind, perform, stored. cbn [env storage_upload].
  destruct (scheduled _ (world s)) as [w' a] eqn:E.
  apply scheduled_cases in E as [(e & -> & _)|(w0 & _ & _ & _ & Hact & a0 & ->)].
  - discriminate.
  - unfold upload_act in Hact.
    destruct (blobs w0 !! key); injection Hact as <- <-;
      cbn [throw_on_error ret]; intros [= <- <-]; cbn [world with_world blobs set_blobs];
      apply lookup_insert_eq.
Qed.

Lemma update_rows_snoc p rid older x :
  id x = rid ->
  update_rows p rid (older ++ [x])
  = (update_rows p rid older ++ [apply_patch p x])%list.
Proof.
  intros Hid. unfold update_rows. rewrite map_app. cbn [map].
  unfold matches. rewrite Hid, String.eqb_refl. reflexivity.
Qed.

(** The state a completed record leaves: it is the last row, the only one
    with its id, and its storage path is [url]. *)
Definition completed_as (r : GeneratedImageRecord) (url : string) w : Prop :=
  (exists older, rows w = (older ++ [r])%list) /\
  List.filter (matches (id r)) (rows w) = [r] /\
  status r = "completed" /\ storage_path r = url.

Lemma complete_keeps url recordData t0 rid key body s s' e :
  tracks rid s /\ stored key body s ->
  complete_operation env url recordData t0 s = (s', inl e) ->
  tracks rid s' /\ stored key body s'.
Proof.
  intros [(Hv & older & x & Hrows & Hid) Hb].
  unfold complete_operation, bind. rewrite !now_sim. cbv zeta.
  unfold get_recordId, perform. cbn [env db_update_select]. rewrite Hv.
  cbn [default]. unfold Datatypes.id.
  destruct (scheduled _ (world s)) as [w' a] eqn:E.
  assert (Hw : (exists older' x', rows w' = (older' ++ [x'])%list /\ id x' = rid) /\
               blobs w' = blobs (world s)).
  { apply scheduled_cases in E as [(e0 & _ & H & Hbl & _)|(w0 & Hr & Hbl & _ & Hact & _)].
    - split; [|exact Hbl]. exists older, x. rewrite H. split; assumption.
    - unfold update_select_act in Hact.
      assert (Hw' : w' = set_rows (update_rows _ rid (rows w0)) (next_id w0) w0)
        by (destruct (List.filter _ _) as [|? [|? ?]]; injection Hact as <- _; reflexivity).
      rewrite Hw'. cbn [rows blobs set_rows]. split; [|exact Hbl].
      rewrite Hr, Hrows, (update_rows_snoc _ rid older x Hid).
      eexists _, _. split; [reflexivity|]. exact Hid. }
  destruct Hw as [Hrows' Hblobs].
  destruct a as [e0|[d|e0]]; cbn [throw_on_error ret throw]; intros [= <- <-];
    (split; [split; [exact Hv|exact Hrows']|]);
    unfold stored; cbn [world with_world]; rewrite Hblobs; exact Hb.
Qed.

Lemma complete_returns url recordData t0 rid key body s s' v :
  tracks rid s /\ stored key body s ->
  complete_operation env url recordData t0 s = (s', inr v) ->
  exists r, v = RespData r /\ completed_as r url (world s') /\ stored key body s'.
Proof.
  intros [(Hv & older & x & Hrows & Hid) Hb].
  unfold complete_operation, bind. rewrite !now_sim. cbv zeta.
  unfold get_recordId, perform. cbn [env db_update_select]. rewrite Hv.
  cbn [default]. unfold Datatypes.id.
  destruct (scheduled _ (world s)) as [w' a] eqn:E.
  apply scheduled_cases in E as [(e0 & -> & _)|(w0 & Hr & Hbl & _ & Hact & a0 & ->)].
  - discriminate.
  - unfold update_select_act in Hact.
    rewrite Hr, Hrows, (update_rows_snoc _ rid older x Hid) in Hact.
    set (p := completed_patch env url recordData (clock (world s)) (clock (world s)) t0)
      in *.
    destruct (List.filter (matches rid) (update_rows p rid older ++ [apply_patch p x]))
      as [|r [|r' rest]] eqn:Hf; injection Hact as <- <-;
      cbn [throw_on_error ret throw]; try discriminate.
    intros [= <- <-]. exists r.
    assert (Hlast : r = apply_patch p x).
    { assert (Hin : In (apply_patch p x)
                      (List.filter (matches rid)
                         (update_rows p rid older ++ [apply_patch p x]))).
      { apply List.filter_In. split.
        - apply in_or_app. right. left. reflexivity.
        - unfold matches. cbn [apply_patch id]. rewrite Hid. apply String.eqb_refl. }
      rewrite Hf in Hin. destruct Hin as [->|[]]. reflexivity. }
    split; [reflexivity|]. split.
    + unfold completed_as. cbn [world with_world rows set_rows].
      assert (Hidr : id r = rid) by (rewrite Hlast; exact Hid).
      rewrite Hidr, Hf, Hlast. repeat split.
      exists (update_rows p rid older). reflexivity.
    + unfold stored. cbn [world with_world blobs set_rows]. rewrite Hbl. exact Hb.
Qed.

Lemma readFile_keeps fp s s' r :
  fs_readFile env fp s = (s', r) ->
  world s' = world s /\ var_recordId s' = var_recordId s.
Proof.
  unfold fs_readFile, perform. cbn [env readFile]. unfold sim_readFile.
  destruct (files (world s) !! fp); intros [= <- <-]; split; reflexivity.
Qed.

(** The world a successful run of the pipeline leaves. *)
Lemma successful_run_world fp prompt s r :
  snd (uploadGeneratedImage env fp prompt s) = inr (Some r) ->
  exists key body,
    completed_as r (getPublicUrl env BUCKET key)
      (world (fst (uploadGeneratedImage env fp prompt s))) /\
    blobs (world (fst (uploadGeneratedImage env fp prompt s))) !! key
    = Some (body, "image/png").
Proof.
  intros Hrun. apply uploadGeneratedImage_success_iff in Hrun.
  destruct Hrun as [s1 recordData s2 fileBuffer s3 stored0 s4 updatedRecord s5
                      E1 E2 E3 E4 E5].
  rewrite (uploadGeneratedImage_success_run env fp prompt s _ _ _ _ _ _ _ _ _
             E1 E2 E3 E4 E5).
  cbn [fst world emit with_world env date_now].
  set (key := storage_key recordData fp) in *.
  assert (H2 : exists older, rows (world s2) = (older ++ [recordData])%list).
  { unfold retryOperation in E2.
    apply (retry_loop_invariant env (fun _ => True)
             (fun s' v => exists r0 older,
                  v = RespData r0 /\ rows (world s') = (older ++ [r0])%list))
      in E2; auto.
    - destruct E2 as (r0 & older & [= <-] & Hrows). eauto.
    - intros s0 s0' v _ H. apply insert_returns in H as (r0 & older & -> & Hrows & _).
      eauto. }
  destruct H2 as (older & Hrows2).
  apply readFile_keeps in E3 as [Hw3 Hv3].
  assert (H3 : tracks (id recordData)
                 (emit (EvLog LogInfo "Attempting storage upload:") s3)).
  { split; [cbn [var_recordId emit]; rewrite Hv3; reflexivity|].
    exists older, recordData. cbn [world emit]. rewrite Hw3. split; [exact Hrows2|].
    reflexivity. }
  assert (H4 : tracks (id recordData) s4 /\ stored key fileBuffer s4).
  { unfold retryOperation in E4. split.
    - apply (retry_loop_invariant env (tracks (id recordData))
               (fun s' _ => tracks (id recordData) s')) in E4; auto.
      + intros s0 s0' e H. apply upload_keeps_table. exact H.
      + intros s0 s0' v H. apply upload_keeps_table. exact H.
    - apply (retry_loop_invariant env (fun _ => True)
               (fun s' _ => stored key fileBuffer s')) in E4; auto.
      intros s0 s0' v _. apply upload_returns. }
  unfold retryOperation in E5.
  apply (retry_loop_invariant env
           (fun s0 => tracks (id recordData) s0 /\ stored key fileBuffer s0)
           (fun s' v => exists r0,
                v = RespData r0 /\
                completed_as r0 (getPublicUrl env BUCKET key) (world s') /\
                stored key fileBuffer s')) in E5.
  - destruct E5 as (r0 & [= <-] & Hc & Hb). exists key, fileBuffer.
    split; [exact Hc|exact Hb].
  - intros s0 s0' e. apply complete_keeps.
  - intros s0 s0' v. apply complete_returns.
  - intros delay s0 H. exact H.
  - exact H4.
Qed.

End SimQueries.

Module SimReads.
Import Sim SimFacts SimQueries.
Implicit Types (w : sim) (s : state sim).

Lemma select_within_budget q r errs s rest :
  select_rows q (rows (world s)) = [r] ->
  schedule (world s) = (map Fails errs ++ rest)%list ->
  next_succeeds rest -> (List.length errs < 3)%nat ->
  exists s',
    retryOperation env (select_operation qenv q) 3 1000 s
    = (s', inr (RespData (Some r))).
Proof.
  intros Hsel Hs Hn Hl.
  destruct (SimRetries.call_attempts_with (select_operation qenv q)
              (fun w _ => (served w, Some r))
              (fun w _ => select_rows q (rows w) = [r]))
    with (errs := errs) (delay := 1000) (s := s) (rest := rest)
    as (s' & T & Ha & _); try assumption.
  - intros w v t sch H. exact H.
  - intros s0 e rest0 H. exists EvInvoke.
    unfold select_operation, bind, observed, perform. cbn [qenv db_select_single].
    rewrite (scheduled_fails _ _ _ _ H). reflexivity.
  - intros s0 H Hnext. exists EvInvoke.
    unfold select_operation, bind, observed, perform. cbn [qenv db_select_single].
    rewrite (scheduled_succeeds _ _ Hnext). unfold select_single_act.
    cbn [rows served set_schedule ticked set_clock]. rewrite H. reflexivity.
  - exists s'. eapply retryOperation_attempts; [exact Ha|exact Hl].
Qed.

Lemma query_finds q started found missing failed r errs s rest :
  select_rows q (rows (world s)) = [r] ->
  schedule (world s) = (map Fails errs ++ rest)%list ->
  next_succeeds rest -> (List.length errs < 3)%nat ->
  snd (query env qenv q started found missing failed s) = inr (Some r).
Proof.
  intros Hsel Hs Hn Hl. rewrite query_unfold. cbn [env date_now].
  destruct (select_within_budget q r errs
              (emit (EvLog LogInfo started) (with_world (world s) s)) rest)
    as (s' & E); try assumption.
  rewrite E. reflexivity.
Qed.

Lemma satisfies_id i x : satisfies [("id", i)] x = matches i x.
Proof. unfold satisfies, matches. cbn. apply andb_true_r. Qed.

Lemma select_by_id rs r :
  List.filter (matches (id r)) rs = [r] -> select_rows (by_id_query (id r)) rs = [r].
Proof.
  intros H. unfold select_rows, by_id_query. cbn [sel_eq sel_order sel_limit].
  rewrite <- H. apply List.filter_ext. intros x. apply satisfies_id.
Qed.

Lemma select_latest older r :
  status r = "completed" ->
  select_rows latest_completed_query (older ++ [r]) = [r].
Proof.
  intros H. unfold select_rows, latest_completed_query.
  cbn [sel_eq sel_order sel_limit]. rewrite List.filter_app. cbn [List.filter].
  replace (satisfies [("status", "completed")] r) with true
    by (unfold satisfies; cbn; rewrite H; reflexivity).
  rewrite rev_app_distr. reflexivity.
Qed.

Lemma strip_object_url key :
  strip_prefix object_url_prefix (getPublicUrl env BUCKET key) = Some key.
Proof. reflexivity. Qed.

End SimReads.





(** ** When the record cannot be created *)

Section CreationFailure.
Context {W : Type} (env : Env W).
Implicit Types s : state W.

(** Events that are not client calls, or are inserts. *)
Definition insert_or_local (e : event) : Prop :=
  match e with
  | EvNet (NetInsert _) => True
  | EvNet _ => False
  | _ => True
  end.

Lemma net_calls_cons e evs :
  net_calls (e :: evs)
  = (match e with EvNet c => [c] | _ => [] end ++ net_calls evs)%list.
Proof. destruct e; reflexivity. Qed.

Lemma insert_or_local_calls evs :
  Forall insert_or_local evs ->
  Forall (fun c => exists row, c = NetInsert row) (net_calls evs) /\
  Z.of_nat (List.length (net_calls evs)) = cost insert_cost evs.
Proof.
  induction 1 as [|e evs He _ [IH1 IH2]]; [split; [constructor|reflexivity]|].
  change (cost insert_cost (e :: evs)) with (insert_cost e + cost insert_cost evs).
  rewrite net_calls_cons.
  destruct e as [| | |[row| |]|]; try contradiction; cbn [insert_cost app];
    try (split; [exact IH1|lia]).
  split; [constructor; eauto|]. cbn [List.length]. lia.
Qed.

Lemma insert_operation_local fp prompt :
  traces insert_or_local (insert_operation env fp prompt).
Proof.
  unfold insert_operation, now, throw_on_error.
  apply traces_bind; [apply traces_peek|]. intros t. cbv zeta.
  apply traces_bind; [apply traces_perform; exact I|].
  intros [data|error]; auto with prog.
Qed.

Lemma insert_operation_keeps fp prompt : keeps_var (insert_operation env fp prompt).
Proof.
  unfold insert_operation, now, throw_on_error.
  apply keeps_bind; [apply keeps_peek|]. intros t. cbv zeta.
  apply keeps_bind; [apply keeps_perform|].
  intros [data|error]; auto with prog.
Qed.

Lemma refused_insert_throws fp prompt s :
  (forall row, refuses (db_insert env row)) ->
  exists s' e,
    retryOperation env (insert_operation env fp prompt) 3 1000 s = (s', inl e).
Proof.
  intros Hr.
  destruct (retryOperation env (insert_operation env fp prompt) 3 1000 s)
    as [s' [e|v]] eqn:E; [eauto|].
  exfalso. unfold retryOperation in E.
  apply (retry_loop_returns env (fun _ => False) (insert_operation env fp prompt))
    in E; [exact E|].
  intros s0 s0' v0. unfold insert_operation, bind, now, peek.
  destruct (date_now env (world s0)) as [w1 t]. cbv zeta. unfold perform.
  cbn [world with_world].
  match goal with
  | |- context [db_insert env ?row w1] =>
      destruct (Hr row w1) as (w2 & e & [H|H]); rewrite H
  end; discriminate.
Qed.

Lemma upload_catch_without_record uploadStartTime error s :
  var_recordId s = None ->
  upload_catch env uploadStartTime error s
  = (emit (EvLog LogError "Error in uploadGeneratedImage:")
       (with_world (fst (date_now env (world s))) s), inr None).
Proof.
  intros Hv. unfold upload_catch, bind, now, peek, log, get_recordId, ret.
  destruct (date_now env (world s)) as [w1 t].
  cbn [var_recordId emit with_world fst]. rewrite Hv. reflexivity.
Qed.

(** When every insert is refused, the pipeline returns [null] and the
    client calls it has made are inserts, three at most: without a record id
    the handler attempts no update, and nothing is uploaded. *)
Theorem creation_failure_ends_the_run (filepath prompt : string) s :
  (forall row, refuses (db_insert env row)) ->
  let run := uploadGeneratedImage env filepath prompt s in
  snd run = inr None /\
  exists evs,
    trace (fst run) = (trace s ++ evs)%list /\
    Forall (fun c => exists row, c = NetInsert row) (net_calls evs) /\
    (List.length (net_calls evs) <= 3)%nat.
Proof.
  intros Hr run.
  assert (Hcatch : exists s2 e,
             run = upload_catch env (fst (enter env s)) e s2 /\
             var_recordId s2 = None /\
             exists evs, trace s2 = (trace s ++ evs)%list /\ Forall insert_or_local evs).
  { unfold run. rewrite uploadGeneratedImage_unfold.
    unfold try_catch, upload_try, bind, log, enter.
    destruct (date_now env (world s)) as [w1 t0]. cbn [fst snd].
    match goal with
    | |- context [validateImage env filepath ?S] => set (s0 := S)
    end.
    destruct (validateImage env filepath s0) as [s1 [e|isValid]] eqn:E1.
    - exists s1, e. split; [reflexivity|].
      split; [rewrite (validateImage_keeps env filepath _ _ _ E1); reflexivity|].
      destruct (validateImage_traces env insert_or_local filepath
                  (fun _ _ => I) (fun _ => I) _ _ _ E1) as (evs & Ht & Hl).
      eexists. rewrite Ht. unfold s0. cbn [trace emit]. rewrite <- !app_assoc.
      split; [reflexivity|]. repeat constructor. exact Hl.
    - pose proof (validateImage_keeps env filepath _ _ _ E1) as Hv1.
      destruct (validateImage_traces env insert_or_local filepath
                  (fun _ _ => I) (fun _ => I) _ _ _ E1) as (evs & Ht & Hl).
      destruct isValid; cbn [negb].
      + destruct (refused_insert_throws filepath prompt s1 Hr) as (s2 & e & E2).
        rewrite E2. exists s2, e. split; [reflexivity|].
        split.
        * rewrite (retryOperation_keeps env _ 3 1000
                     (insert_operation_keeps filepath prompt) _ _ _ E2).
          rewrite Hv1. reflexivity.
        * destruct (retryOperation_traces env insert_or_local _ 3 1000
                      (insert_operation_local filepath prompt)
                      (fun _ _ => I) (fun _ => I) _ _ _ E2) as (ev2 & Ht2 & Hl2).
          eexists. rewrite Ht2, Ht. unfold s0. cbn [trace emit].
          rewrite <- !app_assoc. split; [reflexivity|].
          repeat constructor. apply Forall_app. split; assumption.
      + eexists s1, _. split; [reflexivity|]. split; [rewrite Hv1; reflexivity|].
        eexists. rewrite Ht. unfold s0. cbn [trace emit]. rewrite <- !app_assoc.
        split; [reflexivity|]. repeat constructor. exact Hl. }
  destruct Hcatch as (s2 & e & Hrun & Hv & evs & Ht & Hl).
  rewrite (upload_catch_without_record _ _ _ Hv) in Hrun.
  rewrite Hrun. cbn [fst snd trace emit with_world]. split; [reflexivity|].
  exists (evs ++ [EvLog LogError "Error in uploadGeneratedImage:"])%list.
  rewrite Ht, <- app_assoc. split; [reflexivity|].
  assert (Hall : Forall insert_or_local
                   (evs ++ [EvLog LogError "Error in uploadGeneratedImage:"])%list)
    by (apply Forall_app; split; [exact Hl|repeat constructor]).
  destruct (insert_or_local_calls _ Hall) as [Hins Hlen]. split; [exact Hins|].
  assert (Hrun' : uploadGeneratedImage env filepath prompt s
                  = (fst run, snd run)) by (unfold run; destruct (uploadGeneratedImage _ _ _ _); reflexivity).
  destruct (proj2 (upload_spends_inserts env filepath prompt) _ _ _ Hrun')
    as (evs' & Ht' & Hc).
  rewrite Hrun in Ht'. cbn [fst trace emit with_world] in Ht'.
  rewrite Ht, <- app_assoc in Ht'. apply app_inv_head in Ht'. subst evs'. lia.
Qed.

End CreationFailure.

(** ** When the final update cannot be made *)

Section CompletionFailure.
Context {W : Type} (env : Env W).
Implicit Types s : state W.

(** The run in which the final update exhausts its attempts: the handler
    receives the error of the last attempt. *)
Lemma uploadGeneratedImage_update_failure_run filepath prompt s
    s1 recordData s2 fileBuffer s3 stored s4 s5 error :
  validateImage env filepath (snd (enter env s)) = (s1, inr true) ->
  retryOperation env (insert_operation env filepath prompt) 3 1000 s1
  = (s2, inr (RespData recordData)) ->
  fs_readFile env filepath (with_record recordData s2) = (s3, inr fileBuffer) ->
  retryOperation env
    (upload_operation env (storage_key recordData filepath) fileBuffer) 3 1000
    (emit (EvLog LogInfo "Attempting storage upload:") s3)
  = (s4, inr (RespData stored)) ->
  retryOperation env
    (complete_operation env
       (getPublicUrl env BUCKET (storage_key recordData filepath))
       recordData (fst (enter env s))) 3 1000
    (emit (EvLog LogInfo "Storage upload successful:") s4)
  = (s5, inl error) ->
  uploadGeneratedImage env filepath prompt s
  = upload_catch env (fst (enter env s)) error s5.
Proof.
  intros E1 E2 E3 E4 E5.
  rewrite uploadGeneratedImage_unfold.
  unfold enter, with_record, storage_key in *.
  destruct (date_now env (world s)) as [w1 t0] eqn:Hd. cbn [fst snd] in *.
  unfold try_catch, upload_try, bind, log.
  rewrite E1. cbn [negb]. rewrite E2.
  unfold set_recordId at 1. rewrite E3.
  rewrite (validated_filename _ _ _ _ E1). cbn [negb]. rewrite E4, E5.
  reflexivity.
Qed.

End CompletionFailure.

Module SimOrphans.
Import Sim SimFacts SimRetries.
Implicit Types (w : sim) (s : state sim).

Lemma complete_attempt_fails url recordData t0 s e rest :
  schedule (world s) = Fails e :: rest ->
  complete_operation env url recordData t0 s
  = (with_world (set_schedule rest (ticked (world s)))
       (emit (EvNet (NetUpdate
                       (completed_patch env url recordData (clock (world s))
                          (clock (world s)) t0)
                       (default "" (var_recordId s)) true)) s),
     inl e).
Proof.
  intros H. unfold complete_operation, bind. rewrite !now_sim. cbv zeta.
  unfold get_recordId, perform. cbn [env db_update_select].
  rewrite (scheduled_fails _ _ _ _ H). reflexivity.
Qed.

Lemma complete_exhausted url recordData t0 s e1 e2 e3 rest :
  schedule (world s) = Fails e1 :: Fails e2 :: Fails e3 :: rest ->
  exists s',
    retryOperation env (complete_operation env url recordData t0) 3 1000 s
    = (s', inl e3) /\
    (exists T, world s' = set_schedule rest (set_clock T (world s))) /\
    var_recordId s' = var_recordId s.
Proof.
  intros Hs. eexists. split; [|split].
  - eapply retryOperation_three_failures.
    + apply complete_attempt_fails. exact Hs.
    + apply complete_attempt_fails. reflexivity.
    + apply complete_attempt_fails. reflexivity.
  - eexists. reflexivity.
  - reflexivity.
Qed.

(** The run in which the record is created and the blob uploaded, the final
    update fails three times and the error update is served. *)
Lemma completion_exhausted_run w fp prompt content errs_c errs_u e1 e2 e3 errs_r rest :
  passes_checks env fp w ->
  files w !! fp = Some content ->
  (forall x, In x (rows w) -> id x <> id_of (next_id w)) ->
  schedule w
  = (map Fails errs_c ++ Succeeds :: map Fails errs_u ++ Succeeds
       :: Fails e1 :: Fails e2 :: Fails e3 :: map Fails errs_r ++ rest)%list ->
  (List.length errs_c < 3)%nat -> (List.length errs_u < 3)%nat ->
  (List.length errs_r < 3)%nat ->
  next_succeeds rest ->
  let run := uploadGeneratedImage env fp prompt (init_state w) in
  exists t_insert t_error t_fail wS,
    next_id wS = next_id w /\
    let r0 := inserted (uploading_row fp prompt t_insert) wS in
    snd run = inr None /\
    rows (world (fst run))
    = (rows w ++ [apply_patch (error_patch env e3 t_error (t_fail - clock w)) r0])%list /\
    blobs (world (fst run))
    = <[storage_key r0 fp := (content, "image/png")]> (blobs w).
Proof.
  intros Hp Hf Hfresh Hs Hlc Hlu Hlr Hn run.
  destruct (validate_init fp w Hp) as (evs & Hloc & E1).
  destruct (insert_within_budget fp prompt errs_c
              {| world := w; trace := evs; var_recordId := None |}
              (Succeeds :: map Fails errs_u ++ Succeeds
                 :: Fails e1 :: Fails e2 :: Fails e3 :: map Fails errs_r ++ rest)
              Hs) as (s2 & T & E2 & Hw2 & Hv2); [discriminate|exact Hlc|].
  cbv zeta in E2, Hw2. cbn [world var_recordId] in E2, Hw2, Hv2.
  unfold insert_done in E2, Hw2. cbn [fst snd] in E2, Hw2.
  match type of E2 with
  | _ = (_, inr (RespData ?r)) => set (rd := r) in *
  end.
  assert (E3 : fs_readFile env fp (with_record rd s2)
               = (with_world (world s2)
                    (emit (EvFs (FsReadFile fp)) (with_record rd s2)),
                  inr content)).
  { unfold fs_readFile, perform, with_record.
    cbn [env readFile world emit with_world]. unfold sim_readFile.
    rewrite Hw2. cbn [files set_rows served set_schedule ticked set_clock].
    rewrite Hf. reflexivity. }
  destruct (upload_within_budget (storage_key rd fp) content errs_u
              (emit (EvLog LogInfo "Attempting storage upload:")
                 (with_world (world s2)
                    (emit (EvFs (FsReadFile fp)) (with_record rd s2))))
              (Succeeds :: Fails e1 :: Fails e2 :: Fails e3 :: map Fails errs_r ++ rest))
    as (s4 & T4 & E4 & Hw4 & Hv4);
    [cbn [world emit with_world]; rewrite Hw2; reflexivity|discriminate|exact Hlu|].
  cbn [world var_recordId emit with_world with_record] in Hw4, Hv4.
  rewrite Hw2 in Hw4. unfold upload_done in Hw4.
  cbn [fst blobs set_rows set_schedule set_clock served ticked tail schedule] in Hw4.
  destruct (complete_exhausted
              (getPublicUrl env BUCKET (storage_key rd fp)) rd
              (fst (enter env (init_state w)))
              (emit (EvLog LogInfo "Storage upload successful:") s4)
              e1 e2 e3 (map Fails errs_r ++ rest)%list)
    as (s5 & E5 & (T5 & Hw5) & Hv5).
  { cbn [world emit]. rewrite Hw4. reflexivity. }
  cbn [world var_recordId emit] in Hw5, Hv5.
  assert (Hrun : run = upload_catch env (fst (enter env (init_state w))) e3 s5)
    by (eapply uploadGeneratedImage_update_failure_run; eassumption).
  rewrite upload_catch_with_record in Hrun by (rewrite Hv5, Hv4; reflexivity).
  cbn [env date_now] in Hrun.
  match type of Hrun with
  | context [retryOperation env (fail_operation env e3 ?ft) 3 1000 ?S] =>
      destruct (fail_within_budget e3 ft errs_r S rest)
        as (s6 & T6 & E6 & Hw6 & Hv6);
        [cbn [world emit with_world]; rewrite Hw5, Hw4; reflexivity
        |exact Hn|exact Hlr|];
      rewrite E6 in Hrun
  end.
  cbv zeta in Hw6. cbn [world var_recordId emit with_world] in Hw6.
  unfold fail_done in Hw6. cbn [fst] in Hw6.
  assert (Hrows4 : rows (world s4) = (rows w ++ [rd])%list)
    by (rewrite Hw4; reflexivity).
  assert (Hblobs4 : blobs (world s4)
                    = <[storage_key rd fp := (content, "image/png")]> (blobs w))
    by (rewrite Hw4; reflexivity).
  clear Hw4 Hw2.
  assert (Hrows5 : rows (world s5) = (rows w ++ [rd])%list)
    by (rewrite Hw5; exact Hrows4).
  assert (Hblobs5 : blobs (world s5)
                    = <[storage_key rd fp := (content, "image/png")]> (blobs w))
    by (rewrite Hw5; exact Hblobs4).
  clear Hw5.
  match type of Hw6 with
  | _ = set_rows (update_rows ?p _ _) _ _ => set (p6 := p) in *
  end.
  assert (Hrows6 : rows (world s6) = (rows w ++ [apply_patch p6 rd])%list).
  { rewrite Hw6. cbn [rows set_rows set_schedule set_clock]. rewrite Hrows5, Hv5, Hv4.
    change (default "" (Some (id rd))) with (id rd).
    apply update_rows_last; [exact Hfresh|reflexivity]. }
  assert (Hblobs6 : blobs (world s6)
                    = <[storage_key rd fp := (content, "image/png")]> (blobs w)).
  { rewrite Hw6. cbn [blobs set_rows served set_schedule ticked set_clock].
    exact Hblobs5. }
  clear Hw6.
  eexists _, _, _, _. subst run. rewrite Hrun. cbn [fst snd]. cbv zeta.
  rewrite Hrows6, Hblobs6.
  split; [|split; [reflexivity|split; reflexivity]].
  reflexivity.
Qed.

End SimOrphans.

(** When the record is created and the blob uploaded but the final update
    fails at its three attempts, the pipeline returns [null] and the error
    update, once served, leaves the record with status [error] and an empty
    storage path, while the uploaded blob stays in the bucket under its key:
    nothing removes it. *)
Theorem failed_completion_leaves_the_blob w fp prompt content
    errs_c errs_u e1 e2 e3 errs_r rest :
  passes_checks Sim.env fp w ->
  Sim.files w !! fp = Some content ->
  (forall x, In x (Sim.rows w) -> id x <> Sim.id_of (Sim.next_id w)) ->
  Sim.schedule w
  = (map Sim.Fails errs_c ++ Sim.Succeeds :: map Sim.Fails errs_u ++ Sim.Succeeds
       :: Sim.Fails e1 :: Sim.Fails e2 :: Sim.Fails e3
       :: map Sim.Fails errs_r ++ rest)%list ->
  (List.length errs_c < 3)%nat -> (List.length errs_u < 3)%nat ->
  (List.length errs_r < 3)%nat ->
  SimFacts.next_succeeds rest ->
  let run := uploadGeneratedImage Sim.env fp prompt (Sim.init_state w) in
  exists r,
    snd run = inr None /\
    Sim.rows (world (fst run)) = (Sim.rows w ++ [r])%list /\
    id r = Sim.id_of (Sim.next_id w) /\
    status r = "error" /\
    error_message r
    = Some (if instanceof_Error e3 then message_of e3 else "Unknown error") /\
    storage_path r = "" /\
    Sim.blobs (world (fst run)) !! storage_key r fp = Some (content, "image/png").
Proof.
  intros Hp Hf Hfresh Hs Hlc Hlu Hlr Hn run.
  destruct (SimOrphans.completion_exhausted_run w fp prompt content errs_c errs_u
              e1 e2 e3 errs_r rest Hp Hf Hfresh Hs Hlc Hlu Hlr Hn)
    as (t_insert & t_error & t_fail & wS & Hid & Hr & Hrows & Hb).
  eexists. split; [exact Hr|]. split; [exact Hrows|].
  fold run in Hb. rewrite Hb.
  cbn [Sim.apply_patch SimFacts.inserted error_patch id status error_message
         storage_path upd_status upd_error_message upd_storage_path
         SimFacts.uploading_row ins_storage_path default].
  rewrite Hid. repeat split; try reflexivity.
  unfold storage_key. cbn [id Sim.apply_patch SimFacts.inserted].
  apply lookup_insert_eq.
Qed.

Lemma failed_completion_leaves_the_blob_witness :
  let sch := [Sim.Succeeds; Sim.Fails Runs.timeout_error; Sim.Succeeds;
              Sim.Fails Runs.timeout_error; Sim.Fails Runs.timeout_error;
              Sim.Fails Runs.storage_error] in
  let w := Examples.one_file Runs.sunset Examples.png_2k sch in
  let run := uploadGeneratedImage Sim.env Runs.sunset "a sunset" (Sim.init_state w) in
  exists r,
    snd run = inr None /\
    Sim.rows (world (fst run)) = [r] /\
    status r = "error" /\ storage_path r = "" /\
    error_message r = Some "bucket unavailable" /\
    Sim.blobs (world (fst run)) !! storage_key r Runs.sunset
    = Some (Examples.png_2k, "image/png").
Proof.
  intros sch w run.
  destruct (failed_completion_leaves_the_blob w Runs.sunset "a sunset" Examples.png_2k
              [] [Runs.timeout_error]
              Runs.timeout_error Runs.timeout_error Runs.storage_error [] [])
    as (r & Hr & Hrows & _ & Hst & He & Hsp & Hb).
  - apply Runs.sunset_passes.
  - reflexivity.
  - intros x [].
  - reflexivity.
  - simpl; lia.
  - simpl; lia.
  - simpl; lia.
  - intros e rest; discriminate.
  - exists r. fold run in Hr, Hrows, Hb. repeat split; assumption.
Defined.

(** ** Worked refusals *)

Module Refusals.

(** The concrete world with a table that refuses every insert. *)
Definition read_only_table (error : thrown) : Env Sim.sim :=
  {| date_now := date_now Sim.env;
     toISOString := toISOString Sim.env;
     stack_trace := stack_trace Sim.env;
     setTimeout := setTimeout Sim.env;
     existsSync := existsSync Sim.env;
     stat_size := stat_size Sim.env;
     fs_open := fs_open Sim.env;
     fd_read := fd_read Sim.env;
     fd_close := fd_close Sim.env;
     readFile := readFile Sim.env;
     db_insert := fun row w => (w, inr (RespError error));
     storage_upload := storage_upload Sim.env;
     getPublicUrl := getPublicUrl Sim.env;
     db_update_select := db_update_select Sim.env;
     db_update := db_update Sim.env |}.

(** A client whose selects find no single row, whatever the table holds. *)
Definition no_single_row : QueryEnv Sim.sim :=
  {| db_select_single := fun q w => (w, inr (RespError Sim.not_single));
     fetch := SimQueries.fetch_act |}.

End Refusals.

Lemma creation_failure_ends_the_run_witness :
  let env := Refusals.read_only_table Runs.timeout_error in
  let w := Examples.one_file Runs.sunset Examples.png_2k [] in
  let run := uploadGeneratedImage env Runs.sunset "a sunset" (Sim.init_state w) in
  snd run = inr None /\
  exists evs,
    trace (fst run) = evs /\
    Forall (fun c => exists row, c = NetInsert row) (net_calls evs) /\
    (List.length (net_calls evs) <= 3)%nat.
Proof.
  intros env w run.
  apply (creation_failure_ends_the_run env Runs.sunset "a sunset" (Sim.init_state w)).
  intros row w0. exists w0, Runs.timeout_error. right. reflexivity.
Defined.

Lemma refused_queries_use_all_attempts_witness :
  let w := Examples.one_file Runs.sunset Examples.png_2k [] in
  gives_up "Error fetching latest image:" (Sim.init_state w)
    (getLatestGeneratedImage Sim.env Refusals.no_single_row (Sim.init_state w)) /\
  gives_up "Error fetching image by ID:" (Sim.init_state w)
    (getGeneratedImageById Sim.env Refusals.no_single_row "img-7" (Sim.init_state w)).
Proof.
  intros w.
  destruct (refused_queries_use_all_attempts Sim.env Refusals.no_single_row
              (Sim.init_state w)) as [Hlatest Hid].
  split.
  - apply Hlatest. intros w0. exists w0, Sim.not_single. right. reflexivity.
  - apply Hid. intros w0. exists w0, Sim.not_single. right. reflexivity.
Defined.

(** * The latest image of a directory

    [getLatestImage] of [packages/plugin-twitter/src/actions/postImage.ts].
    The directory listing, [statSync] and [path.join] are external; the
    calls that can throw leave an invocation in the trace. *)

Module JsArray.

(** [arr.sort(compare)]: the sort is stable, and [compare a b <= 0] keeps
    [a] before [b].  Written as an insertion sort. *)
Fixpoint insert_sorted {A} (compare : A -> A -> Z) (x : A) (sorted : list A) : list A :=
  match sorted with
  | [] => [x]
  | y :: rest =>
      if compare x y <=? 0 then x :: sorted else y :: insert_sorted compare x rest
  end.

Definition sort {A} (compare : A -> A -> Z) (arr : list A) : list A :=
  fold_right (insert_sorted compare) [] arr.

End JsArray.

Record DirEnv (W : Type) := {
  readdirSync : string -> W -> W * (thrown + list string);
  (** [fs.statSync(path).mtime], as the number [getTime()] gives *)
  statSync_mtime : string -> W -> W * (thrown + Z);
  path_join : string -> string -> string
}.
Arguments readdirSync {W} _ _ _.
Arguments statSync_mtime {W} _ _ _.
Arguments path_join {W} _ _ _.

Section LatestImage.
Context {W : Type} (denv : DirEnv W).
Local Open Scope prog_scope.

(** Two texts with the same characters, letters compared without case, as
    the flag [i] of a regular expression compares them. *)
Fixpoint same_text_i (s t : string) : bool :=
  match s, t with
  | EmptyString, EmptyString => true
  | String c s', String d t' =>
      Ascii.eqb (Js.lower_ascii c) (Js.lower_ascii d) && same_text_i s' t'
  | _, _ => false
  end.

Definition image_alternatives : list string := ["jpg"; "jpeg"; "png"; "gif"].

(** [/\.(jpg|jpeg|png|gif)$/i.test(file)]: the expression matches at some
    position of the name and then reaches its end. *)
Fixpoint is_image_name (file : string) : bool :=
  existsb (fun alternative => same_text_i file ("." +:+ alternative)) image_alternatives
  || match file with
     | EmptyString => false
     | String _ rest => is_image_name rest
     end.

(** [arr.map(f)] for an [f] that may throw. *)
Fixpoint map_M {A B} (f : A -> M W B) (arr : list A) : M W (list B) :=
  match arr with
  | [] => ret []
  | x :: rest => do y <- f x; do ys <- map_M f rest; ret (y :: ys)
  end.

Definition image_stat (imagePath file : string) : M W (string * Z) :=
  do mtime <- observed (statSync_mtime denv (path_join denv imagePath file));
  ret (file, mtime).

(** [(a, b) => b.mtime.getTime() - a.mtime.getTime()] *)
Definition newest_first (a b : string * Z) : Z := snd b - snd a.

Definition undefined_file : thrown :=
  JsError "TypeError" "Cannot read properties of undefined (reading 'file')" "".

Definition getLatestImage (imagePath : string) : M W (option string) :=
  try_catch
    (log LogInfo "Looking for images in:" >>
     do files <- observed (readdirSync denv imagePath);
     log LogInfo "Found files:" >>
     let imageFiles := List.filter is_image_name files in
     if (List.length imageFiles =? 0)%nat then
       log LogError "No image files found in the directory" >> ret None
     else
       do imageStats <- map_M (image_stat imagePath) imageFiles;
       match head (JsArray.sort newest_first imageStats) with
       | Some latestImage =>
           log LogInfo "Found latest image:" >>
           ret (Some (path_join denv imagePath (fst latestImage)))
       | None => throw undefined_file
       end)
    (fun error => log LogError "Error getting latest image:" >> ret None).

End LatestImage.

(** ** What [getLatestImage] picks *)

Section NewestFirst.

(** [best] is the first of the entries of [stats] with the greatest
    modification time. *)
Definition first_newest (stats : list (string * Z)) (best : string * Z) : Prop :=
  exists before after,
    stats = (before ++ best :: after)%list /\
    (forall x, In x before -> snd x < snd best) /\
    (forall x, In x after -> snd x <= snd best).

Lemma head_insert_sorted x sorted :
  head (JsArray.insert_sorted newest_first x sorted)
  = match head sorted with
    | Some y => if snd y <=? snd x then Some x else Some y
    | None => Some x
    end.
Proof.
  destruct sorted as [|y rest]; [reflexivity|].
  cbn [JsArray.insert_sorted head]. unfold newest_first.
  destruct (Z.leb_spec (snd y - snd x) 0), (Z.leb_spec (snd y) (snd x));
    try reflexivity; lia.
Qed.

Lemma head_sort_newest stats :
  stats <> [] ->
  exists best, head (JsArray.sort newest_first stats) = Some best /\
               first_newest stats best.
Proof.
  induction stats as [|x stats IH]; [congruence|]. intros _.
  change (JsArray.sort newest_first (x :: stats))
    with (JsArray.insert_sorted newest_first x (JsArray.sort newest_first stats)).
  rewrite head_insert_sorted.
  destruct stats as [|y stats'].
  - exists x. split; [reflexivity|]. exists [], []. split; [reflexivity|].
    split; intros ? [].
  - destruct IH as (best & -> & before & after & Heq & Hb & Ha); [discriminate|].
    destruct (Z.leb_spec (snd best) (snd x)).
    + exists x. split; [reflexivity|]. exists [], (y :: stats').
      split; [reflexivity|]. split; [intros ? []|].
      intros z Hz. rewrite Heq in Hz. apply in_app_or in Hz.
      destruct Hz as [Hz|[<-|Hz]]; [specialize (Hb z Hz)|lia|specialize (Ha z Hz)]; lia.
    + exists best. split; [reflexivity|]. exists (x :: before), after.
      split; [rewrite Heq; reflexivity|]. split; [|exact Ha].
      intros z [<-|Hz]; [lia|apply Hb; exact Hz].
Qed.

End NewestFirst.

Section LatestImageFacts.
Context {W : Type} (denv : DirEnv W).
Implicit Types s : state W.

Lemma map_M_names imagePath files s s' stats :
  map_M (image_stat denv imagePath) files s = (s', inr stats) ->
  map fst stats = files.
Proof.
  revert s stats. induction files as [|file files IH]; intros s stats.
  - intros [= <- <-]. reflexivity.
  - cbn [map_M]. unfold bind at 1. unfold image_stat at 1. unfold bind at 1.
    destruct (observed _ s) as [s1 [e|mtime]]; [discriminate|]. cbn [ret].
    unfold bind. destruct (map_M _ files s1) as [s2 [e|ys]] eqn:E; [discriminate|].
    intros [= <- <-]. cbn [map fst]. rewrite (IH _ _ E). reflexivity.
Qed.

Lemma getLatestImage_total imagePath : total (getLatestImage denv imagePath).
Proof.
  unfold getLatestImage. apply total_try_catch. intros e. walk.
Qed.


End LatestImageFacts.

(** ** The names [getLatestImage] takes for images *)

Section ImageNames.

Lemma same_text_i_spec s t :
  same_text_i s t = SpecExtension.same_ignoring_case s t.
Proof.
  revert t. induction s as [|c s IH]; intros [|d t]; try reflexivity.
  cbn [same_text_i SpecExtension.same_ignoring_case].
  rewrite IH, !SpecExtension.fold_case_lower. reflexivity.
Qed.

Lemma alternatives_names name :
  In name image_alternatives <-> In name SpecExtension.names.
Proof.
  unfold image_alternatives, SpecExtension.names. simpl. tauto.
Qed.

Lemma same_text_i_dot rest alternative c :
  same_text_i (String c rest) ("." +:+ alternative) = true <->
  c = "."%char /\ SpecExtension.same_ignoring_case rest alternative = true.
Proof.
  change ("." +:+ alternative) with (String "." alternative).
  cbn [same_text_i]. rewrite andb_true_iff, Ascii.eqb_eq, same_text_i_spec. split.
  - intros [Hc Hs]. split; [|exact Hs].
    apply SpecExtension.lower_ascii_dot. exact Hc.
  - intros [-> Hs]. split; [reflexivity|exact Hs].
Qed.

(** The expression of [getLatestImage] accepts exactly the names that end
    in a dot followed by png, jpg, jpeg or gif in any letter case: the
    extension rule in the words of the specification.  [validateImage]
    accepts these names too, and the bare names besides. *)
Theorem image_names_follow_the_extension_rule (file : string) :
  (is_image_name file = true <-> SpecExtension.extension_allowed file) /\
  (is_image_name file = true -> accepted_extension file).
Proof.
  assert (Hiff : is_image_name file = true <-> SpecExtension.extension_allowed file).
  { unfold SpecExtension.extension_allowed.
    induction file as [|c file IH].
    - cbn. split; [discriminate|].
      intros (stem & e & name & H & _). destruct stem; discriminate.
    - cbn [is_image_name]. rewrite orb_true_iff, existsb_exists, IH. split.
      + intros [(alt & Hin & Hsame)|(stem & e & name & -> & Hin & Hsame)].
        * apply same_text_i_dot in Hsame as [-> Hsame].
          exists "", file, alt. split; [reflexivity|].
          split; [apply alternatives_names; exact Hin|exact Hsame].
        * exists (String c stem), e, name. split; [reflexivity|]. split; assumption.
      + intros (stem & e & name & Heq & Hin & Hsame).
        destruct stem as [|d stem].
        * left. injection Heq as -> ->. exists name.
          split; [apply alternatives_names; exact Hin|].
          apply same_text_i_dot. split; [reflexivity|exact Hsame].
        * right. injection Heq as -> ->. exists stem, e, name.
          split; [reflexivity|]. split; assumption. }
  split; [exact Hiff|]. intros H.
  apply SpecExtension.accepted_extension_spec. left. apply Hiff. exact H.
Qed.

End ImageNames.

Module LatestImageExample.

(** A directory of four entries and their modification times. *)
Definition listing : list (string * Z) :=
  [("a.png", 5); ("notes.txt", 9); ("b.JPG", 7); ("c.gif", 7)].

Definition mtime_of (path : string) : Z :=
  default 0 (snd <$> List.find (fun entry => String.eqb ("/out/" +:+ fst entry) path) listing).

Definition denv : DirEnv Sim.sim :=
  {| readdirSync := fun dir w => (w, inr (map fst listing));
     statSync_mtime := fun path w => (w, inr (mtime_of path));
     path_join := fun dir file => dir +:+ "/" +:+ file |}.

End LatestImageExample.

